(** * ModernPortfolio: a shallow embedding of [js/modern-multipage.js]
    and of the early theme initialisation script.

    The page controller is a JavaScript class whose methods mutate the
    document, [localStorage], the timer queue and the fields of the single
    controller instance.  The embedding threads one [Page] value through
    every method; a method is a function [Page -> Page * Completion A], so
    that a thrown exception keeps the mutations made before the throw, as in
    JavaScript.

    Conventions:
    - strings that the code compares or stores (themes, class names,
      attribute values) are [string];
    - the text of a form field is a list of UTF-16 code units ([list N]),
      because [trim] and the [\s] class of the e-mail pattern are defined on
      code units;
    - times are integral milliseconds ([Z]), as returned by [Date.now()];
    - the other JavaScript numbers (scroll offsets, the counter easing) are
      rationals ([Q]); an arithmetic operation is the exact operation
      followed by the rounding of the machine, which is a parameter
      ([Arith]), and so is the approximation computed by [Math.pow]; the
      exact arithmetic and the IEEE doubles are its two instances. *)

From Stdlib Require Import ZArith QArith Qround Qminmax Qpower Qabs Lqa Lia.
From Stdlib Require Import String Ascii List Bool.
From stdpp Require Import base option gmap strings.

Import ListNotations.
Local Open Scope string_scope.
Local Open Scope Z_scope.

(** ** Completions and the method monad *)

Inductive Exception : Type :=
| SecurityError        (* storage access denied *)
| QuotaExceededError   (* storage write refused *)
| TypeError.           (* property access on null / undefined *)

Inductive Completion (A : Type) : Type :=
| Normal (a : A)
| Throw (e : Exception).
Arguments Normal {A} a.
Arguments Throw {A} e.

(** ** Browser storage

    [localStorage] maps string keys to string values.  A browser may refuse
    reads (storage disabled: [getItem] throws a SecurityError) or writes
    (quota exhausted or private mode: [setItem] throws). *)

Record Storage : Type := mkStorage {
  items : gmap string string;
  readable : bool;
  writable : bool
}.

Definition getItem (k : string) (s : Storage) : Completion (option string) :=
  if readable s then Normal (items s !! k) else Throw SecurityError.

Definition setItem (k v : string) (s : Storage) : Storage * Completion unit :=
  if writable s
  then (mkStorage (<[k := v]> (items s)) (readable s) (writable s), Normal tt)
  else (s, Throw QuotaExceededError).

(** [x || d] on a possibly-null string: [null] and the empty string are
    falsy. *)
Definition or_default (x : option string) (d : string) : string :=
  match x with
  | Some EmptyString => d
  | Some s => s
  | None => d
  end.

(** ** Numbers

    The result of [+], [-], [*] and [/] on doubles is the exact result
    rounded to a double: [rnd].  [Math.pow(x, 3)] is an
    implementation-approximated value: [pow3].  The exact arithmetic is one
    instance; what is assumed of any other is collected in [sound_arith]:
    rounding is monotone and keeps 0 and 1, the cube is monotone on [0, 1]
    and maps 0 to 0. *)

Record Arith : Type := mkArith {
  rnd : Q -> Q;
  pow3 : Q -> Q
}.

Definition exact_arith : Arith := mkArith (fun x => x) (fun x => (x ^ 3)%Q).

Record sound_arith (A : Arith) : Prop := mkSound {
  rnd_monotone : forall x y, (x <= y)%Q -> (rnd A x <= rnd A y)%Q;
  rnd_zero : (rnd A 0 == 0)%Q;
  rnd_one : (rnd A 1 == 1)%Q;
  pow3_monotone :
    forall x y, (0 <= x)%Q -> (x <= y)%Q -> (y <= 1)%Q -> (pow3 A x <= pow3 A y)%Q;
  pow3_zero : (pow3 A 0 == 0)%Q
}.

(** An integer that is a double, such as the result of [parseInt]. *)
Definition representable (A : Arith) (z : Z) : Prop :=
  (rnd A (inject_Z z) == inject_Z z)%Q.

(** *** IEEE 754 doubles

    Rounding to the nearest double, ties to the even significand, for
    numbers in the normal range (the counters and scroll offsets are far
    from the overflow and underflow thresholds). *)

Module Double.

(** [floor (log2 x)] for a positive [x]. *)
Definition exponent (x : Q) : Z :=
  let k := Z.log2 (Qnum x) - Z.log2 (Zpos (Qden x)) in
  if Qle_bool (2 ^ k) x then k else k - 1.

(** The integer nearest to [m], the even one of the two when [m] is half
    way between them. *)
Definition nearest_even (m : Q) : Z :=
  let f := Qfloor m in
  match (m - inject_Z f ?= 1 # 2)%Q with
  | Lt => f
  | Gt => f + 1
  | Eq => if Z.even f then f else f + 1
  end.

(** A positive [x] rounded to 53 significant bits. *)
Definition round_pos (x : Q) : Q :=
  let e := exponent x - 52 in
  (inject_Z (nearest_even (x / 2 ^ e)) * 2 ^ e)%Q.

Definition round (x : Q) : Q :=
  match Qnum x with
  | Z0 => 0%Q
  | Zpos _ => round_pos x
  | Zneg _ => (- round_pos (- x))%Q
  end.

End Double.

(** The arithmetic of the machine.  [Math.pow(x, 3)] is taken to be the
    cube rounded to the nearest double. *)
Definition double_arith : Arith :=
  mkArith Double.round (fun x => Double.round (x ^ 3)%Q).

(** ** The document

    Only the parts of the DOM that the controller reads or writes are
    represented.  Elements whose state matters are fields of their own;
    for the other selectors the document only says how many elements
    match ([matches]).  Cosmetic [style.cssText] assignments are left out. *)

Record Icon : Type := mkIcon { opacity : string }.

(** [#theme-toggle] with the results of [querySelector('.light-icon')] and
    [querySelector('.dark-icon')] on it ([None] is [null]). *)
Record ThemeToggle : Type := mkToggle {
  light_icon : option Icon;
  dark_icon : option Icon
}.

Record NavLink : Type := mkNavLink {
  href : option string;         (* getAttribute('href') *)
  data_page : option string;    (* getAttribute('data-page') *)
  link_classes : list string
}.

(** A [.stat-number[data-count]] element: the integer that [parseInt]
    reads from [data-count], and the number shown as its text. *)
Record StatNumber : Type := mkStat {
  data_count : Z;
  stat_text : option Z
}.

(** An [input], [textarea] or [select] together with the class list of its
    parent element. *)
Record Field : Type := mkField {
  value : list N;
  required : bool;
  type : string;
  container : list string
}.

Record Document : Type := mkDocument {
  root_theme : option string;            (* documentElement[data-theme] *)
  body_theme : option string;            (* body[data-theme] *)
  body_transition : string;              (* body.style.transition *)
  body_classes : list string;
  loading_screen : option (list string); (* classList of #loading-screen *)
  main_navbar : option (list string);    (* classList of #main-navbar *)
  theme_toggle : option ThemeToggle;
  nav_links : list NavLink;              (* .nav-link *)
  scroll_progress : option Q;            (* width of the progress bar, in % *)
  scroll_to_top : bool;                  (* is there a #scroll-to-top *)
  stat_numbers : list StatNumber;
  fields : list Field;                   (* input, textarea, select *)
  appended : list string;                (* elements the script inserted *)
  matches : string -> nat                (* querySelectorAll(sel).length *)
}.

(** ** Event targets, listeners, timers *)

Inductive Target : Type :=
| Window
| DocumentNode
| ById (id : string)
| Nth (selector : string) (i : nat)
| Created (what : string).

Inductive Handler : Type :=
| HideOverlayAfterLoad (startTime : Z)
| UpdateNavbar
| ToggleThemeClick
| SmoothScroll
| UpdateProgress
| ShowBackToTop
| ScrollToTop
| ScrollToTopOnKey
| ScrollToTopWithRipple
| Ripple
| Tilt
| ResetTilt
| Glow
| Unglow
| ShowTooltip
| HideTooltip
| FocusField
| BlurField
| ValidateInput
| KeyboardNav
| MouseNav
| WebVitals
| PauseAnimations
| TrapFocus
| ShowSkipLink
| HideSkipLink
| ToggleScrollButton
| NavigateToPage.

Record Listener : Type := mkListener {
  target : Target;
  event : string;
  handler : Handler
}.

Inductive Callback : Type :=
| Repaint
| ClearBodyTransition
| HideLoading
| FinishLoading
| RemoveAnnouncement
| FadeInUp (card : nat).

(** The fields of the controller instance ([this]). *)
Record Portfolio : Type := mkPortfolio {
  theme : string;
  currentPage : string;
  loadingComplete : bool
}.

Record Page : Type := mkPage {
  localStorage : Storage;
  document : Document;
  this : Portfolio;
  now : Z;                          (* Date.now() *)
  timers : list (Z * Callback);     (* pending setTimeout: due time, callback *)
  listeners : list Listener;
  observed : list (string * Target); (* IntersectionObserver.observe *)
  pathname : string;                (* window.location.pathname *)
  low_end : bool                    (* hardwareConcurrency < 4 || deviceMemory < 2 *)
}.

(** *** Field updates *)

Definition with_storage (s : Storage) (p : Page) : Page :=
  mkPage s (document p) (this p) (now p) (timers p) (listeners p) (observed p)
    (pathname p) (low_end p).
Definition with_document (d : Document) (p : Page) : Page :=
  mkPage (localStorage p) d (this p) (now p) (timers p) (listeners p) (observed p)
    (pathname p) (low_end p).
Definition with_this (t : Portfolio) (p : Page) : Page :=
  mkPage (localStorage p) (document p) t (now p) (timers p) (listeners p) (observed p)
    (pathname p) (low_end p).
Definition with_now (t : Z) (p : Page) : Page :=
  mkPage (localStorage p) (document p) (this p) t (timers p) (listeners p) (observed p)
    (pathname p) (low_end p).
Definition with_timers (ts : list (Z * Callback)) (p : Page) : Page :=
  mkPage (localStorage p) (document p) (this p) (now p) ts (listeners p) (observed p)
    (pathname p) (low_end p).
Definition with_listeners (ls : list Listener) (p : Page) : Page :=
  mkPage (localStorage p) (document p) (this p) (now p) (timers p) ls (observed p)
    (pathname p) (low_end p).
Definition with_observed (os : list (string * Target)) (p : Page) : Page :=
  mkPage (localStorage p) (document p) (this p) (now p) (timers p) (listeners p) os
    (pathname p) (low_end p).

Definition set_root_theme (v : option string) (d : Document) : Document :=
  mkDocument v (body_theme d) (body_transition d) (body_classes d)
    (loading_screen d) (main_navbar d) (theme_toggle d) (nav_links d)
    (scroll_progress d) (scroll_to_top d) (stat_numbers d) (fields d)
    (appended d) (matches d).
Definition set_body_theme (v : option string) (d : Document) : Document :=
  mkDocument (root_theme d) v (body_transition d) (body_classes d)
    (loading_screen d) (main_navbar d) (theme_toggle d) (nav_links d)
    (scroll_progress d) (scroll_to_top d) (stat_numbers d) (fields d)
    (appended d) (matches d).
Definition set_body_transition (v : string) (d : Document) : Document :=
  mkDocument (root_theme d) (body_theme d) v (body_classes d)
    (loading_screen d) (main_navbar d) (theme_toggle d) (nav_links d)
    (scroll_progress d) (scroll_to_top d) (stat_numbers d) (fields d)
    (appended d) (matches d).
Definition set_body_classes (v : list string) (d : Document) : Document :=
  mkDocument (root_theme d) (body_theme d) (body_transition d) v
    (loading_screen d) (main_navbar d) (theme_toggle d) (nav_links d)
    (scroll_progress d) (scroll_to_top d) (stat_numbers d) (fields d)
    (appended d) (matches d).
Definition set_loading_screen (v : option (list string)) (d : Document) : Document :=
  mkDocument (root_theme d) (body_theme d) (body_transition d) (body_classes d)
    v (main_navbar d) (theme_toggle d) (nav_links d)
    (scroll_progress d) (scroll_to_top d) (stat_numbers d) (fields d)
    (appended d) (matches d).
Definition set_main_navbar (v : option (list string)) (d : Document) : Document :=
  mkDocument (root_theme d) (body_theme d) (body_transition d) (body_classes d)
    (loading_screen d) v (theme_toggle d) (nav_links d)
    (scroll_progress d) (scroll_to_top d) (stat_numbers d) (fields d)
    (appended d) (matches d).
Definition set_theme_toggle (v : option ThemeToggle) (d : Document) : Document :=
  mkDocument (root_theme d) (body_theme d) (body_transition d) (body_classes d)
    (loading_screen d) (main_navbar d) v (nav_links d)
    (scroll_progress d) (scroll_to_top d) (stat_numbers d) (fields d)
    (appended d) (matches d).
Definition set_nav_links (v : list NavLink) (d : Document) : Document :=
  mkDocument (root_theme d) (body_theme d) (body_transition d) (body_classes d)
    (loading_screen d) (main_navbar d) (theme_toggle d) v
    (scroll_progress d) (scroll_to_top d) (stat_numbers d) (fields d)
    (appended d) (matches d).
Definition set_scroll_progress (v : option Q) (d : Document) : Document :=
  mkDocument (root_theme d) (body_theme d) (body_transition d) (body_classes d)
    (loading_screen d) (main_navbar d) (theme_toggle d) (nav_links d)
    v (scroll_to_top d) (stat_numbers d) (fields d)
    (appended d) (matches d).
Definition set_appended (v : list string) (d : Document) : Document :=
  mkDocument (root_theme d) (body_theme d) (body_transition d) (body_classes d)
    (loading_screen d) (main_navbar d) (theme_toggle d) (nav_links d)
    (scroll_progress d) (scroll_to_top d) (stat_numbers d) (fields d)
    v (matches d).

(** [DOMTokenList]: an ordered set of class names. *)
Definition has_class (c : string) (cl : list string) : bool :=
  existsb (String.eqb c) cl.
Definition classList_add (c : string) (cl : list string) : list string :=
  if has_class c cl then cl else cl ++ [c].
Definition classList_remove (c : string) (cl : list string) : list string :=
  List.filter (fun x => negb (String.eqb c x)) cl.

(** ** Methods *)

Definition Method (A : Type) : Type := Page -> Page * Completion A.

Definition ret {A : Type} (a : A) : Method A := fun p => (p, Normal a).
Definition throw {A : Type} (e : Exception) : Method A := fun p => (p, Throw e).
Definition bind {A B : Type} (m : Method A) (k : A -> Method B) : Method B :=
  fun p =>
    match m p with
    | (p', Normal a) => k a p'
    | (p', Throw e) => (p', Throw e)
    end.
Definition modify (f : Page -> Page) : Method unit := fun p => (f p, Normal tt).
Definition update_document (f : Document -> Document) : Method unit :=
  modify (fun p => with_document (f (document p)) p).

Notation "'let!' x ':=' m 'in' k" := (bind m (fun x => k))
  (at level 10, x name, m at level 100, k at level 200).
Notation "m ;; k" := (bind m (fun _ => k))
  (at level 100, k at level 200, right associativity).

(** [setTimeout(cb, delay)]: the callback becomes due [delay] ms from now
    (a negative delay counts as 0). *)
Definition setTimeout (cb : Callback) (delay : Z) : Method unit :=
  modify (fun p => with_timers (timers p ++ [(now p + Z.max 0 delay, cb)]) p).

Definition addEventListener (t : Target) (ev : string) (h : Handler) : Method unit :=
  modify (fun p => with_listeners (listeners p ++ [mkListener t ev h]) p).

Definition observe (observer : string) (t : Target) : Method unit :=
  modify (fun p => with_observed (observed p ++ [(observer, t)]) p).

(** [list.forEach((x, i) => f i x)], stopping at the first exception. *)
Fixpoint forEach_from {A : Type} (i : nat) (f : nat -> A -> Method unit)
    (l : list A) : Method unit :=
  match l with
  | [] => ret tt
  | x :: l' => f i x ;; forEach_from (S i) f l'
  end.
Definition forEach {A : Type} (f : nat -> A -> Method unit) (l : list A) :
    Method unit :=
  forEach_from 0 f l.

(** [querySelectorAll(sel)] on elements without tracked state. *)
Definition querySelectorAll (sel : string) (p : Page) : list Target :=
  List.map (Nth sel) (seq 0 (matches (document p) sel)).

(** ** Theme system *)

Definition localStorage_getItem (k : string) : Method (option string) :=
  fun p => (p, getItem k (localStorage p)).

Definition localStorage_setItem (k v : string) : Method unit :=
  fun p => let (s, c) := setItem k v (localStorage p) in (with_storage s p, c).

Definition set_theme (t : string) (o : Portfolio) : Portfolio :=
  mkPortfolio t (currentPage o) (loadingComplete o).
Definition set_currentPage (c : string) (o : Portfolio) : Portfolio :=
  mkPortfolio (theme o) c (loadingComplete o).
Definition set_loadingComplete (b : bool) (o : Portfolio) : Portfolio :=
  mkPortfolio (theme o) (currentPage o) b.
Definition update_this (f : Portfolio -> Portfolio) : Method unit :=
  modify (fun p => with_this (f (this p)) p).

(** [updateThemeIcon]: returns early when there is no [#theme-toggle];
    otherwise writes [style.opacity] of the light icon and then of the dark
    icon.  Writing through a [null] icon is a TypeError; the write to the
    light icon has already happened when the dark one is missing. *)
Definition updateThemeIcon : Method unit :=
  fun p =>
    match theme_toggle (document p) with
    | None => (p, Normal tt)
    | Some toggleBtn =>
        let dark := String.eqb (theme (this p)) "dark" in
        match light_icon toggleBtn with
        | None => (p, Throw TypeError)
        | Some _ =>
            let lightIcon := mkIcon (if dark then "0" else "1") in
            match dark_icon toggleBtn with
            | None =>
                (with_document
                   (set_theme_toggle
                      (Some (mkToggle (Some lightIcon) None)) (document p)) p,
                 Throw TypeError)
            | Some _ =>
                let darkIcon := mkIcon (if dark then "1" else "0") in
                (with_document
                   (set_theme_toggle
                      (Some (mkToggle (Some lightIcon) (Some darkIcon)))
                      (document p)) p,
                 Normal tt)
            end
        end
    end.

Definition setTheme (t : string) : Method unit :=
  update_document (set_root_theme (Some t)) ;;
  update_document (set_body_theme (Some t)) ;;
  localStorage_setItem "theme" t ;;
  update_this (set_theme t) ;;
  updateThemeIcon ;;
  setTimeout Repaint 50.

Definition triggerThemeTransition : Method unit :=
  update_document (set_body_transition "all 0.3s ease") ;;
  setTimeout ClearBodyTransition 300.

Definition toggleTheme : Method unit :=
  fun p =>
    let newTheme := if String.eqb (theme (this p)) "light" then "dark" else "light" in
    (setTheme newTheme ;; triggerThemeTransition) p.

(** ** Loading system *)

Definition minLoadTime : Z := 300.

Definition initLoading : Method unit :=
  fun p =>
    match loading_screen (document p) with
    | None => (p, Normal tt)
    | Some _ =>
        let startTime := now p in
        addEventListener Window "load" (HideOverlayAfterLoad startTime) p
    end.

(** The listener that [initLoading] registers for the window [load] event. *)
Definition onWindowLoad (startTime : Z) : Method unit :=
  fun p =>
    let elapsedTime := now p - startTime in
    let remainingTime := Z.max 0 (minLoadTime - elapsedTime) in
    setTimeout HideLoading remainingTime p.

Definition hideLoading : Method unit :=
  update_document
    (fun d => set_loading_screen
                (option_map (classList_add "hidden") (loading_screen d)) d) ;;
  setTimeout FinishLoading 500.

Definition initScrollToTop : Method unit :=
  fun p =>
    if scroll_to_top (document p)
    then (addEventListener Window "scroll" ToggleScrollButton ;;
          addEventListener (ById "scroll-to-top") "click" ScrollToTopWithRipple) p
    else (p, Normal tt).

Definition initStatCounters : Method unit :=
  fun p =>
    forEach (fun i _ => observe "statCounters" (Nth ".stat-number[data-count]" i))
            (stat_numbers (document p)) p.

Definition initPageTransitions : Method unit :=
  fun p =>
    forEach (fun _ link => addEventListener link "click" NavigateToPage)
            (querySelectorAll "a[href$='.html']" p) p.

Definition triggerEntranceAnimations : Method unit :=
  fun p =>
    forEach (fun index _ => setTimeout (FadeInUp index) 200)
            (querySelectorAll ".quick-card" p) p.

Definition initPostLoad : Method unit :=
  initScrollToTop ;;
  initStatCounters ;;
  initPageTransitions ;;
  triggerEntranceAnimations.

(** The callback that [hideLoading] schedules. *)
Definition finishLoading : Method unit :=
  update_document (set_loading_screen None) ;;
  update_this (set_loadingComplete true) ;;
  initPostLoad.

(** ** Navigation system *)

Fixpoint last_segment (acc s : string) : string :=
  match s with
  | EmptyString => acc
  | String c s' =>
      if Ascii.eqb c "/" then last_segment EmptyString s'
      else last_segment (acc ++ String c EmptyString) s'
  end.

Fixpoint drop_chars (n : nat) (s : string) : string :=
  match n, s with
  | O, _ => s
  | S n', String _ s' => drop_chars n' s'
  | S _, EmptyString => EmptyString
  end.

(** [s.replace(pat, '')]: removes the first occurrence of [pat]. *)
Fixpoint remove_first (pat s : string) : string :=
  if String.prefix pat s then drop_chars (String.length pat) s
  else match s with
       | EmptyString => EmptyString
       | String c s' => String c (remove_first pat s')
       end.

Definition getCurrentPage (path : string) : string :=
  let fileName := or_default (Some (last_segment EmptyString path)) "index.html" in
  or_default (Some (remove_first ".html" fileName)) "home".

Definition set_link_classes (cl : list string) (l : NavLink) : NavLink :=
  mkNavLink (href l) (data_page l) cl.

Definition updateActiveNavLink : Method unit :=
  fun p =>
    let mark (link : NavLink) :=
      let cl := classList_remove "active" (link_classes link) in
      match data_page link with
      | Some pg =>
          if String.eqb pg (currentPage (this p))
          then set_link_classes (classList_add "active" cl) link
          else set_link_classes cl link
      | None => set_link_classes cl link
      end in
    update_document (fun d => set_nav_links (List.map mark (nav_links d)) d) p.

(** [initNavigation].  The navbar is looked up but only used by the scroll
    callback; [link.getAttribute('href').startsWith('#')] is a TypeError on
    a link without [href]. *)
Definition initNavigation : Method unit :=
  addEventListener Window "scroll" UpdateNavbar ;;
  (fun p =>
     match theme_toggle (document p) with
     | Some _ => addEventListener (ById "theme-toggle") "click" ToggleThemeClick p
     | None => (p, Normal tt)
     end) ;;
  updateActiveNavLink ;;
  (fun p =>
     forEach (fun i link =>
                match href link with
                | None => throw TypeError
                | Some h =>
                    if String.prefix "#" h
                    then addEventListener (Nth ".nav-link" i) "click" SmoothScroll
                    else ret tt
                end)
             (nav_links (document p)) p).

(** The animation-frame callback of the navbar scroll listener, run with
    the current [window.scrollY]. *)
Definition updateNavbar (currentScrollY : Q) : Method unit :=
  fun p =>
    match main_navbar (document p) with
    | None => (p, Throw TypeError)
    | Some cl =>
        let cl' := if Qlt_le_dec 100 currentScrollY
                   then classList_add "scrolled" cl
                   else classList_remove "scrolled" cl in
        (with_document (set_main_navbar (Some cl') (document p)) p, Normal tt)
    end.

(** ** Scroll progress indicator *)

Definition initScrollProgress : Method unit :=
  update_document (set_scroll_progress None) ;;
  update_document (set_scroll_progress (Some 0%Q)) ;;
  addEventListener Window "scroll" UpdateProgress.

(** The numbers read by the scroll listener: [window.pageYOffset],
    [documentElement.scrollTop], [documentElement.scrollHeight] and
    [window.innerHeight]. *)
Record Viewport : Type := mkViewport {
  pageYOffset : Q;
  scrollTop_root : Q;
  scrollHeight_root : Q;
  innerHeight : Q
}.

Definition scrollPercent (A : Arith) (v : Viewport) : Q :=
  let scrollTop :=
    if Qeq_bool (pageYOffset v) 0 then scrollTop_root v else pageYOffset v in
  let scrollHeight := rnd A (scrollHeight_root v - innerHeight v)%Q in
  if Qlt_le_dec 0 scrollHeight
  then rnd A (rnd A (scrollTop / scrollHeight) * 100)%Q
  else 0%Q.

(** The percentage in [progressBar.style.width]. *)
Definition progressWidth (A : Arith) (v : Viewport) : Q :=
  Qmin (Qmax (scrollPercent A v) 0) 100.

Definition onScrollProgress (A : Arith) (v : Viewport) : Method unit :=
  update_document (set_scroll_progress (Some (progressWidth A v))).

(** ** Back to top, animations, interactions, performance, accessibility

    These initialisers create elements and register listeners and
    observers; none of them reads an element that may be missing. *)

Definition insert_last (what : string) : Method unit :=
  update_document (fun d => set_appended (appended d ++ [what]) d).
Definition insert_first (what : string) : Method unit :=
  update_document (fun d => set_appended (what :: appended d) d).

Definition initBackToTop : Method unit :=
  insert_last "back-to-top" ;;
  addEventListener Window "scroll" ShowBackToTop ;;
  addEventListener (Created "back-to-top") "click" ScrollToTop ;;
  addEventListener (Created "back-to-top") "keydown" ScrollToTopOnKey.

Definition initScrollAnimations : Method unit :=
  fun p =>
    forEach (fun _ el => observe "scrollAnimations" el)
      (querySelectorAll
         ".highlight-card, .quick-card, .profile-card, .stat-item, .hero-badge" p)
      p.

(** The optional [AOS.init] call belongs to an external library and touches
    nothing that this model tracks. *)
Definition initAnimations : Method unit := initScrollAnimations.

Definition initButtonRipples : Method unit :=
  fun p =>
    forEach (fun _ button => addEventListener button "click" Ripple)
      (querySelectorAll ".btn, .modern-btn-primary, .modern-btn-outline, .social-btn" p)
      p.

Definition initCardEffects : Method unit :=
  fun p =>
    forEach (fun _ card =>
               addEventListener card "mousemove" Tilt ;;
               addEventListener card "mouseleave" ResetTilt ;;
               addEventListener card "mouseenter" Glow ;;
               addEventListener card "mouseleave" Unglow)
      (querySelectorAll ".highlight-card, .quick-card, .profile-card" p) p.

Definition initTooltips : Method unit :=
  fun p =>
    forEach (fun _ element =>
               addEventListener element "mouseenter" ShowTooltip ;;
               addEventListener element "mouseleave" HideTooltip)
      (querySelectorAll "[data-tooltip]" p) p.

Definition initFormInteractions : Method unit :=
  fun p =>
    forEach (fun i _ =>
               let element := Nth "input, textarea, select" i in
               addEventListener element "focus" FocusField ;;
               addEventListener element "blur" BlurField ;;
               addEventListener element "input" ValidateInput)
      (fields (document p)) p.

Definition initKeyboardNavigation : Method unit :=
  addEventListener DocumentNode "keydown" KeyboardNav ;;
  addEventListener DocumentNode "mousedown" MouseNav.

Definition initInteractions : Method unit :=
  initButtonRipples ;;
  initCardEffects ;;
  initTooltips ;;
  initFormInteractions ;;
  initKeyboardNavigation.

Definition initLazyLoading : Method unit :=
  fun p =>
    forEach (fun _ img => observe "lazyImages" img)
      (querySelectorAll "img[data-src]" p) p.

Definition preloadCriticalResources : Method unit :=
  forEach (fun _ page => insert_last ("prefetch:" ++ page))
    ["about.html"; "research.html"; "contact.html"].

(** [window.performance] is taken to be defined, as in every browser that
    runs this script. *)
Definition monitorPerformance : Method unit :=
  addEventListener Window "load" WebVitals.

Definition optimizeForLowEnd : Method unit :=
  (fun p =>
     if low_end p
     then update_document
            (fun d => set_body_classes
                        (classList_add "reduced-motion" (body_classes d)) d) p
     else (p, Normal tt)) ;;
  addEventListener DocumentNode "visibilitychange" PauseAnimations.

Definition initPerformance : Method unit :=
  initLazyLoading ;;
  preloadCriticalResources ;;
  monitorPerformance ;;
  optimizeForLowEnd.

Definition announcePageChange : Method unit :=
  insert_last "announcement" ;;
  setTimeout RemoveAnnouncement 1000.

Definition initSkipLinks : Method unit :=
  addEventListener (Created "skip-link") "focus" ShowSkipLink ;;
  addEventListener (Created "skip-link") "blur" HideSkipLink ;;
  insert_first "skip-link".

Definition initFocusManagement : Method unit :=
  addEventListener DocumentNode "keydown" TrapFocus.

Definition initLiveRegions : Method unit := insert_last "live-region".

Definition initAccessibility : Method unit :=
  announcePageChange ;;
  initSkipLinks ;;
  initFocusManagement ;;
  initLiveRegions.

(** ** Construction *)

Definition init : Method unit :=
  (fun p => setTheme (theme (this p)) p) ;;
  initLoading ;;
  initNavigation ;;
  initScrollProgress ;;
  initBackToTop ;;
  initAnimations ;;
  initInteractions ;;
  initPerformance ;;
  initAccessibility.

(** [new ModernPortfolio()]. *)
Definition constructor : Method unit :=
  let! stored := localStorage_getItem "theme" in
  update_this (set_theme (or_default stored "light")) ;;
  (fun p => update_this (set_currentPage (getCurrentPage (pathname p))) p) ;;
  update_this (set_loadingComplete false) ;;
  init.

(** ** Timers *)

Definition fire (cb : Callback) : Method unit :=
  match cb with
  | Repaint => ret tt
  | ClearBodyTransition => update_document (set_body_transition EmptyString)
  | HideLoading => hideLoading
  | FinishLoading => finishLoading
  | RemoveAnnouncement =>
      update_document
        (fun d => set_appended
                    (List.filter (fun x => negb (String.eqb x "announcement"))
                                 (appended d)) d)
  | FadeInUp _ => ret tt
  end.

Definition advance (dt : Z) (p : Page) : Page := with_now (now p + dt) p.

(** The event loop runs the [i]-th pending timer, provided it is due. *)
Definition run_timer (i : nat) : Method unit :=
  fun p =>
    match nth_error (timers p) i with
    | Some (due, cb) =>
        if due <=? now p
        then fire cb (with_timers (firstn i (timers p) ++ skipn (S i) (timers p)) p)
        else (p, Normal tt)
    | None => (p, Normal tt)
    end.

(** ** Stat counters

    [animateCounter] starts an interval timer whose callback is [tick]; the
    state below is the closure of that callback together with the element
    it writes to. *)

Module Counter.

Definition duration : Q := 2000%Q.
Definition steps : Q := 60%Q.

Record State : Type := mkState {
  element : StatNumber;
  target : Z;
  increment : Q;
  current : Q;
  step : Z;
  cleared : bool            (* clearInterval(timer) has been called *)
}.

Definition animateCounter (A : Arith) (element : StatNumber) : State :=
  let target := data_count element in
  mkState element target (rnd A (inject_Z target / steps))%Q 0%Q 0%Z false.

Definition set_text (v : Z) (e : StatNumber) : StatNumber :=
  mkStat (data_count e) (Some v).

Definition easeOut (A : Arith) (step : Z) : Q :=
  let progress := rnd A (inject_Z step / steps)%Q in
  rnd A (1 - pow3 A (rnd A (1 - progress)))%Q.

Definition displayValue (A : Arith) (target step : Z) : Z :=
  Qfloor (rnd A (inject_Z target * easeOut A step)%Q).

(** One run of the interval callback; a cleared interval does not run. *)
Definition tick (A : Arith) (c : State) : State :=
  if cleared c then c
  else
    let step' := (step c + 1)%Z in
    let current' :=
      Qmin (rnd A (current c + increment c)%Q) (inject_Z (target c)) in
    let shown := set_text (displayValue A (target c) step') (element c) in
    if Qle_bool steps (inject_Z step')
    then mkState (set_text (target c) shown) (target c) (increment c)
                 current' step' true
    else mkState shown (target c) (increment c) current' step' false.

(** The closure after [s] runs of the callback, and the number shown. *)
Definition after (A : Arith) (el : StatNumber) (s : nat) : State :=
  Nat.iter s (tick A) (animateCounter A el).

Definition displayed (A : Arith) (el : StatNumber) (s : nat) : option Z :=
  stat_text (element (after A el s)).

End Counter.

(** ** Form validation *)

(** Code units matched by [\s] and stripped by [trim]: WhiteSpace and
    LineTerminator of ECMAScript. *)
Definition is_space (c : N) : bool :=
  ((9 <=? c) && (c <=? 13) || (c =? 32) || (c =? 160) || (c =? 5760)
   || (8192 <=? c) && (c <=? 8202) || (c =? 8232) || (c =? 8233)
   || (c =? 8239) || (c =? 8287) || (c =? 12288) || (c =? 65279))%N.

Fixpoint trimStart (s : list N) : list N :=
  match s with
  | c :: s' => if is_space c then trimStart s' else s
  | [] => []
  end.

Definition trim (s : list N) : list N := rev (trimStart (rev (trimStart s))).

(** Regular expressions over code units, matched with derivatives. *)
Inductive Regex : Type :=
| Void
| Eps
| Class (f : N -> bool)
| Seq (r1 r2 : Regex)
| Alt (r1 r2 : Regex)
| Star (r : Regex).

Definition Plus (r : Regex) : Regex := Seq r (Star r).

Fixpoint nullable (r : Regex) : bool :=
  match r with
  | Void => false
  | Eps => true
  | Class _ => false
  | Seq r1 r2 => nullable r1 && nullable r2
  | Alt r1 r2 => nullable r1 || nullable r2
  | Star _ => true
  end.

Fixpoint deriv (c : N) (r : Regex) : Regex :=
  match r with
  | Void => Void
  | Eps => Void
  | Class f => if f c then Eps else Void
  | Seq r1 r2 =>
      if nullable r1
      then Alt (Seq (deriv c r1) r2) (deriv c r2)
      else Seq (deriv c r1) r2
  | Alt r1 r2 => Alt (deriv c r1) (deriv c r2)
  | Star r1 => Seq (deriv c r1) (Star r1)
  end.

(** [/^r$/.test(s)] *)
Definition test (r : Regex) (s : list N) : bool :=
  nullable (fold_left (fun r c => deriv c r) s r).

(** [/^[^\s@]+@[^\s@]+\.[^\s@]+$/] *)
Definition emailRegex : Regex :=
  let at_sign := 64%N in
  let dot := 46%N in
  let other := Class (fun c => negb (is_space c || (c =? at_sign)%N)) in
  Seq (Plus other)
      (Seq (Class (N.eqb at_sign))
           (Seq (Plus other) (Seq (Class (N.eqb dot)) (Plus other)))).

Definition set_container (cl : list string) (f : Field) : Field :=
  mkField (value f) (required f) (type f) cl.

Definition is_empty (s : list N) : bool :=
  match s with [] => true | _ => false end.

(** [validateField(field)]: the field after the call and the returned
    boolean. *)
Definition validateField (field : Field) : Field * bool :=
  let value := trim (value field) in
  let cleared := classList_remove "invalid"
                   (classList_remove "valid" (container field)) in
  if required field && is_empty value
  then (set_container (classList_add "invalid" cleared) field, false)
  else if String.eqb (type field) "email" && negb (is_empty value)
          && negb (test emailRegex value)
  then (set_container (classList_add "invalid" cleared) field, false)
  else if negb (is_empty value)
  then (set_container (classList_add "valid" cleared) field, true)
  else (set_container cleared field, true).

(** Code units of an ASCII string, for writing examples. *)
Definition units (s : string) : list N :=
  List.map N_of_ascii (list_ascii_of_string s).

(** ** The early theme initialisation script

    The second script of the repository runs in [<head>], usually before
    [document.body] exists.  Its whole body is inside [try]/[catch]. *)

Module ThemeInit.

Record Body : Type := mkBody {
  body_attr : option string;
  body_classList : list string
}.

Record State : Type := mkState {
  storage : Storage;
  root_attr : option string;        (* documentElement[data-theme] *)
  root_classList : list string;
  body : option Body;
  loading : bool;                   (* document.readyState === 'loading' *)
  deferred : list (string * string);(* event awaited, theme to apply *)
  logged : nat                      (* console.error calls *)
}.

Definition initializeBodyTheme (savedTheme : string) (s : State) : State :=
  match body s with
  | None => s
  | Some b =>
      let cls := if String.eqb savedTheme "dark" then "dark-theme" else "light-theme" in
      mkState (storage s) (root_attr s)
        (classList_add cls (root_classList s))
        (Some (mkBody (Some savedTheme) (classList_add cls (body_classList b))))
        (loading s) (deferred s) (logged s)
  end.

Definition setRootTheme (t : string) (s : State) : State :=
  mkState (storage s) (Some t) (root_classList s) (body s) (loading s)
    (deferred s) (logged s).

Definition defer (ev savedTheme : string) (s : State) : State :=
  mkState (storage s) (root_attr s) (root_classList s) (body s) (loading s)
    (deferred s ++ [(ev, savedTheme)]) (logged s).

Definition run (s : State) : State :=
  match getItem "theme" (storage s) with
  | Normal stored =>
      let savedTheme := or_default stored "light" in
      let s1 := setRootTheme savedTheme s in
      match body s1 with
      | Some _ => initializeBodyTheme savedTheme s1
      | None =>
          let s2 := if loading s1
                    then defer "DOMContentLoaded" savedTheme s1
                    else defer "timeout" savedTheme s1 in
          defer "load" savedTheme s2
      end
  | Throw _ =>
      (* catch (error): console.error, then the light fallback *)
      setRootTheme "light"
        (mkState (storage s) (root_attr s) (root_classList s) (body s)
           (loading s) (deferred s) (S (logged s)))
  end.

End ThemeInit.

(** ** Sample pages *)

Definition bare_document : Document :=
  mkDocument None None EmptyString [] None None None [] None false [] [] []
    (fun _ => 0%nat).

(** A document with every element the controller looks for. *)
Definition full_document : Document :=
  mkDocument None None EmptyString []
    (Some ["loading-screen"]) (Some ["navbar"])
    (Some (mkToggle (Some (mkIcon EmptyString)) (Some (mkIcon EmptyString))))
    [mkNavLink (Some "index.html") (Some "index") ["nav-link"];
     mkNavLink (Some "#contact") None ["nav-link"]]
    None true
    [mkStat 100 None]
    [mkField [] true "email" []]
    []
    (fun sel => if String.eqb sel ".quick-card" then 2%nat else 1%nat).

Definition unconstructed : Portfolio := mkPortfolio EmptyString EmptyString false.

Definition storage_with (stored : option string) : Storage :=
  mkStorage (match stored with
             | Some v => {[ "theme" := v ]}
             | None => ∅
             end) true true.

Definition page_of (s : Storage) (d : Document) : Page :=
  mkPage s d unconstructed 1000 [] [] [] "/index.html" false.

(** ** Observations used in the statements *)

(** The theme that the two icons of the toggle button display: the icon
    with opacity 1 while the other has opacity 0. *)
Definition shown_theme (b : ThemeToggle) : option string :=
  match light_icon b, dark_icon b with
  | Some l, Some d =>
      if String.eqb (opacity l) "1" && String.eqb (opacity d) "0"
      then Some "light"
      else if String.eqb (opacity l) "0" && String.eqb (opacity d) "1"
      then Some "dark"
      else None
  | _, _ => None
  end.

(** The root attribute, the stored preference and the icons (when the
    toggle button is in the document) all say [t]. *)
Definition theme_agrees (t : string) (p : Page) : Prop :=
  root_theme (document p) = Some t /\
  items (localStorage p) !! "theme" = Some t /\
  (forall b, theme_toggle (document p) = Some b -> shown_theme b = Some t).

(** The icons written by [updateThemeIcon] for theme [t]. *)
Definition icons_for (t : string) : ThemeToggle :=
  let dark := String.eqb t "dark" in
  mkToggle (Some (mkIcon (if dark then "0" else "1")))
           (Some (mkIcon (if dark then "1" else "0"))).

(** The theme that [toggleTheme] switches to. *)
Definition other_theme (t : string) : string :=
  if String.eqb t "light" then "dark" else "light".

(** The argument of [Math.pow] at a step of the counter animation. *)
Definition powBase (A : Arith) (step : Z) : Q :=
  rnd A (1 - rnd A (inject_Z step / Counter.steps))%Q.

(** What the theme system reads and writes. *)
Definition theme_state (p : Page) :
    option string * option string * option ThemeToggle * gmap string string * string :=
  (root_theme (document p), body_theme (document p), theme_toggle (document p),
   items (localStorage p), theme (this p)).

(** What the loading sequence reads and writes, besides the timer queue. *)
Definition load_state (p : Page) : Document * Portfolio * Z :=
  (document p, this p, now p).

Definition never_throws (m : Method unit) : Prop :=
  forall p, snd (m p) = Normal tt.

(** A page on which no initialiser meets a write-protected store, a toggle
    button without its icons, or a navigation link without [href]. *)
Definition well_formed (p : Page) : Prop :=
  writable (localStorage p) = true /\
  (forall b, theme_toggle (document p) = Some b ->
             is_Some (light_icon b) /\ is_Some (dark_icon b)) /\
  Forall (fun l => is_Some (href l)) (nav_links (document p)).

(** The statements of [init], in order. *)
Definition initializers : list (Method unit) :=
  [ (fun p => setTheme (theme (this p)) p);
    initLoading; initNavigation; initScrollProgress; initBackToTop;
    initAnimations; initInteractions; initPerformance; initAccessibility ].

Fixpoint sequence (ms : list (Method unit)) : Method unit :=
  match ms with
  | [] => ret tt
  | [m] => m
  | m :: ms' => m ;; sequence ms'
  end.

(** ** Further behaviour

    Listener and callback bodies that the initialisers register, as
    functions of the closure state they capture. *)

Fixpoint has_char (c : ascii) (s : string) : bool :=
  match s with
  | EmptyString => false
  | String c' s' => Ascii.eqb c c' || has_char c s'
  end.

(** [x > y] on numbers. *)
Definition Qgtb (x y : Q) : bool := if Qlt_le_dec y x then true else false.

(** [document.body] once the parser has created it. *)
Definition ThemeInit_withBody (b : ThemeInit.Body) (s : ThemeInit.State) :
    ThemeInit.State :=
  ThemeInit.mkState (ThemeInit.storage s) (ThemeInit.root_attr s)
    (ThemeInit.root_classList s) (Some b) (ThemeInit.loading s)
    (ThemeInit.deferred s) (ThemeInit.logged s).

(** *** The navbar scroll listener of [initNavigation]

    Its closure ([lastScrollY], [ticking]) together with the page, the
    number of animation-frame callbacks requested and not yet run, and the
    number of uncaught exceptions reported. *)

Record NavbarScroll : Type := mkNavbarScroll {
  nav_page : Page;
  lastScrollY : Q;
  ticking : bool;
  frames : nat;
  uncaught : nat
}.

Definition navbarStart (p : Page) (scrollY : Q) : NavbarScroll :=
  mkNavbarScroll p scrollY false 0 0.

(** The [scroll] listener. *)
Definition onNavbarScroll (s : NavbarScroll) : NavbarScroll :=
  if ticking s then s
  else mkNavbarScroll (nav_page s) (lastScrollY s) true (S (frames s)) (uncaught s).

(** The browser runs a requested animation-frame callback while
    [window.scrollY] is [scrollY]; an exception ends the callback before
    [ticking = false]. *)
Definition onNavbarFrame (scrollY : Q) (s : NavbarScroll) : NavbarScroll :=
  match frames s with
  | O => s
  | S n =>
      match updateNavbar scrollY (nav_page s) with
      | (p', Normal _) => mkNavbarScroll p' scrollY false n (uncaught s)
      | (p', Throw _) =>
          mkNavbarScroll p' (lastScrollY s) (ticking s) n (S (uncaught s))
      end
  end.

Inductive ScrollInput : Type :=
| ScrollFired
| FrameRun (scrollY : Q).

Definition navbarReact (s : NavbarScroll) (i : ScrollInput) : NavbarScroll :=
  match i with
  | ScrollFired => onNavbarScroll s
  | FrameRun y => onNavbarFrame y s
  end.

Definition navbarRun (inputs : list ScrollInput) (s : NavbarScroll) : NavbarScroll :=
  fold_left navbarReact inputs s.

(** *** The scroll listener of [initScrollToTop]: the class list of
    [#scroll-to-top] and the closure variable [isVisible]. *)

Record ScrollButton : Type := mkScrollButton {
  button_classes : list string;
  isVisible : bool
}.

Definition onScrollToTopScroll (scrollY : Q) (b : ScrollButton) : ScrollButton :=
  let shouldShow := Qgtb scrollY 400 in
  if shouldShow && negb (isVisible b)
  then mkScrollButton (classList_add "visible" (button_classes b)) true
  else if negb shouldShow && isVisible b
  then mkScrollButton (classList_remove "visible" (button_classes b)) false
  else b.

Definition scrollToTopRun (ys : list Q) (b : ScrollButton) : ScrollButton :=
  fold_left (fun b y => onScrollToTopScroll y b) ys b.

(** *** Button ripples ([addButtonRipple])

    A button with its bounding rectangle, its computed [position], its
    [style.overflow] and its ripple children; the world around it holds the
    clock and the pending removal timers, each with the ripple it removes. *)

Record Rect : Type := mkRect {
  rect_left : Q;
  rect_top : Q;
  rect_width : Q;
  rect_height : Q
}.

Record RippleSpan : Type := mkRippleSpan {
  ripple_id : nat;
  ripple_x : Q;       (* left, in px *)
  ripple_y : Q;       (* top, in px *)
  ripple_size : Q     (* width and height, in px *)
}.

Record RippleButton : Type := mkRippleButton {
  bounds : Rect;
  position : string;
  overflow : string;
  ripples : list RippleSpan
}.

Record RippleWorld : Type := mkRippleWorld {
  ripple_button : RippleButton;
  ripple_now : Z;
  removals : list (Z * nat);
  spans_created : nat
}.

(** [addButtonRipple(button, e)]; [e] is the pair [(clientX, clientY)] of
    the click event, or [None] when the method is called without event. *)
Definition addButtonRipple (A : Arith) (e : option (Q * Q)) (w : RippleWorld) :
    RippleWorld :=
  let button := ripple_button w in
  let rect := bounds button in
  let size := Qmax (rect_width rect) (rect_height rect) in
  let half := rnd A (size / 2)%Q in
  let x := match e with
           | Some (clientX, _) => rnd A (rnd A (clientX - rect_left rect) - half)%Q
           | None => rnd A (rnd A (rect_width rect / 2) - half)%Q
           end in
  let y := match e with
           | Some (_, clientY) => rnd A (rnd A (clientY - rect_top rect) - half)%Q
           | None => rnd A (rnd A (rect_height rect / 2) - half)%Q
           end in
  let ripple := mkRippleSpan (spans_created w) x y size in
  let position' :=
    if String.eqb (position button) "static" then "relative" else position button in
  mkRippleWorld
    (mkRippleButton rect position' "hidden" (ripples button ++ [ripple]))
    (ripple_now w)
    (removals w ++ [(ripple_now w + 600, spans_created w)])
    (S (spans_created w)).

(** The removal callback of the ripple with identity [id]. *)
Definition removeRipple (id : nat) (b : RippleButton) : RippleButton :=
  mkRippleButton (bounds b) (position b) (overflow b)
    (List.filter (fun r => negb (Nat.eqb (ripple_id r) id)) (ripples b)).

Inductive RippleInput : Type :=
| RippleClick (e : option (Q * Q))
| RippleElapse (dt : N)
| RippleTimer (i : nat).

Definition rippleReact (A : Arith) (w : RippleWorld) (i : RippleInput) : RippleWorld :=
  match i with
  | RippleClick e => addButtonRipple A e w
  | RippleElapse dt =>
      mkRippleWorld (ripple_button w) (ripple_now w + Z.of_N dt) (removals w)
        (spans_created w)
  | RippleTimer i =>
      match nth_error (removals w) i with
      | Some (due, id) =>
          if due <=? ripple_now w
          then mkRippleWorld (removeRipple id (ripple_button w)) (ripple_now w)
                 (firstn i (removals w) ++ skipn (S i) (removals w))
                 (spans_created w)
          else w
      | None => w
      end
  end.

Definition rippleRun (A : Arith) (inputs : list RippleInput) (w : RippleWorld) :
    RippleWorld :=
  fold_left (rippleReact A) inputs w.

(** *** Card tilt (the [mousemove] listener of [initCardEffects])

    The rotation angles written into [card.style.transform], in degrees:
    the argument of [rotateX] and the argument of [rotateY]; [None] when the
    listener returns early. *)
Definition tilt (A : Arith) (innerWidth : Q) (rect : Rect) (clientX clientY : Q) :
    option (Q * Q) :=
  if Qgtb innerWidth 768
  then
    let x := rnd A (clientX - rect_left rect)%Q in
    let y := rnd A (clientY - rect_top rect)%Q in
    let centerX := rnd A (rect_width rect / 2)%Q in
    let centerY := rnd A (rect_height rect / 2)%Q in
    let rotateX := rnd A (rnd A (y - centerY) / 10)%Q in
    let rotateY := rnd A (rnd A (centerX - x) / 10)%Q in
    Some ((- rotateX)%Q, rotateY)
  else None.

(** Every ripple in the button has its removal pending, and conversely. *)
Definition ripple_invariant (w : RippleWorld) : Prop :=
  List.map ripple_id (ripples (ripple_button w)) = List.map snd (removals w) /\
  List.NoDup (List.map snd (removals w)) /\
  Forall (fun r => (snd r < spans_created w)%nat) (removals w) /\
  Forall (fun r => fst r <= ripple_now w + 600) (removals w).

(** *** The language of a regular expression *)

Inductive Matches : Regex -> list N -> Prop :=
| MatchEps : Matches Eps []
| MatchClass (f : N -> bool) (c : N) : f c = true -> Matches (Class f) [c]
| MatchSeq (r1 r2 : Regex) (s1 s2 : list N) :
    Matches r1 s1 -> Matches r2 s2 -> Matches (Seq r1 r2) (s1 ++ s2)
| MatchAltL (r1 r2 : Regex) (s : list N) : Matches r1 s -> Matches (Alt r1 r2) s
| MatchAltR (r1 r2 : Regex) (s : list N) : Matches r2 s -> Matches (Alt r1 r2) s
| MatchStarNil (r : Regex) : Matches (Star r) []
| MatchStarCons (r : Regex) (s1 s2 : list N) :
    Matches r s1 -> Matches (Star r) s2 -> Matches (Star r) (s1 ++ s2).

(** A code unit that is neither whitespace nor '@'. *)
Definition address_unit (c : N) : bool := negb (is_space c || (c =? 64)%N).

(** A non-empty run of such code units. *)
Definition address_part (s : list N) : Prop :=
  s <> [] /\ forallb address_unit s = true.

(** *** [debounce] and [throttle]

    The function returned by [debounce(func, wait, immediate)] or
    [throttle(func, limit)], as a reaction to two kinds of timed event: the
    returned function is called with some arguments, or the browser runs the
    pending timer callback.  [func] is recorded by the calls made to it. *)

Inductive TimedEvent (X : Type) : Type :=
| Invoked (t : Z) (args : X)
| Expired (t : Z).
Arguments Invoked {X} t args.
Arguments Expired {X} t.

Definition event_time {X : Type} (ev : TimedEvent X) : Z :=
  match ev with Invoked t _ => t | Expired t => t end.

(** [timeout] is the pending timer: when it is due and the arguments its
    callback has captured; [None] is [undefined] or [null]. *)
Record Debounced (X : Type) : Type := mkDebounced {
  timeout : option (Z * X);
  delivered : list (Z * X)
}.
Arguments mkDebounced {X} timeout delivered.
Arguments timeout {X} d.
Arguments delivered {X} d.

Definition debounce_react {X : Type} (wait : Z) (immediate : bool)
    (st : Debounced X) (ev : TimedEvent X) : Debounced X :=
  match ev with
  | Invoked t args =>
      let callNow :=
        immediate && match timeout st with Some _ => false | None => true end in
      let timeout' := Some (t + Z.max 0 wait, args) in
      if callNow
      then mkDebounced timeout' (delivered st ++ [(t, args)])
      else mkDebounced timeout' (delivered st)
  | Expired t =>
      match timeout st with
      | Some (due, args) =>
          if due <=? t
          then if immediate
               then mkDebounced None (delivered st)
               else mkDebounced None (delivered st ++ [(t, args)])
          else st
      | None => st
      end
  end.

Definition debounce_run {X : Type} (wait : Z) (immediate : bool)
    (tr : list (TimedEvent X)) (st : Debounced X) : Debounced X :=
  fold_left (debounce_react wait immediate) tr st.

(** [release] is the pending timer that resets [inThrottle]. *)
Record Throttled (X : Type) : Type := mkThrottled {
  inThrottle : bool;
  release : option Z;
  passed : list (Z * X)
}.
Arguments mkThrottled {X} inThrottle release passed.
Arguments inThrottle {X} t.
Arguments release {X} t.
Arguments passed {X} t.

Definition throttle_react {X : Type} (limit : Z) (st : Throttled X)
    (ev : TimedEvent X) : Throttled X :=
  match ev with
  | Invoked t args =>
      if inThrottle st then st
      else mkThrottled true (Some (t + Z.max 0 limit)) (passed st ++ [(t, args)])
  | Expired t =>
      match release st with
      | Some due =>
          if due <=? t then mkThrottled false None (passed st) else st
      | None => st
      end
  end.

Definition throttle_run {X : Type} (limit : Z) (tr : list (TimedEvent X))
    (st : Throttled X) : Throttled X :=
  fold_left (throttle_react limit) tr st.

(** Events in the order of their times, none before [now]. *)
Fixpoint chronological {X : Type} (now : Z) (tr : list (TimedEvent X)) : Prop :=
  match tr with
  | [] => True
  | ev :: tr' => now <= event_time ev /\ chronological (event_time ev) tr'
  end.

(** Successive times at least [gap] apart. *)
Fixpoint spaced (gap : Z) (ts : list Z) : Prop :=
  match ts with
  | [] => True
  | t1 :: rest =>
      match rest with
      | [] => True
      | t2 :: _ => t1 + gap <= t2 /\ spaced gap rest
      end
  end.

(** With [immediate], after the events up to time [now]: the calls of
    [func] so far are spaced, the last of them is not later than [now], and
    a pending timer is due no earlier than [wait] after it; without pending
    timer that much time has passed already. *)
Definition debounce_invariant {X : Type} (wait now : Z) (st : Debounced X) : Prop :=
  spaced (Z.max 0 wait) (List.map fst (delivered st)) /\
  forall L, hd_error (rev (List.map fst (delivered st))) = Some L ->
    L <= now /\
    match timeout st with
    | Some (due, _) => L + Z.max 0 wait <= due
    | None => L + Z.max 0 wait <= now
    end.

Definition throttle_invariant {X : Type} (limit now : Z) (st : Throttled X) : Prop :=
  spaced (Z.max 0 limit) (List.map fst (passed st)) /\
  (inThrottle st = true -> release st <> None) /\
  forall L, hd_error (rev (List.map fst (passed st))) = Some L ->
    L <= now /\
    (inThrottle st = false -> L + Z.max 0 limit <= now) /\
    (forall due, release st = Some due -> L + Z.max 0 limit <= due).


(** ** Events after construction

    What the window [load] event runs: the listeners registered on the
    window for [load], in the order of their registration.  Only
    [initLoading] and [monitorPerformance] register such listeners; the
    second one only reads performance entries and calls into an optional
    external library. *)
Definition handle_load (h : Handler) : Method unit :=
  match h with
  | HideOverlayAfterLoad startTime => onWindowLoad startTime
  | _ => ret tt
  end.

Definition dispatch_load : Method unit :=
  fun p =>
    forEach (fun _ l =>
               match target l with
               | Window =>
                   if String.eqb (event l) "load"
                   then handle_load (handler l)
                   else ret tt
               | _ => ret tt
               end)
            (listeners p) p.

Inductive PageEvent : Type :=
| Elapsed (dt : N)
| TimerDue (i : nat)
| WindowLoad
| ToggleClick.

(** An exception of a callback is reported by the browser and the page
    goes on in the state the callback left.  [ToggleClick] is the
    [toggleTheme] call of the click listener of the toggle button; the
    ripple that the listener adds afterwards lives in the button and is
    modelled with [addButtonRipple]. *)
Definition page_react (p : Page) (ev : PageEvent) : Page :=
  match ev with
  | Elapsed dt => advance (Z.of_N dt) p
  | TimerDue i => fst (run_timer i p)
  | WindowLoad => fst (dispatch_load p)
  | ToggleClick => fst (toggleTheme p)
  end.

Definition page_run (evs : list PageEvent) (p : Page) : Page :=
  fold_left page_react evs p.

(** The callbacks and handlers that belong to the loading sequence and to
    [initPostLoad]. *)
Definition post_load_callback (cb : Callback) : bool :=
  match cb with
  | HideLoading | FinishLoading | FadeInUp _ => true
  | _ => false
  end.

Definition post_load_handler (h : Handler) : bool :=
  match h with
  | HideOverlayAfterLoad _ | ToggleScrollButton | ScrollToTopWithRipple
  | NavigateToPage => true
  | _ => false
  end.

(** No overlay, loading not complete, and nothing of the loading sequence
    or of [initPostLoad] pending or registered. *)
Definition post_load_idle (p : Page) : Prop :=
  loading_screen (document p) = None /\
  loadingComplete (this p) = false /\
  Forall (fun tc => post_load_callback (snd tc) = false) (timers p) /\
  Forall (fun l => post_load_handler (handler l) = false) (listeners p) /\
  Forall (fun o => String.eqb (fst o) "statCounters" = false) (observed p).

Definition maintains {A : Type} (I : Page -> Prop) (m : Method A) : Prop :=
  forall p, I p -> I (fst (m p)).

(** * Properties *)

(** ** Sequencing and framing *)

Section Frame.
Context {V : Type} (view : Page -> V).

Definition keeps {A : Type} (m : Method A) : Prop :=
  forall p, view (fst (m p)) = view p.

Lemma keeps_ret {A : Type} (a : A) : keeps (ret a).
Proof. intros p. reflexivity. Qed.

Lemma keeps_throw {A : Type} (e : Exception) : keeps (@throw A e).
Proof. intros p. reflexivity. Qed.

Lemma keeps_modify (f : Page -> Page) :
  (forall p, view (f p) = view p) -> keeps (modify f).
Proof. intros Hf p. apply Hf. Qed.

Lemma keeps_bind {A B : Type} (m : Method A) (k : A -> Method B) :
  keeps m -> (forall a, keeps (k a)) -> keeps (bind m k).
Proof.
  intros Hm Hk p. unfold bind. specialize (Hm p).
  destruct (m p) as [p' [a | e]]; simpl in *.
  - rewrite Hk. exact Hm.
  - exact Hm.
Qed.

Lemma keeps_forEach_from {A : Type} (f : nat -> A -> Method unit) (l : list A) :
  (forall i x, keeps (f i x)) -> forall i, keeps (forEach_from i f l).
Proof.
  intros Hf. induction l as [| x l IH]; intros i; simpl.
  - apply keeps_ret.
  - apply keeps_bind; [apply Hf | intros _; apply IH].
Qed.

(** When the continuation keeps the view, the view after [m ;; k] is the
    view right after [m], whether or not anything throws. *)
Lemma view_after_bind {A B : Type} (m : Method A) (k : A -> Method B) p :
  (forall a, keeps (k a)) -> view (fst (bind m k p)) = view (fst (m p)).
Proof.
  intros Hk. unfold bind. destruct (m p) as [p' [a | e]]; simpl.
  - apply Hk.
  - reflexivity.
Qed.
End Frame.

Lemma never_throws_ret : never_throws (ret tt).
Proof. intros p. reflexivity. Qed.

Lemma never_throws_modify (f : Page -> Page) : never_throws (modify f).
Proof. intros p. reflexivity. Qed.

Lemma never_throws_bind (m k : Method unit) :
  never_throws m -> never_throws k -> never_throws (m ;; k).
Proof.
  intros Hm Hk p. unfold bind. specialize (Hm p).
  destruct (m p) as [p' c]; simpl in Hm; subst c. apply Hk.
Qed.

Lemma never_throws_forEach_from {A : Type} (f : nat -> A -> Method unit)
    (l : list A) :
  (forall i x, never_throws (f i x)) -> forall i, never_throws (forEach_from i f l).
Proof.
  intros Hf. induction l as [| x l IH]; intros i; simpl.
  - apply never_throws_ret.
  - apply never_throws_bind; [apply Hf | apply IH].
Qed.

(** A completed prefix followed by a throwing statement: the sequence
    stops in the state of the throw. *)
Lemma sequence_aborts (pre post : list (Method unit)) (m : Method unit)
    (p p1 p2 : Page) (e : Exception) :
  sequence pre p = (p1, Normal tt) ->
  m p1 = (p2, Throw e) ->
  sequence (pre ++ m :: post) p = (p2, Throw e).
Proof.
  revert p. induction pre as [| m0 pre IH]; intros p Hpre Hm.
  - simpl in Hpre. injection Hpre as ->. simpl.
    destruct post; [exact Hm | unfold bind; rewrite Hm; reflexivity].
  - assert (Hstep : exists q, m0 p = (q, Normal tt) /\ sequence pre q = (p1, Normal tt)).
    { destruct pre as [| m1 pre'].
      - simpl in Hpre. exists p1. split; [exact Hpre | reflexivity].
      - change (sequence (m0 :: m1 :: pre') p)
          with (bind m0 (fun _ => sequence (m1 :: pre')) p) in Hpre.
        unfold bind in Hpre. destruct (m0 p) as [q [[] | e0]].
        + exists q. split; [reflexivity | exact Hpre].
        + discriminate. }
    destruct Hstep as (q & Hq & Hrest).
    specialize (IH q Hrest Hm).
    change ((m0 :: pre) ++ m :: post)%list with (m0 :: (pre ++ m :: post))%list.
    destruct (pre ++ m :: post)%list as [| m1 rest] eqn:E.
    + destruct pre; discriminate.
    + change (sequence (m0 :: m1 :: rest) p)
        with (bind m0 (fun _ => sequence (m1 :: rest)) p).
      unfold bind. rewrite Hq. exact IH.
Qed.

Lemma init_is_sequence : init = sequence initializers.
Proof. reflexivity. Qed.

Ltac framing :=
  repeat first
    [ apply keeps_ret
    | apply keeps_throw
    | apply keeps_bind; [| intros ?]
    | apply keeps_forEach_from; intros ? ?
    | apply keeps_modify; intros ?; reflexivity ].

Ltac totality :=
  repeat first
    [ apply never_throws_ret
    | apply never_throws_bind
    | apply never_throws_forEach_from; intros ? ?
    | apply never_throws_modify ].

(** *** The initialisers after [setTheme] leave the theme alone *)

Lemma initLoading_keeps_theme : keeps theme_state initLoading.
Proof.
  intros p. unfold initLoading.
  destruct (loading_screen (document p)); reflexivity.
Qed.

Lemma initNavigation_keeps_theme : keeps theme_state initNavigation.
Proof.
  unfold initNavigation.
  apply keeps_bind; [framing | intros _].
  apply keeps_bind;
    [intros p; destruct (theme_toggle (document p)); reflexivity | intros _].
  apply keeps_bind; [intros p; reflexivity | intros _].
  intros p. apply keeps_forEach_from. intros i link.
  destruct (href link) as [h |]; [destruct (String.prefix "#" h) |]; framing.
Qed.

Lemma initInteractions_keeps_theme : keeps theme_state initInteractions.
Proof.
  unfold initInteractions, initButtonRipples, initCardEffects, initTooltips,
    initFormInteractions, initKeyboardNavigation.
  framing; intros p; apply keeps_forEach_from; intros i x; framing.
Qed.

Lemma initPerformance_keeps_theme : keeps theme_state initPerformance.
Proof.
  unfold initPerformance, initLazyLoading, preloadCriticalResources,
    monitorPerformance, optimizeForLowEnd.
  apply keeps_bind;
    [intros p; apply keeps_forEach_from; intros i x; framing | intros _].
  apply keeps_bind; [framing | intros _].
  apply keeps_bind; [framing | intros _].
  apply keeps_bind; [| intros _; framing].
  intros p. destruct (low_end p); reflexivity.
Qed.

Lemma initAccessibility_keeps_theme : keeps theme_state initAccessibility.
Proof.
  unfold initAccessibility, announcePageChange, initSkipLinks,
    initFocusManagement, initLiveRegions.
  framing.
Qed.

Lemma after_setTheme_keeps_theme :
  keeps theme_state
    (initLoading ;; initNavigation ;; initScrollProgress ;; initBackToTop ;;
     initAnimations ;; initInteractions ;; initPerformance ;; initAccessibility).
Proof.
  apply keeps_bind; [apply initLoading_keeps_theme | intros _].
  apply keeps_bind; [apply initNavigation_keeps_theme | intros _].
  apply keeps_bind; [unfold initScrollProgress; framing | intros _].
  apply keeps_bind; [unfold initBackToTop; framing | intros _].
  apply keeps_bind.
  { unfold initAnimations, initScrollAnimations.
    intros p; apply keeps_forEach_from; intros i x; framing. }
  intros _.
  apply keeps_bind; [apply initInteractions_keeps_theme | intros _].
  apply keeps_bind; [apply initPerformance_keeps_theme | intros _].
  apply initAccessibility_keeps_theme.
Qed.

(** *** Initialisers that cannot throw *)

Lemma initLoading_never_throws : never_throws initLoading.
Proof.
  intros p. unfold initLoading.
  destruct (loading_screen (document p)); reflexivity.
Qed.

Lemma initInteractions_never_throws : never_throws initInteractions.
Proof.
  unfold initInteractions, initButtonRipples, initCardEffects, initTooltips,
    initFormInteractions, initKeyboardNavigation.
  totality; intros p; apply never_throws_forEach_from; intros i x; totality.
Qed.

Lemma initPerformance_never_throws : never_throws initPerformance.
Proof.
  unfold initPerformance, initLazyLoading, preloadCriticalResources,
    monitorPerformance, optimizeForLowEnd.
  apply never_throws_bind;
    [intros p; apply never_throws_forEach_from; intros i x; totality |].
  apply never_throws_bind; [totality |].
  apply never_throws_bind; [totality |].
  apply never_throws_bind; [| totality].
  intros p. destruct (low_end p); reflexivity.
Qed.

Lemma initAccessibility_never_throws : never_throws initAccessibility.
Proof.
  unfold initAccessibility, announcePageChange, initSkipLinks,
    initFocusManagement, initLiveRegions.
  totality.
Qed.

Lemma initAnimations_never_throws : never_throws initAnimations.
Proof.
  unfold initAnimations, initScrollAnimations.
  intros p; apply never_throws_forEach_from; intros i x; totality.
Qed.

Lemma initPostLoad_never_throws : never_throws initPostLoad.
Proof.
  unfold initPostLoad, initStatCounters, initPageTransitions,
    triggerEntranceAnimations.
  apply never_throws_bind.
  { intros p. unfold initScrollToTop.
    destruct (scroll_to_top (document p)); reflexivity. }
  totality; intros p; apply never_throws_forEach_from; intros i x; totality.
Qed.

Lemma initPostLoad_keeps_load_state : keeps load_state initPostLoad.
Proof.
  unfold initPostLoad, initStatCounters, initPageTransitions,
    triggerEntranceAnimations.
  apply keeps_bind.
  { intros p. unfold initScrollToTop.
    destruct (scroll_to_top (document p)); reflexivity. }
  intros _.
  framing; intros p; apply keeps_forEach_from; intros i x; framing.
Qed.

(** ** Theme system *)

Ltac unfold_theme :=
  unfold setTheme, triggerThemeTransition, bind, update_document, update_this,
    modify, localStorage_setItem, setItem, updateThemeIcon, setTimeout in *;
  simpl in *.

Lemma setTheme_sets_attributes (t : string) (p : Page) :
  root_theme (document (fst (setTheme t p))) = Some t /\
  body_theme (document (fst (setTheme t p))) = Some t.
Proof.
  unfold_theme.
  destruct (writable (localStorage p)); simpl; [| split; reflexivity].
  destruct (theme_toggle (document p)) as [b |]; simpl; [| split; reflexivity].
  destruct (light_icon b); simpl; [| split; reflexivity].
  destruct (dark_icon b); simpl; split; reflexivity.
Qed.

Lemma setTheme_keeps_own_theme (t : string) (p : Page) :
  theme (this p) = t -> theme (this (fst (setTheme t p))) = t.
Proof.
  intros Ht. unfold_theme.
  destruct (writable (localStorage p)); simpl; [| exact Ht].
  destruct (theme_toggle (document p)) as [b |]; simpl; [| reflexivity].
  destruct (light_icon b); simpl; [| reflexivity].
  destruct (dark_icon b); simpl; reflexivity.
Qed.

(** What a completed [setTheme] has done. *)
Lemma setTheme_completed (t : string) (p p' : Page) :
  setTheme t p = (p', Normal tt) ->
  writable (localStorage p) = true /\
  root_theme (document p') = Some t /\
  body_theme (document p') = Some t /\
  items (localStorage p') = <["theme" := t]> (items (localStorage p)) /\
  theme (this p') = t /\
  theme_toggle (document p') =
    option_map (fun _ => icons_for t) (theme_toggle (document p)) /\
  timers p' = (timers p ++ [(now p + 50, Repaint)])%list.
Proof.
  unfold_theme. unfold icons_for.
  destruct (writable (localStorage p)); simpl; [| discriminate].
  destruct (theme_toggle (document p)) as [b |] eqn:Eb; simpl.
  - destruct (light_icon b); simpl; [| discriminate].
    destruct (dark_icon b); simpl; [| discriminate].
    intros H. injection H as <-. simpl. repeat split; reflexivity.
  - intros H. injection H as <-. simpl. rewrite Eb. repeat split; reflexivity.
Qed.

(** When [setTheme] completes. *)
Lemma setTheme_completes (t : string) (p : Page) :
  writable (localStorage p) = true ->
  (forall b, theme_toggle (document p) = Some b ->
             is_Some (light_icon b) /\ is_Some (dark_icon b)) ->
  snd (setTheme t p) = Normal tt.
Proof.
  intros Hw Hicons. unfold_theme. rewrite Hw. simpl.
  destruct (theme_toggle (document p)) as [b |]; simpl; [| reflexivity].
  destruct (Hicons b eq_refl) as [[l Hl] [d Hd]]. rewrite Hl, Hd. reflexivity.
Qed.

Lemma shown_icons_for (t : string) :
  shown_theme (icons_for t) = Some (if String.eqb t "dark" then "dark" else "light").
Proof. unfold icons_for. destruct (String.eqb t "dark"); reflexivity. Qed.

Lemma triggerThemeTransition_keeps_theme : keeps theme_state triggerThemeTransition.
Proof. intros p. reflexivity. Qed.

Lemma agrees_after_setTheme (t : string) (p p' : Page) :
  t = "light" \/ t = "dark" ->
  setTheme t p = (p', Normal tt) ->
  theme_agrees t p'.
Proof.
  intros Ht H. apply setTheme_completed in H.
  destruct H as (_ & Hroot & _ & Hitems & _ & Htoggle & _).
  repeat split.
  - exact Hroot.
  - rewrite Hitems. apply lookup_insert_eq.
  - intros b Hb. rewrite Htoggle in Hb.
    destruct (theme_toggle (document p)); [| discriminate].
    injection Hb as <-. rewrite shown_icons_for.
    destruct Ht as [-> | ->]; reflexivity.
Qed.

(** A completed [toggleTheme] is a completed [setTheme] of the other theme
    followed by the transition effect. *)
Lemma toggleTheme_completed (p p' : Page) :
  toggleTheme p = (p', Normal tt) ->
  exists p1,
    setTheme (if String.eqb (theme (this p)) "light" then "dark" else "light") p
      = (p1, Normal tt) /\
    triggerThemeTransition p1 = (p', Normal tt).
Proof.
  unfold toggleTheme. unfold bind at 1.
  destruct (setTheme _ p) as [p1 [[] | e]]; intros H; [| discriminate].
  exists p1. split; [reflexivity | exact H].
Qed.

(** With a readable store the constructor amounts to [init] on the
    controller whose fields have just been assigned. *)
Lemma constructor_is_init (p : Page) :
  readable (localStorage p) = true ->
  constructor p =
    init (with_this
            (mkPortfolio (or_default (items (localStorage p) !! "theme") "light")
                         (getCurrentPage (pathname p)) false) p).
Proof.
  intros Hr. unfold constructor, bind at 1. unfold localStorage_getItem, getItem.
  rewrite Hr. reflexivity.
Qed.

(** The theme after [init] is the theme right after its first statement. *)
Lemma init_theme_state (p : Page) :
  theme_state (fst (init p)) = theme_state (fst (setTheme (theme (this p)) p)).
Proof.
  unfold init.
  apply (view_after_bind theme_state (fun p => setTheme (theme (this p)) p)).
  intros _. apply after_setTheme_keeps_theme.
Qed.

(** C1 (as amended): with a readable store, startup resolves the active
    theme (the controller's [theme] and the [data-theme] attribute of root
    and body) to the stored string when there is a non-empty one and to
    'light' when the stored value is absent or empty; hence to exactly
    'light' or 'dark' for the stored values 'light', 'dark', absent and
    empty.  Any other stored string is applied as it is. *)
Theorem startup_resolves_stored_theme (p : Page) :
  readable (localStorage p) = true ->
  let stored := items (localStorage p) !! "theme" in
  let p' := fst (constructor p) in
  (theme (this p') = or_default stored "light" /\
   root_theme (document p') = Some (or_default stored "light") /\
   body_theme (document p') = Some (or_default stored "light")) /\
  (stored = None \/ stored = Some EmptyString \/ stored = Some "light" ->
   theme (this p') = "light" /\ root_theme (document p') = Some "light") /\
  (stored = Some "dark" ->
   theme (this p') = "dark" /\ root_theme (document p') = Some "dark").
Proof.
  intros Hr stored p'.
  assert (H : theme (this p') = or_default stored "light" /\
              root_theme (document p') = Some (or_default stored "light") /\
              body_theme (document p') = Some (or_default stored "light")).
  { subst p'. rewrite (constructor_is_init p Hr).
    set (p0 := with_this _ p).
    pose proof (init_theme_state p0) as Hst.
    unfold theme_state in Hst. injection Hst as Hroot Hbody _ _ Hthis.
    rewrite Hroot, Hbody, Hthis. subst stored.
    set (r := or_default (items (localStorage p) !! "theme") "light") in *.
    destruct (setTheme_sets_attributes r p0) as [Hr1 Hr2].
    pose proof (setTheme_keeps_own_theme r p0 eq_refl) as Hr3.
    repeat split; assumption. }
  split; [exact H |].
  destruct H as (Hthis & Hroot & _). rewrite Hthis, Hroot.
  split.
  - intros [-> | [-> | ->]]; split; reflexivity.
  - intros ->. split; reflexivity.
Qed.

Lemma startup_resolves_stored_theme_witness :
  let p := page_of (storage_with None) full_document in
  theme (this (fst (constructor p))) = "light" /\
  root_theme (document (fst (constructor p))) = Some "light".
Proof.
  intros p.
  apply (proj1 (proj2 (startup_resolves_stored_theme p eq_refl))).
  left. reflexivity.
Defined.

(** C1 fails as stated: a corrupt stored value is not replaced by 'light'. *)
Lemma startup_keeps_corrupt_theme :
  let p := page_of (storage_with (Some "blue")) full_document in
  let p' := fst (constructor p) in
  items (localStorage p) !! "theme" = Some "blue" /\
  snd (constructor p) = Normal tt /\
  theme (this p') = "blue" /\
  root_theme (document p') = Some "blue" /\
  theme (this p') <> "light" /\ theme (this p') <> "dark".
Proof.
  vm_compute. repeat split; discriminate.
Qed.

(** C2 (as amended): after every completed [setTheme t] the [data-theme]
    attribute of root and body, the controller's [theme] and the stored
    value all equal [t], and the icons of the toggle button, when it is in
    the document, show 'dark' if [t] is 'dark' and 'light' otherwise; so for
    [t] 'light' or 'dark', and after every completed [toggleTheme], the
    attribute, the icons and the stored value agree.  The repaint and
    transition timers that the calls leave behind do not change that. *)
Theorem theme_agreement_after_setTheme (t : string) (p p' : Page) :
  setTheme t p = (p', Normal tt) ->
  (root_theme (document p') = Some t /\
   body_theme (document p') = Some t /\
   items (localStorage p') !! "theme" = Some t /\
   theme (this p') = t /\
   (forall b, theme_toggle (document p') = Some b ->
      shown_theme b = Some (if String.eqb t "dark" then "dark" else "light"))) /\
  (t = "light" \/ t = "dark" -> theme_agrees t p') /\
  (forall q q', toggleTheme q = (q', Normal tt) ->
      exists t', (t' = "light" \/ t' = "dark") /\ theme_agrees t' q') /\
  theme_state (fst (fire Repaint p')) = theme_state p' /\
  theme_state (fst (fire ClearBodyTransition p')) = theme_state p'.
Proof.
  intros H. split; [| split; [| split; [| split]]].
  - apply setTheme_completed in H.
    destruct H as (_ & Hroot & Hbody & Hitems & Hthis & Htoggle & _).
    repeat split; try assumption.
    + rewrite Hitems. apply lookup_insert_eq.
    + intros b Hb. rewrite Htoggle in Hb.
      destruct (theme_toggle (document p)); [| discriminate].
      injection Hb as <-. apply shown_icons_for.
  - intros Ht. exact (agrees_after_setTheme t p p' Ht H).
  - intros q q' Hq. apply toggleTheme_completed in Hq.
    destruct Hq as (q1 & Hset & Htrans).
    set (t' := if String.eqb (theme (this q)) "light" then "dark" else "light") in *.
    assert (Ht' : t' = "light" \/ t' = "dark").
    { subst t'. destruct (String.eqb (theme (this q)) "light"); auto. }
    exists t'. split; [exact Ht' |].
    pose proof (agrees_after_setTheme t' q q1 Ht' Hset) as (A1 & A2 & A3).
    pose proof (triggerThemeTransition_keeps_theme q1) as Hk.
    rewrite Htrans in Hk. simpl in Hk. unfold theme_state in Hk.
    injection Hk as K1 _ K3 K4 _.
    unfold theme_agrees. rewrite K1, K3, K4. repeat split; assumption.
  - reflexivity.
  - reflexivity.
Qed.

Lemma theme_agreement_after_setTheme_witness :
  let p := page_of (storage_with None) full_document in
  theme_agrees "dark" (fst (setTheme "dark" p)).
Proof.
  intros p.
  refine (proj1 (proj2 (theme_agreement_after_setTheme "dark" p
                          (fst (setTheme "dark" p)) _)) _).
  - vm_compute. reflexivity.
  - right. reflexivity.
Defined.

(** C2 fails as stated: after the completed call [setTheme "blue"] (the
    call that startup makes on a corrupt stored value) the attribute and
    the store say 'blue' while the icons show 'light'. *)
Lemma setTheme_corrupt_disagrees :
  let p := page_of (storage_with (Some "blue")) full_document in
  let p' := fst (setTheme "blue" p) in
  snd (setTheme "blue" p) = Normal tt /\
  root_theme (document p') = Some "blue" /\
  items (localStorage p') !! "theme" = Some "blue" /\
  option_map shown_theme (theme_toggle (document p')) = Some (Some "light") /\
  forall t, ~ theme_agrees t p'.
Proof.
  intros p p'.
  assert (Hroot : root_theme (document p') = Some "blue") by (vm_compute; reflexivity).
  assert (Hicons : theme_toggle (document p') = Some (icons_for "blue"))
    by (vm_compute; reflexivity).
  split; [vm_compute; reflexivity |].
  split; [exact Hroot |].
  split; [vm_compute; reflexivity |].
  split; [rewrite Hicons; reflexivity |].
  intros t (Hr & _ & Hi).
  rewrite Hroot in Hr. injection Hr as <-.
  specialize (Hi _ Hicons). vm_compute in Hi. discriminate.
Qed.

(** C3 (the code departs from it): when the store refuses the read, the
    constructor throws before anything is set up, and when it refuses the
    write, [setTheme] throws after the attributes are written and before
    the controller's theme and the icons are updated.  Neither failure is
    caught; no fallback to 'light' takes place. *)
Theorem storage_failure_propagates (p : Page) (t : string) :
  (readable (localStorage p) = false ->
   constructor p = (p, Throw SecurityError)) /\
  (writable (localStorage p) = false ->
   snd (setTheme t p) = Throw QuotaExceededError /\
   snd (init p) = Throw QuotaExceededError /\
   theme (this (fst (setTheme t p))) = theme (this p) /\
   theme_toggle (document (fst (setTheme t p))) = theme_toggle (document p)).
Proof.
  split.
  - intros Hr. unfold constructor, bind, localStorage_getItem, getItem.
    rewrite Hr. reflexivity.
  - intros Hw.
    assert (Hset : forall t', snd (setTheme t' p) = Throw QuotaExceededError).
    { intros t'. unfold_theme. rewrite Hw. reflexivity. }
    split; [apply Hset |].
    split.
    + unfold init. unfold bind at 1. specialize (Hset (theme (this p))).
      destruct (setTheme (theme (this p)) p) as [p1 c]. simpl in Hset.
      rewrite Hset. reflexivity.
    + unfold_theme. rewrite Hw. split; reflexivity.
Qed.

Lemma storage_failure_propagates_witness :
  let blocked := page_of (mkStorage ∅ false false) full_document in
  let private := page_of (mkStorage ∅ true false) full_document in
  constructor blocked = (blocked, Throw SecurityError) /\
  snd (setTheme "dark" private) = Throw QuotaExceededError.
Proof.
  intros blocked private. split.
  - exact (proj1 (storage_failure_propagates blocked "dark") eq_refl).
  - exact (proj1 (proj2 (storage_failure_propagates private "dark") eq_refl)).
Defined.

(** The early script, by contrast, catches the failed read and falls back
    to 'light'. *)
Lemma early_script_falls_back (s : ThemeInit.State) :
  readable (ThemeInit.storage s) = false ->
  ThemeInit.root_attr (ThemeInit.run s) = Some "light" /\
  ThemeInit.logged (ThemeInit.run s) = S (ThemeInit.logged s).
Proof.
  intros Hr. unfold ThemeInit.run, getItem. rewrite Hr. split; reflexivity.
Qed.

(** C6 (the code departs from it): with the toggle button in the document
    and one of its icons missing, [updateThemeIcon] throws a TypeError; and
    so does [setTheme], which calls it.  Only a missing button is guarded. *)
Theorem updateThemeIcon_without_icons_throws (p : Page) (b : ThemeToggle) :
  theme_toggle (document p) = Some b ->
  light_icon b = None \/ dark_icon b = None ->
  snd (updateThemeIcon p) = Throw TypeError /\
  (writable (localStorage p) = true ->
   forall t, snd (setTheme t p) = Throw TypeError).
Proof.
  intros Hb Hmissing.
  assert (H : forall p1, theme_toggle (document p1) = Some b ->
                         snd (updateThemeIcon p1) = Throw TypeError).
  { intros p1 Hb1. unfold updateThemeIcon. rewrite Hb1.
    destruct Hmissing as [-> | Hd]; [reflexivity |].
    rewrite Hd. destruct (light_icon b); reflexivity. }
  split; [apply H; exact Hb |].
  intros Hw t. unfold setTheme, bind, update_document, update_this, modify,
    localStorage_setItem, setItem, setTimeout.
  simpl. rewrite Hw. simpl.
  match goal with
  | |- snd (match updateThemeIcon ?q with _ => _ end) = _ =>
      specialize (H q Hb); destruct (updateThemeIcon q) as [q' c]
  end.
  simpl in H. rewrite H. reflexivity.
Qed.

Lemma updateThemeIcon_without_icons_throws_witness :
  let d := set_theme_toggle (Some (mkToggle None None)) full_document in
  snd (updateThemeIcon (page_of (storage_with None) d)) = Throw TypeError.
Proof.
  intros d.
  exact (proj1 (updateThemeIcon_without_icons_throws
                  (page_of (storage_with None) d) (mkToggle None None)
                  eq_refl (or_introl eq_refl))).
Defined.

(** The guarded case: without the button the icon update does nothing. *)
Lemma updateThemeIcon_without_button (p : Page) :
  theme_toggle (document p) = None -> updateThemeIcon p = (p, Normal tt).
Proof. intros H. unfold updateThemeIcon. rewrite H. reflexivity. Qed.

(** *** Toggling *)

Lemma toggleTheme_effect (p : Page) :
  writable (localStorage p) = true ->
  (forall b, theme_toggle (document p) = Some b ->
             is_Some (light_icon b) /\ is_Some (dark_icon b)) ->
  exists p',
    toggleTheme p = (p', Normal tt) /\
    root_theme (document p') = Some (other_theme (theme (this p))) /\
    items (localStorage p') =
      <["theme" := other_theme (theme (this p))]> (items (localStorage p)) /\
    writable (localStorage p') = true /\
    theme (this p') = other_theme (theme (this p)) /\
    theme_toggle (document p') =
      option_map (fun _ => icons_for (other_theme (theme (this p))))
                 (theme_toggle (document p)).
Proof.
  intros Hw Hicons. unfold toggleTheme.
  fold (other_theme (theme (this p))). set (t' := other_theme (theme (this p))).
  unfold_theme. unfold icons_for. rewrite Hw. simpl.
  destruct (theme_toggle (document p)) as [b |] eqn:Eb; simpl.
  - destruct (Hicons b eq_refl) as [[l Hl] [d Hd]]. rewrite Hl, Hd. simpl.
    eexists. split; [reflexivity |]. simpl.
    repeat split; try reflexivity; exact Hw.
  - eexists. split; [reflexivity |]. simpl. rewrite ?Eb.
    repeat split; try reflexivity; exact Hw.
Qed.

Lemma shown_theme_inv (b : ThemeToggle) (t : string) :
  shown_theme b = Some t -> b = icons_for t /\ (t = "light" \/ t = "dark").
Proof.
  destruct b as [[[ol] |] [[od] |]]; unfold shown_theme; simpl;
    try discriminate.
  destruct (String.eqb_spec ol "1") as [-> | _];
    destruct (String.eqb_spec od "0") as [-> | _]; simpl.
  - intros H. injection H as <-. split; [reflexivity | left; reflexivity].
  - destruct (String.eqb_spec od "1") as [-> | _]; simpl; discriminate.
  - destruct (String.eqb_spec ol "0") as [-> | _]; simpl; discriminate.
  - destruct (String.eqb_spec ol "0") as [-> | _];
      destruct (String.eqb_spec od "1") as [-> | _]; simpl; try discriminate.
    intros H. injection H as <-. split; [reflexivity | right; reflexivity].
Qed.

(** C7 (as amended): from a state whose theme is 'light' or 'dark' and in
    which the attribute, the icons and the stored value agree on it (the
    state after any completed [setTheme] of such a theme), with a writable
    store, two successive calls of [toggleTheme] complete, pass through the
    other theme, and return the attribute, the icons, the stored value and
    the controller's theme to what they were. *)
Theorem toggleTheme_twice (p : Page) (t : string) :
  t = "light" \/ t = "dark" ->
  theme (this p) = t ->
  theme_agrees t p ->
  writable (localStorage p) = true ->
  exists p1 p2,
    toggleTheme p = (p1, Normal tt) /\
    toggleTheme p1 = (p2, Normal tt) /\
    theme_agrees (other_theme t) p1 /\
    root_theme (document p2) = root_theme (document p) /\
    theme_toggle (document p2) = theme_toggle (document p) /\
    items (localStorage p2) = items (localStorage p) /\
    theme (this p2) = theme (this p) /\
    theme_agrees t p2.
Proof.
  intros Ht Hthis (Hroot & Hstored & Hshown) Hw.
  assert (Hicons : forall b, theme_toggle (document p) = Some b ->
                             is_Some (light_icon b) /\ is_Some (dark_icon b)).
  { intros b Hb. destruct (shown_theme_inv b t (Hshown b Hb)) as [-> _].
    split; eexists; reflexivity. }
  destruct (toggleTheme_effect p Hw Hicons)
    as (p1 & H1 & Hroot1 & Hitems1 & Hw1 & Hthis1 & Htoggle1).
  rewrite Hthis in *.
  assert (Hicons1 : forall b, theme_toggle (document p1) = Some b ->
                              is_Some (light_icon b) /\ is_Some (dark_icon b)).
  { intros b Hb. rewrite Htoggle1 in Hb.
    destruct (theme_toggle (document p)); [| discriminate].
    injection Hb as <-. split; eexists; reflexivity. }
  destruct (toggleTheme_effect p1 Hw1 Hicons1)
    as (p2 & H2 & Hroot2 & Hitems2 & Hw2 & Hthis2 & Htoggle2).
  rewrite Hthis1 in *.
  assert (Hback : other_theme (other_theme t) = t)
    by (destruct Ht as [-> | ->]; reflexivity).
  rewrite Hback in *.
  assert (Hother : other_theme t = "light" \/ other_theme t = "dark")
    by (destruct Ht as [-> | ->]; [right | left]; reflexivity).
  assert (Htoggle_back : theme_toggle (document p2) = theme_toggle (document p)).
  { rewrite Htoggle2, Htoggle1.
    destruct (theme_toggle (document p)) as [b |] eqn:Eb; [| reflexivity].
    simpl. destruct (shown_theme_inv b t (Hshown b eq_refl)) as [-> _].
    reflexivity. }
  assert (Hitems_back : items (localStorage p2) = items (localStorage p)).
  { rewrite Hitems2, Hitems1, insert_insert_eq. apply insert_id. exact Hstored. }
  exists p1, p2.
  split; [exact H1 |]. split; [exact H2 |].
  split.
  { split; [exact Hroot1 |]. split.
    - rewrite Hitems1. apply lookup_insert_eq.
    - intros b Hb. rewrite Htoggle1 in Hb.
      destruct (theme_toggle (document p)); [| discriminate].
      injection Hb as <-. rewrite shown_icons_for.
      destruct Ht as [-> | ->]; reflexivity. }
  split; [congruence |].
  split; [exact Htoggle_back |].
  split; [exact Hitems_back |].
  split; [congruence |].
  split; [exact Hroot2 |]. split.
  - rewrite Hitems_back. exact Hstored.
  - intros b Hb. rewrite Htoggle_back in Hb. apply Hshown. exact Hb.
Qed.

(** The scenario of the specification: nothing stored, the page loads with
    the root attribute 'light'; one toggle later the attribute and the
    store hold 'dark'. *)
Example first_visit_then_toggle :
  let p := fst (constructor (page_of (storage_with None) full_document)) in
  let q := fst (toggleTheme p) in
  root_theme (document p) = Some "light" /\
  root_theme (document q) = Some "dark" /\
  items (localStorage q) !! "theme" = Some "dark".
Proof. vm_compute. repeat split; reflexivity. Qed.

Lemma toggleTheme_twice_witness :
  let p := fst (constructor (page_of (storage_with (Some "dark")) full_document)) in
  exists p1 p2,
    toggleTheme p = (p1, Normal tt) /\
    toggleTheme p1 = (p2, Normal tt) /\
    theme_agrees "light" p1 /\
    root_theme (document p2) = root_theme (document p) /\
    theme_toggle (document p2) = theme_toggle (document p) /\
    items (localStorage p2) = items (localStorage p) /\
    theme (this p2) = theme (this p) /\
    theme_agrees "dark" p2.
Proof.
  intros p.
  refine (toggleTheme_twice p "dark" (or_intror eq_refl) _ _ _).
  - vm_compute. reflexivity.
  - split; [vm_compute; reflexivity |].
    split; [vm_compute; reflexivity |].
    intros b Hb. vm_compute in Hb. injection Hb as <-. vm_compute. reflexivity.
  - vm_compute. reflexivity.
Defined.

(** C7 fails as stated: started on the corrupt stored value 'blue', the
    controller's theme is 'blue'; two toggles complete and leave 'dark' in
    the attribute, the store and the icons, not the original state. *)
Lemma toggleTheme_twice_from_corrupt :
  let p := fst (constructor (page_of (storage_with (Some "blue")) full_document)) in
  let r1 := toggleTheme p in
  let r2 := toggleTheme (fst r1) in
  snd r1 = Normal tt /\ snd r2 = Normal tt /\
  root_theme (document p) = Some "blue" /\
  root_theme (document (fst r2)) = Some "dark" /\
  items (localStorage p) !! "theme" = Some "blue" /\
  items (localStorage (fst r2)) !! "theme" = Some "dark" /\
  option_map shown_theme (theme_toggle (document p)) = Some (Some "light") /\
  option_map shown_theme (theme_toggle (document (fst r2))) = Some (Some "dark").
Proof.
  vm_compute. repeat split; reflexivity.
Qed.

(** ** Initialisation *)

Lemma forEach_from_completes {A : Type} (P : A -> Prop)
    (f : nat -> A -> Method unit) (l : list A) :
  (forall i x, P x -> never_throws (f i x)) ->
  Forall P l -> forall i, never_throws (forEach_from i f l).
Proof.
  intros Hf Hl. induction Hl as [| x l Hx _ IH]; intros i; simpl.
  - apply never_throws_ret.
  - apply never_throws_bind; [apply Hf; exact Hx | apply IH].
Qed.

Lemma initNavigation_completes (p : Page) :
  Forall (fun l => is_Some (href l)) (nav_links (document p)) ->
  snd (initNavigation p) = Normal tt.
Proof.
  intros Hlinks. unfold initNavigation.
  unfold bind at 1. unfold addEventListener at 1. unfold modify at 1.
  unfold bind at 1.
  set (p1 := with_listeners _ p).
  assert (Hl1 : nav_links (document p1) = nav_links (document p)) by reflexivity.
  destruct (theme_toggle (document p1)) as [b |];
    unfold addEventListener, modify, bind, updateActiveNavLink, update_document;
    simpl;
    (eapply (forEach_from_completes (fun l => is_Some (href l)));
     [ intros i x [h Hh]; rewrite Hh; destruct (String.prefix "#" h); totality
     | apply Forall_map; eapply Forall_impl; [exact Hlinks |];
       intros l Hl; simpl; destruct (data_page l) as [pg |];
       [destruct (String.eqb pg _) |]; exact Hl ]).
Qed.

Lemma setTheme_keeps_nav_links (t : string) :
  keeps (fun p => nav_links (document p)) (setTheme t).
Proof.
  intros p. unfold_theme.
  destruct (writable (localStorage p)); simpl; [| reflexivity].
  destruct (theme_toggle (document p)) as [b |]; simpl; [| reflexivity].
  destruct (light_icon b); simpl; [| reflexivity].
  destruct (dark_icon b); reflexivity.
Qed.

Lemma after_navigation_never_throws :
  never_throws
    (initScrollProgress ;; initBackToTop ;; initAnimations ;;
     initInteractions ;; initPerformance ;; initAccessibility).
Proof.
  apply never_throws_bind; [unfold initScrollProgress; totality |].
  apply never_throws_bind; [unfold initBackToTop; totality |].
  apply never_throws_bind; [apply initAnimations_never_throws |].
  apply never_throws_bind; [apply initInteractions_never_throws |].
  apply never_throws_bind; [apply initPerformance_never_throws |].
  apply initAccessibility_never_throws.
Qed.

Lemma init_completes (p : Page) : well_formed p -> snd (init p) = Normal tt.
Proof.
  intros (Hw & Hicons & Hlinks). unfold init.
  unfold bind at 1.
  pose proof (setTheme_completes (theme (this p)) p Hw Hicons) as H1.
  pose proof (setTheme_keeps_nav_links (theme (this p)) p) as N1.
  destruct (setTheme (theme (this p)) p) as [p1 c1]. simpl in H1, N1. subst c1.
  unfold bind at 1.
  pose proof (initLoading_never_throws p1) as H2.
  assert (N2 : nav_links (document (fst (initLoading p1))) = nav_links (document p1)).
  { unfold initLoading. destruct (loading_screen (document p1)); reflexivity. }
  destruct (initLoading p1) as [p2 c2]. simpl in H2, N2. subst c2.
  unfold bind at 1.
  assert (H3 : snd (initNavigation p2) = Normal tt).
  { apply initNavigation_completes. rewrite N2, N1. exact Hlinks. }
  destruct (initNavigation p2) as [p3 c3]. simpl in H3. subst c3.
  apply after_navigation_never_throws.
Qed.

Lemma document_eta_nav_links (d : Document) :
  set_nav_links (nav_links d) d = d.
Proof. destruct d. reflexivity. Qed.

(** C4 (as amended): when the loading screen, the theme-toggle button, the
    navigation links, the stat counters, the cards, the form fields or the
    scroll-to-top button are absent, the initialiser that needs them skips
    its feature without throwing, and [init] completes on every page with a
    writable store, complete toggle icons and [href]s on its navigation
    links, whichever of those elements are absent.  [init] does not isolate
    its initialisers: when one of them throws, [init] throws in the state of
    that throw and the initialisers after it do not run. *)
Theorem init_skips_absent_elements (p : Page) :
  (loading_screen (document p) = None -> initLoading p = (p, Normal tt)) /\
  (theme_toggle (document p) = None -> updateThemeIcon p = (p, Normal tt)) /\
  (theme_toggle (document p) = None -> nav_links (document p) = [] ->
   initNavigation p =
     (with_listeners (listeners p ++ [mkListener Window "scroll" UpdateNavbar]) p,
      Normal tt)) /\
  (stat_numbers (document p) = [] -> initStatCounters p = (p, Normal tt)) /\
  (matches (document p) ".highlight-card, .quick-card, .profile-card" = 0%nat ->
   initCardEffects p = (p, Normal tt)) /\
  (fields (document p) = [] -> initFormInteractions p = (p, Normal tt)) /\
  (scroll_to_top (document p) = false -> initScrollToTop p = (p, Normal tt)) /\
  (well_formed p -> snd (init p) = Normal tt) /\
  (forall pre m post p1 p2 e,
     initializers = (pre ++ m :: post)%list ->
     sequence pre p = (p1, Normal tt) ->
     m p1 = (p2, Throw e) ->
     init p = (p2, Throw e)).
Proof.
  split; [| split; [| split; [| split; [| split; [| split; [| split; [| split]]]]]]].
  - intros H. unfold initLoading. rewrite H. reflexivity.
  - apply updateThemeIcon_without_button.
  - intros Ht Hl.
    assert (E : set_nav_links [] (document p) = document p)
      by (rewrite <- Hl; apply document_eta_nav_links).
    unfold initNavigation, bind, addEventListener, modify,
      updateActiveNavLink, update_document. simpl. rewrite Ht. simpl.
    rewrite Hl. simpl. rewrite E. reflexivity.
  - intros H. unfold initStatCounters. rewrite H. reflexivity.
  - intros H. unfold initCardEffects, querySelectorAll. rewrite H. reflexivity.
  - intros H. unfold initFormInteractions. rewrite H. reflexivity.
  - intros H. unfold initScrollToTop. rewrite H. reflexivity.
  - apply init_completes.
  - intros pre m post p1 p2 e Hsplit Hpre Hm.
    rewrite init_is_sequence, Hsplit.
    exact (sequence_aborts pre post m p p1 p2 e Hpre Hm).
Qed.

Lemma init_skips_absent_elements_witness :
  let p := page_of (storage_with None) bare_document in
  let private := page_of (mkStorage ∅ true false) bare_document in
  (initLoading p = (p, Normal tt) /\
   updateThemeIcon p = (p, Normal tt) /\
   initStatCounters p = (p, Normal tt) /\
   initCardEffects p = (p, Normal tt) /\
   initFormInteractions p = (p, Normal tt) /\
   initScrollToTop p = (p, Normal tt) /\
   snd (init p) = Normal tt) /\
  snd (init private) = Throw QuotaExceededError.
Proof.
  intros p private.
  destruct (init_skips_absent_elements p)
    as (H1 & H2 & _ & H4 & H5 & H6 & H7 & H8 & _).
  split.
  - split; [exact (H1 eq_refl) |].
    split; [exact (H2 eq_refl) |].
    split; [exact (H4 eq_refl) |].
    split; [exact (H5 eq_refl) |].
    split; [exact (H6 eq_refl) |].
    split; [exact (H7 eq_refl) |].
    apply H8. split; [reflexivity |].
    split; [intros b Hb; discriminate Hb | constructor].
  - destruct (init_skips_absent_elements private) as (_ & _ & _ & _ & _ & _ & _ & _ & H9).
    rewrite (H9 [] (fun q => setTheme (theme (this q)) q)
               (tl initializers) private
               (fst (setTheme (theme (this private)) private))
               QuotaExceededError eq_refl eq_refl).
    + reflexivity.
    + vm_compute. reflexivity.
Defined.

(** The navbar is the element whose absence is not checked: the callback
    of the scroll listener throws on a page without [#main-navbar]. *)
Lemma updateNavbar_without_navbar (p : Page) (y : Q) :
  main_navbar (document p) = None -> updateNavbar y p = (p, Throw TypeError).
Proof. intros H. unfold updateNavbar. rewrite H. reflexivity. Qed.

(** C4 fails as stated: a store that refuses writes makes [setTheme] throw
    and nothing else of [init] runs (no listener, no progress bar, no
    inserted element); a navigation link without [href] makes
    [initNavigation] throw and the initialisers after it do not run; and on
    a page without navbar [init] completes and registers the navbar scroll
    listener, whose callback then throws. *)
Lemma init_failure_stops_siblings :
  let private := page_of (mkStorage ∅ true false) full_document in
  let linkless :=
    page_of (storage_with None)
      (set_nav_links [mkNavLink None None ["nav-link"]] full_document) in
  let navless := page_of (storage_with None) bare_document in
  (snd (init private) = Throw QuotaExceededError /\
   listeners (fst (init private)) = [] /\
   scroll_progress (document (fst (init private))) = None /\
   appended (document (fst (init private))) = []) /\
  (snd (init linkless) = Throw TypeError /\
   scroll_progress (document (fst (init linkless))) = None /\
   appended (document (fst (init linkless))) = []) /\
  (snd (init navless) = Normal tt /\
   In (mkListener Window "scroll" UpdateNavbar) (listeners (fst (init navless))) /\
   snd (updateNavbar 150 (fst (init navless))) = Throw TypeError).
Proof.
  intros private linkless navless.
  split; [| split].
  - vm_compute. repeat split; reflexivity.
  - vm_compute. repeat split; reflexivity.
  - split; [vm_compute; reflexivity |].
    split; [vm_compute; left; reflexivity |].
    rewrite updateNavbar_without_navbar; [reflexivity |].
    vm_compute. reflexivity.
Qed.

(** ** Loading sequence *)

Lemma run_timer_due (p : Page) (ts : list (Z * Callback)) (due : Z) (cb : Callback) :
  timers p = (ts ++ [(due, cb)])%list ->
  due <= now p ->
  run_timer (length ts) p = fire cb (with_timers ts p).
Proof.
  intros Hts Hdue. unfold run_timer. rewrite Hts.
  rewrite nth_error_app2, Nat.sub_diag by lia. simpl.
  destruct (Z.leb_spec due (now p)) as [_ | Hlt]; [| lia].
  rewrite firstn_app, firstn_all, Nat.sub_diag. simpl.
  rewrite skipn_app, skipn_all2 by lia.
  replace (S (length ts) - length ts)%nat with 1%nat by lia. simpl.
  rewrite !app_nil_r. reflexivity.
Qed.

Lemma run_timer_early (p : Page) (ts : list (Z * Callback)) (due : Z) (cb : Callback) :
  timers p = (ts ++ [(due, cb)])%list ->
  now p < due ->
  run_timer (length ts) p = (p, Normal tt).
Proof.
  intros Hts Hdue. unfold run_timer. rewrite Hts.
  rewrite nth_error_app2, Nat.sub_diag by lia. simpl.
  destruct (Z.leb_spec due (now p)) as [Hle | _]; [lia | reflexivity].
Qed.

(** C9: with the loading overlay in the document, [initLoading] records
    the start time in a listener for the window [load] event; when that
    event fires [e] ms after the start, the listener schedules the hiding
    [max(0, 300 - e)] ms later, that is, no earlier than 300 ms after the
    start, and the timer does not run before; when it runs ([late1] ms
    late, say) the overlay gets the class [hidden] and the removal is
    scheduled 500 ms later; when that timer runs the overlay is removed,
    [loadingComplete] is set and the post-load initialisers run at once,
    without throwing. *)
Theorem loading_sequence (p : Page) (overlay : list string) (e late1 late2 : Z) :
  loading_screen (document p) = Some overlay ->
  0 <= late1 ->
  0 <= late2 ->
  let start := now p in
  let n := length (timers p) in
  let due := start + e + Z.max 0 (minLoadTime - e) in
  let p1 := fst (initLoading p) in
  let p2 := fst (onWindowLoad start (advance e p1)) in
  let p3 := fst (run_timer n (with_now (due + late1) p2)) in
  let r4 := run_timer n (with_now (due + late1 + 500 + late2) p3) in
  (initLoading p =
     (with_listeners
        (listeners p ++ [mkListener Window "load" (HideOverlayAfterLoad start)]) p,
      Normal tt)) /\
  (timers p2 = (timers p ++ [(due, HideLoading)])%list /\
   start + 300 <= due /\
   loading_screen (document p2) = Some overlay /\
   forall t, t < due -> run_timer n (with_now t p2) = (with_now t p2, Normal tt)) /\
  (loading_screen (document p3) = Some (classList_add "hidden" overlay) /\
   has_class "hidden" (classList_add "hidden" overlay) = true /\
   loadingComplete (this p3) = loadingComplete (this p) /\
   timers p3 = (timers p ++ [(due + late1 + 500, FinishLoading)])%list /\
   forall t, t < due + late1 + 500 ->
             run_timer n (with_now t p3) = (with_now t p3, Normal tt)) /\
  (snd r4 = Normal tt /\
   loading_screen (document (fst r4)) = None /\
   loadingComplete (this (fst r4)) = true /\
   r4 = initPostLoad
          (with_this (set_loadingComplete true (this p3))
             (with_document (set_loading_screen None (document p3))
                (with_timers (timers p)
                   (with_now (due + late1 + 500 + late2) p3))))).
Proof.
  intros Hov Hl1 Hl2 start n due p1 p2 p3 r4.
  assert (E1 : initLoading p =
     (with_listeners
        (listeners p ++ [mkListener Window "load" (HideOverlayAfterLoad start)]) p,
      Normal tt)).
  { unfold initLoading. rewrite Hov. reflexivity. }
  assert (T2 : timers p2 = (timers p ++ [(due, HideLoading)])%list).
  { subst p2 p1. rewrite E1. unfold onWindowLoad, setTimeout, modify, advance.
    simpl. f_equal. f_equal. f_equal. subst due start. unfold minLoadTime. lia. }
  assert (D2 : document p2 = document p).
  { subst p2 p1. rewrite E1. reflexivity. }
  assert (O2 : this p2 = this p).
  { subst p2 p1. rewrite E1. reflexivity. }
  clearbody p2 p1.
  assert (E3 : run_timer n (with_now (due + late1) p2) =
               hideLoading (with_timers (timers p) (with_now (due + late1) p2))).
  { subst n. apply (run_timer_due _ _ due HideLoading); simpl; [exact T2 | lia]. }
  assert (T3 : timers p3 = (timers p ++ [(due + late1 + 500, FinishLoading)])%list).
  { subst p3. rewrite E3. reflexivity. }
  assert (D3 : loading_screen (document p3) = Some (classList_add "hidden" overlay)).
  { subst p3. rewrite E3. unfold hideLoading, bind, update_document, modify, setTimeout.
    simpl. rewrite D2, Hov. reflexivity. }
  assert (O3 : this p3 = this p).
  { subst p3. rewrite E3. simpl. exact O2. }
  clearbody p3.
  assert (E4 : r4 = finishLoading (with_timers (timers p)
                                     (with_now (due + late1 + 500 + late2) p3))).
  { subst r4 n.
    apply (run_timer_due _ _ (due + late1 + 500) FinishLoading); simpl;
      [exact T3 | lia]. }
  split; [exact E1 |].
  split.
  { split; [exact T2 |].
    split; [subst due start; unfold minLoadTime; lia |].
    split; [rewrite D2; exact Hov |].
    intros t Ht. subst n. apply (run_timer_early _ _ due HideLoading); simpl;
      [exact T2 | exact Ht]. }
  split.
  { split; [exact D3 |].
    split.
    { unfold classList_add. destruct (has_class "hidden" overlay) eqn:E; [exact E |].
      unfold has_class. rewrite existsb_app. simpl. apply orb_true_r. }
    split; [rewrite O3; reflexivity |].
    split; [exact T3 |].
    intros t Ht. subst n.
    apply (run_timer_early _ _ (due + late1 + 500) FinishLoading); simpl;
      [exact T3 | exact Ht]. }
  assert (E4' : r4 = initPostLoad
          (with_this (set_loadingComplete true (this p3))
             (with_document (set_loading_screen None (document p3))
                (with_timers (timers p)
                   (with_now (due + late1 + 500 + late2) p3))))).
  { rewrite E4. reflexivity. }
  split; [rewrite E4'; apply initPostLoad_never_throws |].
  pose proof (initPostLoad_keeps_load_state
    (with_this (set_loadingComplete true (this p3))
             (with_document (set_loading_screen None (document p3))
                (with_timers (timers p)
                   (with_now (due + late1 + 500 + late2) p3))))) as K.
  rewrite <- E4' in K. unfold load_state in K. injection K as K1 K2 _.
  split; [rewrite K1; reflexivity |].
  split; [rewrite K2; reflexivity |].
  exact E4'.
Qed.

Lemma loading_sequence_witness :
  let p := page_of (storage_with None) full_document in
  let p2 := fst (onWindowLoad (now p) (advance 50 (fst (initLoading p)))) in
  timers p2 = [(1300, HideLoading)] /\
  now p + 300 <= 1300 /\
  loading_screen (document p2) = Some ["loading-screen"] /\
  forall t, t < 1300 -> run_timer 0 (with_now t p2) = (with_now t p2, Normal tt).
Proof.
  intros p p2.
  exact (proj1 (proj2 (loading_sequence p ["loading-screen"] 50 0 0 eq_refl
                         (Z.le_refl 0) (Z.le_refl 0)))).
Defined.

(** ** Form validation *)

Lemma has_class_remove_same (c : string) (cl : list string) :
  has_class c (classList_remove c cl) = false.
Proof.
  unfold has_class, classList_remove. induction cl as [| x cl IH]; simpl.
  - reflexivity.
  - destruct (String.eqb c x) eqn:E; simpl; [exact IH | rewrite E; exact IH].
Qed.

Lemma has_class_removed (c c' : string) (cl : list string) :
  has_class c cl = false -> has_class c (classList_remove c' cl) = false.
Proof.
  unfold has_class, classList_remove. intros H.
  induction cl as [| x cl IH]; simpl in *.
  - reflexivity.
  - apply orb_false_iff in H. destruct H as [Hx Hcl].
    destruct (String.eqb c' x); simpl; [auto | rewrite Hx; auto].
Qed.

Lemma has_class_add_same (c : string) (cl : list string) :
  has_class c (classList_add c cl) = true.
Proof.
  unfold classList_add. destruct (has_class c cl) eqn:E; [exact E |].
  unfold has_class. rewrite existsb_app. simpl.
  rewrite String.eqb_refl. simpl. apply orb_true_r.
Qed.

Lemma has_class_add_other (c c' : string) (cl : list string) :
  c <> c' -> has_class c (classList_add c' cl) = has_class c cl.
Proof.
  intros Hne. unfold classList_add. destruct (has_class c' cl); [reflexivity |].
  unfold has_class. rewrite existsb_app. simpl.
  destruct (String.eqb_spec c c') as [-> | _]; [contradiction |].
  simpl. rewrite orb_false_r. reflexivity.
Qed.

(** The class list right after [classList.remove('valid', 'invalid')]. *)
Lemma cleared_has_neither (cl : list string) :
  let cleared := classList_remove "invalid" (classList_remove "valid" cl) in
  has_class "valid" cleared = false /\ has_class "invalid" cleared = false.
Proof.
  split.
  - apply has_class_removed. apply has_class_remove_same.
  - apply has_class_remove_same.
Qed.

(** C10: after [validateField] the container of the field never carries
    both [valid] and [invalid]; the call returns [false] exactly when the
    container is marked [invalid]; and a field that is not required and
    whose trimmed value is empty gets neither class while the call returns
    [true]. *)
Theorem validateField_marks (field : Field) :
  let field' := fst (validateField field) in
  let result := snd (validateField field) in
  (has_class "valid" (container field') && has_class "invalid" (container field')
   = false) /\
  (result = false <-> has_class "invalid" (container field') = true) /\
  (trim (value field) = [] -> required field = false ->
   result = true /\
   has_class "valid" (container field') = false /\
   has_class "invalid" (container field') = false).
Proof.
  intros field' result. subst field' result. unfold validateField.
  destruct (cleared_has_neither (container field)) as [Hv Hi].
  set (cleared := classList_remove "invalid"
                    (classList_remove "valid" (container field))) in *.
  assert (Hinv : has_class "valid" (classList_add "invalid" cleared) = false).
  { rewrite has_class_add_other; [exact Hv | discriminate]. }
  assert (Hval : has_class "invalid" (classList_add "valid" cleared) = false).
  { rewrite has_class_add_other; [exact Hi | discriminate]. }
  split; [| split].
  - destruct (required field && is_empty (trim (value field))); simpl.
    { rewrite Hinv. reflexivity. }
    destruct (String.eqb (type field) "email" && negb (is_empty (trim (value field)))
              && negb (test emailRegex (trim (value field)))); simpl.
    { rewrite Hinv. reflexivity. }
    destruct (negb (is_empty (trim (value field)))); simpl.
    + rewrite Hval. apply andb_false_r.
    + rewrite Hv. reflexivity.
  - destruct (required field && is_empty (trim (value field))); simpl.
    { rewrite has_class_add_same. split; reflexivity. }
    destruct (String.eqb (type field) "email" && negb (is_empty (trim (value field)))
              && negb (test emailRegex (trim (value field)))); simpl.
    { rewrite has_class_add_same. split; reflexivity. }
    destruct (negb (is_empty (trim (value field)))); simpl.
    + rewrite Hval. split; discriminate.
    + rewrite Hi. split; discriminate.
  - intros Hempty Hreq. rewrite Hempty, Hreq. simpl.
    rewrite andb_false_r. simpl. rewrite Hv, Hi. repeat split; reflexivity.
Qed.

Lemma validateField_marks_witness :
  let field := mkField (units "   ") false "email" ["valid"; "invalid"] in
  snd (validateField field) = true /\
  has_class "valid" (container (fst (validateField field))) = false /\
  has_class "invalid" (container (fst (validateField field))) = false.
Proof.
  intros field.
  exact (proj2 (proj2 (validateField_marks field)) eq_refl eq_refl).
Defined.

(** ** Arithmetic *)

Lemma cube_monotone (x y : Q) : (0 <= x)%Q -> (x <= y)%Q -> (x ^ 3 <= y ^ 3)%Q.
Proof.
  intros Hx Hxy. simpl.
  assert (Hy : (0 <= y)%Q) by lra.
  assert (H2 : (x * x <= y * y)%Q) by nra.
  nra.
Qed.

Lemma exact_arith_sound : sound_arith exact_arith.
Proof.
  constructor; simpl.
  - intros x y H. exact H.
  - reflexivity.
  - reflexivity.
  - intros x y Hx Hxy _. apply (cube_monotone x y Hx Hxy).
  - reflexivity.
Qed.

Lemma Qeq_le (x y : Q) : (x == y)%Q -> (x <= y)%Q.
Proof. intros H. rewrite H. apply Qle_refl. Qed.

(** ** IEEE doubles *)

Section Doubles.
Local Open Scope Q_scope.

Lemma pow2_pos (e : Z) : 0 < 2 ^ e.
Proof. apply Qpower_0_lt. reflexivity. Qed.

Lemma pow2_add (a b : Z) : 2 ^ (a + b) == 2 ^ a * 2 ^ b.
Proof. apply Qpower_plus. discriminate. Qed.

Lemma pow2_succ (a : Z) : 2 ^ (a + 1) == 2 * 2 ^ a.
Proof. rewrite pow2_add. change (2 ^ 1) with 2. ring. Qed.

Lemma log2_bounds (n : positive) :
  2 ^ Z.log2 (Zpos n) <= inject_Z (Zpos n) /\
  inject_Z (Zpos n) < 2 ^ (Z.log2 (Zpos n) + 1).
Proof.
  destruct (Z.log2_spec (Zpos n)) as [H1 H2]; [reflexivity |].
  assert (H0 : (0 <= Z.log2 (Zpos n))%Z) by apply Z.log2_nonneg.
  split.
  - change 2 with (inject_Z 2). rewrite <- Zpower_Qpower by exact H0.
    rewrite <- Zle_Qle. exact H1.
  - change 2 with (inject_Z 2). rewrite <- Zpower_Qpower by lia.
    rewrite <- Zlt_Qlt. unfold Z.succ in H2. exact H2.
Qed.

Lemma exponent_spec (x : Q) :
  0 < x -> 2 ^ Double.exponent x <= x /\ x < 2 ^ (Double.exponent x + 1).
Proof.
  intros Hx. destruct x as [p q].
  assert (Hp : (0 < p)%Z).
  { unfold Qlt in Hx. simpl in Hx. lia. }
  destruct p as [| p | p]; try lia.
  unfold Double.exponent. simpl Qnum. simpl Qden.
  set (lp := Z.log2 (Zpos p)). set (lq := Z.log2 (Zpos q)).
  destruct (log2_bounds p) as [P1 P2]. destruct (log2_bounds q) as [Q1 Q2].
  fold lp in P1, P2. fold lq in Q1, Q2.
  assert (Hq : 0 < inject_Z (Zpos q)) by reflexivity.
  assert (E : Zpos p # q == inject_Z (Zpos p) / inject_Z (Zpos q))
    by apply Qmake_Qdiv.
  pose proof (pow2_pos (lp - lq)) as K0.
  pose proof (pow2_pos lq) as L0.
  assert (Ek : 2 ^ lp == 2 ^ (lp - lq) * 2 ^ lq).
  { rewrite <- pow2_add. replace (lp - lq + lq)%Z with lp by lia. reflexivity. }
  destruct (Qle_bool (2 ^ (lp - lq)) (Zpos p # q)) eqn:B.
  - apply Qle_bool_iff in B. split; [exact B |].
    rewrite E. apply Qlt_shift_div_r; [exact Hq |].
    rewrite pow2_succ. rewrite pow2_succ in P2. nra.
  - assert (B' : Zpos p # q < 2 ^ (lp - lq)).
    { apply Qnot_le_lt. intros H. apply Qle_bool_iff in H. congruence. }
    replace (lp - lq - 1 + 1)%Z with (lp - lq)%Z by lia.
    split; [| exact B'].
    rewrite E. apply Qle_shift_div_l; [exact Hq |].
    assert (Ek1 : 2 ^ (lp - lq) == 2 * 2 ^ (lp - lq - 1)).
    { rewrite <- pow2_succ. replace (lp - lq - 1 + 1)%Z with (lp - lq)%Z by lia.
      reflexivity. }
    pose proof (pow2_pos (lp - lq - 1)) as K1.
    rewrite pow2_succ in Q2. nra.
Qed.

Lemma exponent_monotone (x y : Q) :
  0 < x -> x <= y -> (Double.exponent x <= Double.exponent y)%Z.
Proof.
  intros Hx Hxy.
  destruct (exponent_spec x Hx) as [X1 _].
  destruct (exponent_spec y) as [_ Y2]; [lra |].
  assert (H : 2 ^ Double.exponent x < 2 ^ (Double.exponent y + 1)) by lra.
  apply Qpower_lt_compat_l_inv in H; [lia | reflexivity].
Qed.

Lemma nearest_even_bounds (m : Q) :
  (Qfloor m <= Double.nearest_even m <= Qfloor m + 1)%Z.
Proof.
  unfold Double.nearest_even.
  destruct (m - inject_Z (Qfloor m) ?= 1 # 2); [| lia | lia].
  destruct (Z.even (Qfloor m)); lia.
Qed.

Lemma nearest_even_monotone (m m' : Q) :
  m <= m' -> (Double.nearest_even m <= Double.nearest_even m')%Z.
Proof.
  intros H. pose proof (Qfloor_resp_le m m' H) as Hf.
  destruct (Z.eq_dec (Qfloor m) (Qfloor m')) as [E | N].
  - unfold Double.nearest_even. rewrite <- E.
    destruct (Qcompare_spec (m - inject_Z (Qfloor m)) (1 # 2)) as [A | A | A];
      destruct (Qcompare_spec (m' - inject_Z (Qfloor m)) (1 # 2)) as [B | B | B];
      try lia; try (destruct (Z.even (Qfloor m)); lia); exfalso; lra.
  - pose proof (nearest_even_bounds m). pose proof (nearest_even_bounds m'). lia.
Qed.

Lemma nearest_even_integer (z : Z) : Double.nearest_even (inject_Z z) = z.
Proof.
  unfold Double.nearest_even. rewrite Qfloor_Z.
  destruct (Qcompare_spec (inject_Z z - inject_Z z) (1 # 2)) as [A | A | A];
    [exfalso; lra | reflexivity | exfalso; lra].
Qed.

Lemma nearest_even_proper (m m' : Q) :
  m == m' -> Double.nearest_even m = Double.nearest_even m'.
Proof.
  intros H. apply Z.le_antisymm; apply nearest_even_monotone; lra.
Qed.

(** The significand of a positive number lies in [2^52, 2^53). *)
Lemma significand_bounds (x : Q) :
  0 < x ->
  let m := x / 2 ^ (Double.exponent x - 52) in
  inject_Z (2 ^ 52) <= m /\ m < inject_Z (2 ^ 53).
Proof.
  intros Hx m. subst m.
  destruct (exponent_spec x Hx) as [H1 H2].
  set (e := Double.exponent x) in *.
  pose proof (pow2_pos (e - 52)) as P.
  assert (E1 : 2 ^ e == inject_Z (2 ^ 52) * 2 ^ (e - 52)).
  { rewrite Zpower_Qpower by lia. change (inject_Z 2) with 2.
    rewrite <- pow2_add. replace (52 + (e - 52))%Z with e by lia. reflexivity. }
  assert (E2 : 2 ^ (e + 1) == inject_Z (2 ^ 53) * 2 ^ (e - 52)).
  { rewrite Zpower_Qpower by lia. change (inject_Z 2) with 2.
    rewrite <- pow2_add. replace (53 + (e - 52))%Z with (e + 1)%Z by lia.
    reflexivity. }
  split.
  - apply Qle_shift_div_l; [exact P |]. rewrite <- E1. exact H1.
  - apply Qlt_shift_div_r; [exact P |]. rewrite <- E2. exact H2.
Qed.

Lemma round_pos_bounds (x : Q) :
  0 < x ->
  2 ^ Double.exponent x <= Double.round_pos x /\
  Double.round_pos x <= 2 ^ (Double.exponent x + 1).
Proof.
  intros Hx. unfold Double.round_pos.
  destruct (significand_bounds x Hx) as [M1 M2].
  set (e := Double.exponent x) in *.
  set (m := x / 2 ^ (e - 52)) in *.
  pose proof (pow2_pos (e - 52)) as P.
  assert (N1 : (2 ^ 52 <= Double.nearest_even m)%Z).
  { rewrite <- (nearest_even_integer (2 ^ 52)).
    apply nearest_even_monotone. exact M1. }
  assert (N2 : (Double.nearest_even m <= 2 ^ 53)%Z).
  { rewrite <- (nearest_even_integer (2 ^ 53)).
    apply nearest_even_monotone. lra. }
  assert (E1 : 2 ^ e == inject_Z (2 ^ 52) * 2 ^ (e - 52)).
  { rewrite Zpower_Qpower by lia. change (inject_Z 2) with 2.
    rewrite <- pow2_add. replace (52 + (e - 52))%Z with e by lia. reflexivity. }
  assert (E2 : 2 ^ (e + 1) == inject_Z (2 ^ 53) * 2 ^ (e - 52)).
  { rewrite Zpower_Qpower by lia. change (inject_Z 2) with 2.
    rewrite <- pow2_add. replace (53 + (e - 52))%Z with (e + 1)%Z by lia.
    reflexivity. }
  rewrite Zle_Qle in N1, N2.
  rewrite E1, E2. split; apply Qmult_le_compat_r; lra.
Qed.

Lemma round_pos_positive (x : Q) : 0 < x -> 0 < Double.round_pos x.
Proof.
  intros Hx. destruct (round_pos_bounds x Hx) as [H _].
  pose proof (pow2_pos (Double.exponent x)). lra.
Qed.

Lemma round_pos_monotone (x y : Q) :
  0 < x -> x <= y -> Double.round_pos x <= Double.round_pos y.
Proof.
  intros Hx Hxy. assert (Hy : 0 < y) by lra.
  pose proof (exponent_monotone x y Hx Hxy) as He.
  destruct (Z.eq_dec (Double.exponent x) (Double.exponent y)) as [E | N].
  - unfold Double.round_pos. rewrite <- E.
    set (e := (Double.exponent x - 52)%Z).
    pose proof (pow2_pos e) as P.
    apply Qmult_le_compat_r; [| lra].
    rewrite <- Zle_Qle. apply nearest_even_monotone.
    unfold Qdiv. apply Qmult_le_compat_r; [exact Hxy |].
    apply Qlt_le_weak, Qinv_lt_0_compat. exact P.
  - destruct (round_pos_bounds x Hx) as [_ X2].
    destruct (round_pos_bounds y Hy) as [Y1 _].
    assert (H : 2 ^ (Double.exponent x + 1) <= 2 ^ Double.exponent y).
    { apply Qpower_le_compat_l; [lia | discriminate]. }
    lra.
Qed.

Lemma Qnum_sign (x : Q) :
  match Qnum x with
  | Z0 => x == 0
  | Zpos _ => 0 < x
  | Zneg _ => x < 0
  end.
Proof.
  destruct x as [[| p | p] q]; unfold Qeq, Qlt; simpl; lia.
Qed.

Lemma round_of_positive (x : Q) : 0 < x -> Double.round x = Double.round_pos x.
Proof.
  intros Hx. unfold Double.round. pose proof (Qnum_sign x) as S.
  destruct (Qnum x); [exfalso; lra | reflexivity | exfalso; lra].
Qed.

Lemma round_of_negative (x : Q) :
  x < 0 -> Double.round x = - Double.round_pos (- x).
Proof.
  intros Hx. unfold Double.round. pose proof (Qnum_sign x) as S.
  destruct (Qnum x); [exfalso; lra | exfalso; lra | reflexivity].
Qed.

Lemma round_of_zero (x : Q) : x == 0 -> Double.round x = 0.
Proof.
  intros Hx. unfold Double.round. pose proof (Qnum_sign x) as S.
  destruct (Qnum x); [reflexivity | exfalso; lra | exfalso; lra].
Qed.

Lemma round_monotone (x y : Q) : x <= y -> Double.round x <= Double.round y.
Proof.
  intros Hxy.
  destruct (Q_dec x 0) as [[Hx | Hx] | Hx]; destruct (Q_dec y 0) as [[Hy | Hy] | Hy];
    try (exfalso; lra).
  - rewrite (round_of_negative x Hx), (round_of_negative y Hy).
    apply Qopp_le_compat. apply round_pos_monotone; lra.
  - rewrite (round_of_negative x Hx), (round_of_positive y Hy).
    assert (0 < Double.round_pos (- x)) by (apply round_pos_positive; lra).
    assert (0 < Double.round_pos y) by (apply round_pos_positive; lra).
    lra.
  - rewrite (round_of_negative x Hx), (round_of_zero y Hy).
    assert (0 < Double.round_pos (- x)) by (apply round_pos_positive; lra).
    lra.
  - rewrite (round_of_positive x Hx), (round_of_positive y Hy).
    apply round_pos_monotone; lra.
  - rewrite (round_of_zero x Hx), (round_of_positive y Hy).
    apply Qlt_le_weak, round_pos_positive. exact Hy.
  - rewrite (round_of_zero x Hx), (round_of_zero y Hy). apply Qle_refl.
Qed.

Lemma round_pos_integer (z : Z) :
  (0 < z <= 2 ^ 53)%Z -> Double.round_pos (inject_Z z) == inject_Z z.
Proof.
  intros [Hz Hmax].
  assert (Hx : 0 < inject_Z z) by (change 0 with (inject_Z 0); rewrite <- Zlt_Qlt; exact Hz).
  destruct (exponent_spec _ Hx) as [H1 H2].
  unfold Double.round_pos.
  set (e := Double.exponent (inject_Z z)) in *.
  pose proof (pow2_pos (e - 52)) as P.
  assert (He : (e <= 53)%Z).
  { assert (H : 2 ^ e < 2 ^ 54).
    { apply Qle_lt_trans with (inject_Z z); [exact H1 |].
      apply Qle_lt_trans with (inject_Z (2 ^ 53)); [rewrite <- Zle_Qle; exact Hmax |].
      reflexivity. }
    apply Qpower_lt_compat_l_inv in H; [lia | reflexivity]. }
  destruct (Z.eq_dec e 53%Z) as [E53 | N53].
  - assert (Ez : z = (2 ^ 53)%Z).
    { apply Z.le_antisymm; [exact Hmax |].
      rewrite Zle_Qle. rewrite E53 in H1. exact H1. }
    clear H2 P He E53 Hx Hmax Hz. subst z. subst e. vm_compute. reflexivity.
  - assert (Em : inject_Z z / 2 ^ (e - 52) == inject_Z (z * 2 ^ (52 - e))).
    { rewrite inject_Z_mult, Zpower_Qpower by lia. change (inject_Z 2) with 2.
      assert (Hinv : 2 ^ (52 - e) * 2 ^ (e - 52) == 1).
      { rewrite <- pow2_add. replace (52 - e + (e - 52))%Z with 0%Z by lia.
        reflexivity. }
      pose proof (pow2_pos (52 - e)) as P'.
      apply Qmult_inj_r with (2 ^ (e - 52)); [lra |].
      unfold Qdiv. rewrite <- !Qmult_assoc, Hinv.
      rewrite (Qmult_comm (/ _)), Qmult_inv_r by lra. reflexivity. }
    rewrite (nearest_even_proper _ _ Em), nearest_even_integer.
    rewrite inject_Z_mult, Zpower_Qpower by lia. change (inject_Z 2) with 2.
    rewrite <- Qmult_assoc, <- pow2_add.
    replace (52 - e + (e - 52))%Z with 0%Z by lia. change (2 ^ 0) with 1. ring.
Qed.

(** Every integer up to [2^53] in absolute value is a double. *)
Lemma round_integer (z : Z) :
  (Z.abs z <= 2 ^ 53)%Z -> Double.round (inject_Z z) == inject_Z z.
Proof.
  intros Hz. destruct (Z.lt_trichotomy z 0) as [Hneg | [-> | Hpos]].
  - assert (Hx : inject_Z z < 0)
      by (change 0 with (inject_Z 0); rewrite <- Zlt_Qlt; exact Hneg).
    rewrite (round_of_negative _ Hx).
    assert (E : - inject_Z z == inject_Z (- z)) by (rewrite inject_Z_opp; reflexivity).
    assert (R : Double.round_pos (- inject_Z z) == inject_Z (- z)).
    { rewrite <- (round_pos_integer (- z)) by lia.
      apply Qle_antisym; apply round_pos_monotone; rewrite ?E; try lra;
        change 0 with (inject_Z 0); rewrite <- Zlt_Qlt; lia. }
    rewrite R, inject_Z_opp. ring.
  - reflexivity.
  - assert (Hx : 0 < inject_Z z)
      by (change 0 with (inject_Z 0); rewrite <- Zlt_Qlt; exact Hpos).
    rewrite (round_of_positive _ Hx). apply round_pos_integer. lia.
Qed.

Lemma double_arith_sound : sound_arith double_arith.
Proof.
  constructor; simpl.
  - apply round_monotone.
  - reflexivity.
  - reflexivity.
  - intros x y Hx Hxy _. apply round_monotone. apply (cube_monotone x y Hx Hxy).
  - reflexivity.
Qed.

Lemma double_representable (z : Z) :
  (Z.abs z <= 2 ^ 53)%Z -> representable double_arith z.
Proof. apply round_integer. Qed.

(** Step 20 of a counter to 27 shows 18 whatever [Math.pow] returns within
    one unit in the last place of the exact cube. *)
Lemma step_20_of_27_any_pow (pow : Q -> Q) :
  let base := Double.round (1 - Double.round (20 / 60)) in
  Qabs (pow base - base ^ 3) <= 2 ^ (-54) ->
  Counter.displayValue (mkArith Double.round pow) 27 20 = 18%Z.
Proof.
  intros base H. apply Qabs_Qle_condition in H. destruct H as [H1 H2].
  unfold Counter.displayValue, Counter.easeOut. simpl rnd. simpl pow3.
  change (Double.round (1 - Double.round (inject_Z 20 / Counter.steps)))
    with base.
  set (c := pow base) in *.
  set (lo := base ^ 3 - 2 ^ (-54)). set (hi := base ^ 3 + 2 ^ (-54)).
  assert (Hlo : lo <= c) by (unfold lo; lra).
  assert (Hhi : c <= hi) by (unfold hi; lra).
  assert (Vlo : Qfloor (Double.round (inject_Z 27 * Double.round (1 - lo))) = 18%Z)
    by (vm_compute; reflexivity).
  assert (Vhi : Qfloor (Double.round (inject_Z 27 * Double.round (1 - hi))) = 18%Z)
    by (vm_compute; reflexivity).
  clearbody c lo hi. apply Z.le_antisymm.
  - rewrite <- Vlo. apply Qfloor_resp_le, round_monotone.
    assert (R : Double.round (1 - c) <= Double.round (1 - lo))
      by (apply round_monotone; lra).
    change (inject_Z 27) with 27. lra.
  - rewrite <- Vhi. apply Qfloor_resp_le, round_monotone.
    assert (R : Double.round (1 - hi) <= Double.round (1 - c))
      by (apply round_monotone; lra).
    change (inject_Z 27) with 27. lra.
Qed.

End Doubles.

Section Rounding.
Context (A : Arith) (HA : sound_arith A).

Lemma rnd_proper (x y : Q) : (x == y)%Q -> (rnd A x == rnd A y)%Q.
Proof.
  intros H. apply Qle_antisym; apply (rnd_monotone A HA); rewrite H; apply Qle_refl.
Qed.

Lemma rnd_unit_interval (x : Q) :
  (0 <= x)%Q -> (x <= 1)%Q -> (0 <= rnd A x)%Q /\ (rnd A x <= 1)%Q.
Proof.
  intros H0 H1. split.
  - apply Qle_trans with (rnd A 0).
    + apply Qeq_le. symmetry. apply (rnd_zero A HA).
    + apply (rnd_monotone A HA). exact H0.
  - apply Qle_trans with (rnd A 1).
    + apply (rnd_monotone A HA). exact H1.
    + apply Qeq_le. apply (rnd_one A HA).
Qed.

Lemma pow3_nonneg (x : Q) : (0 <= x)%Q -> (x <= 1)%Q -> (0 <= pow3 A x)%Q.
Proof.
  intros H0 H1. apply Qle_trans with (pow3 A 0).
  - apply Qeq_le. symmetry. apply (pow3_zero A HA).
  - apply (pow3_monotone A HA); [apply Qle_refl | exact H0 | exact H1].
Qed.

Lemma pow3_proper (x y : Q) :
  (0 <= y)%Q -> (y <= 1)%Q -> (x == y)%Q -> (pow3 A x == pow3 A y)%Q.
Proof.
  intros H0 H1 H.
  assert (Hxy : (x <= y)%Q) by (apply Qeq_le; exact H).
  assert (Hyx : (y <= x)%Q) by (apply Qeq_le; symmetry; exact H).
  apply Qle_antisym; apply (pow3_monotone A HA); lra.
Qed.

Lemma fraction_bounds (a : Z) :
  (0 <= a <= 60)%Z ->
  (0 <= inject_Z a / Counter.steps)%Q /\ (inject_Z a / Counter.steps <= 1)%Q.
Proof.
  intros [H0 H60]. unfold Counter.steps, Qdiv. change (/ 60)%Q with (1 # 60)%Q.
  assert (H0' : (inject_Z 0 <= inject_Z a)%Q) by (rewrite <- Zle_Qle; exact H0).
  assert (H60' : (inject_Z a <= inject_Z 60)%Q) by (rewrite <- Zle_Qle; exact H60).
  change (inject_Z 0) with 0%Q in H0'. change (inject_Z 60) with 60%Q in H60'.
  split; lra.
Qed.

Lemma base_bounds (a : Z) :
  (0 <= a <= 60)%Z -> (0 <= powBase A a)%Q /\ (powBase A a <= 1)%Q.
Proof.
  intros Ha. unfold powBase.
  destruct (fraction_bounds a Ha) as [F0 F1].
  destruct (rnd_unit_interval _ F0 F1) as [P0 P1].
  apply rnd_unit_interval; lra.
Qed.

Lemma base_antitone (a b : Z) :
  (0 <= a <= b)%Z -> (b <= 60)%Z -> (powBase A b <= powBase A a)%Q.
Proof.
  intros [H0 Hab] Hb. unfold powBase. apply (rnd_monotone A HA).
  assert (H : (rnd A (inject_Z a / Counter.steps)
               <= rnd A (inject_Z b / Counter.steps))%Q).
  { apply (rnd_monotone A HA). unfold Counter.steps, Qdiv.
    change (/ 60)%Q with (1 # 60)%Q.
    assert (H' : (inject_Z a <= inject_Z b)%Q) by (rewrite <- Zle_Qle; exact Hab).
    lra. }
  lra.
Qed.

Lemma easeOut_monotone (a b : Z) :
  (0 <= a <= b)%Z -> (b <= 60)%Z ->
  (Counter.easeOut A a <= Counter.easeOut A b)%Q.
Proof.
  intros Hab Hb. unfold Counter.easeOut. fold (powBase A a). fold (powBase A b).
  apply (rnd_monotone A HA).
  assert (H : (pow3 A (powBase A b) <= pow3 A (powBase A a))%Q).
  { apply (pow3_monotone A HA).
    - apply base_bounds. lia.
    - apply base_antitone; assumption.
    - apply base_bounds. lia. }
  lra.
Qed.

Lemma easeOut_final : (Counter.easeOut A 60 == 1)%Q.
Proof.
  unfold Counter.easeOut.
  assert (P : (rnd A (inject_Z 60 / Counter.steps) == 1)%Q).
  { transitivity (rnd A 1); [apply rnd_proper; reflexivity | apply (rnd_one A HA)]. }
  assert (B : (rnd A (1 - rnd A (inject_Z 60 / Counter.steps)) == 0)%Q).
  { transitivity (rnd A 0); [| apply (rnd_zero A HA)].
    apply rnd_proper. rewrite P. reflexivity. }
  assert (C : (pow3 A (rnd A (1 - rnd A (inject_Z 60 / Counter.steps))) == 0)%Q).
  { transitivity (pow3 A 0); [| apply (pow3_zero A HA)].
    apply pow3_proper; [apply Qle_refl | discriminate | exact B]. }
  transitivity (rnd A 1); [| apply (rnd_one A HA)].
  apply rnd_proper. rewrite C. reflexivity.
Qed.

Lemma displayValue_final (t : Z) :
  representable A t -> Counter.displayValue A t 60 = t.
Proof.
  intros Ht. unfold Counter.displayValue.
  transitivity (Qfloor (rnd A (inject_Z t))).
  - apply Qfloor_comp. apply rnd_proper. rewrite easeOut_final. ring.
  - rewrite (Qfloor_comp _ _ Ht). apply Qfloor_Z.
Qed.

Lemma displayValue_monotone (t a b : Z) :
  (0 <= t)%Z -> (0 <= a <= b)%Z -> (b <= 60)%Z ->
  (Counter.displayValue A t a <= Counter.displayValue A t b)%Z.
Proof.
  intros Ht Hab Hb. unfold Counter.displayValue.
  apply Qfloor_resp_le. apply (rnd_monotone A HA).
  pose proof (easeOut_monotone a b Hab Hb) as H.
  assert (Ht' : (0 <= inject_Z t)%Q)
    by (change (inject_Z 0 <= inject_Z t)%Q; rewrite <- Zle_Qle; exact Ht).
  nra.
Qed.

End Rounding.

(** ** Scroll progress *)

(** C8: whatever the scroll offsets and heights, negative and
    overflowing ones included, and whatever the rounding, the percentage
    written to the width of the progress bar lies in [0, 100]; it is 0 when
    the scrollable height is not positive. *)
Theorem progressWidth_clamped (A : Arith) (v : Viewport) (p : Page) :
  (0 <= progressWidth A v)%Q /\
  (progressWidth A v <= 100)%Q /\
  (sound_arith A -> (scrollHeight_root v - innerHeight v <= 0)%Q ->
   progressWidth A v = 0%Q) /\
  scroll_progress (document (fst (onScrollProgress A v p)))
    = Some (progressWidth A v).
Proof.
  split; [| split; [| split]].
  - unfold progressWidth. apply Q.min_glb.
    + apply Q.le_max_r.
    + discriminate.
  - unfold progressWidth. apply Q.le_min_r.
  - intros HA H. unfold progressWidth, scrollPercent.
    destruct (Qlt_le_dec 0 (rnd A (scrollHeight_root v - innerHeight v)))
      as [Hlt | _]; [| reflexivity].
    exfalso. apply (Qlt_not_le _ _ Hlt).
    apply Qle_trans with (rnd A 0).
    + apply (rnd_monotone A HA). exact H.
    + apply Qeq_le. apply (rnd_zero A HA).
  - reflexivity.
Qed.

Lemma progressWidth_clamped_witness :
  progressWidth exact_arith (mkViewport 120 0 400 500) = 0%Q.
Proof.
  apply (proj1 (proj2 (proj2
    (progressWidth_clamped exact_arith (mkViewport 120 0 400 500)
       (page_of (storage_with None) bare_document))))).
  - exact exact_arith_sound.
  - vm_compute. discriminate.
Defined.

(** ** Stat counters *)

Lemma Qle_bool_steps (z : Z) :
  Qle_bool Counter.steps (inject_Z z) = (60 <=? z)%Z.
Proof. unfold Qle_bool, Counter.steps. simpl. f_equal. lia. Qed.

Lemma after_succ (A : Arith) (el : StatNumber) (s : nat) :
  Counter.after A el (S s) = Counter.tick A (Counter.after A el s).
Proof. reflexivity. Qed.

Lemma tick_running (A : Arith) (c : Counter.State) :
  Counter.cleared c = false ->
  (Counter.step c + 1 < 60)%Z ->
  Counter.tick A c =
    Counter.mkState
      (Counter.set_text
         (Counter.displayValue A (Counter.target c) (Counter.step c + 1))
         (Counter.element c))
      (Counter.target c) (Counter.increment c)
      (Qmin (rnd A (Counter.current c + Counter.increment c))
            (inject_Z (Counter.target c)))
      (Counter.step c + 1) false.
Proof.
  intros Hc Hlt. unfold Counter.tick. rewrite Hc, Qle_bool_steps.
  destruct (Z.leb_spec 60 (Counter.step c + 1)) as [Hge | _]; [lia | reflexivity].
Qed.

Lemma tick_last (A : Arith) (c : Counter.State) :
  Counter.cleared c = false ->
  (60 <= Counter.step c + 1)%Z ->
  Counter.cleared (Counter.tick A c) = true /\
  stat_text (Counter.element (Counter.tick A c)) = Some (Counter.target c).
Proof.
  intros Hc Hge. unfold Counter.tick. rewrite Hc, Qle_bool_steps.
  destruct (Z.leb_spec 60 (Counter.step c + 1)) as [_ | Hlt]; [| lia].
  split; reflexivity.
Qed.

(** While fewer than 60 callbacks have run the interval is live, the
    closure has counted them, and the element shows the eased value. *)
Lemma running_state (A : Arith) (el : StatNumber) (s : nat) :
  (s < 60)%nat ->
  Counter.cleared (Counter.after A el s) = false /\
  Counter.step (Counter.after A el s) = Z.of_nat s /\
  Counter.target (Counter.after A el s) = data_count el /\
  ((1 <= s)%nat ->
   Counter.displayed A el s
     = Some (Counter.displayValue A (data_count el) (Z.of_nat s))).
Proof.
  unfold Counter.displayed.
  induction s as [| s IH]; intros Hs.
  - split; [reflexivity |]. split; [reflexivity |]. split; [reflexivity |].
    intros H. inversion H.
  - assert (Hs' : (s < 60)%nat) by lia.
    destruct (IH Hs') as (Hc & Hstep & Htarget & _). clear IH.
    rewrite after_succ, (tick_running A _ Hc) by lia.
    rewrite Hstep, Htarget.
    replace (Z.of_nat s + 1)%Z with (Z.of_nat (S s)) by lia.
    split; [reflexivity |]. split; [reflexivity |]. split; [reflexivity |].
    intros _. reflexivity.
Qed.

(** The sixtieth callback stops the interval and writes the target. *)
Lemma final_state (A : Arith) (el : StatNumber) :
  Counter.cleared (Counter.after A el 60) = true /\
  Counter.displayed A el 60 = Some (data_count el).
Proof.
  unfold Counter.displayed.
  destruct (running_state A el 59) as (Hc & Hstep & Htarget & _); [lia |].
  rewrite (after_succ A el 59).
  destruct (tick_last A _ Hc) as [H1 H2]; [rewrite Hstep; lia |].
  rewrite Htarget in H2. split; assumption.
Qed.

Lemma displayed_at (A : Arith) (el : StatNumber) (s : nat) :
  sound_arith A -> representable A (data_count el) ->
  (1 <= s <= 60)%nat ->
  Counter.displayed A el s
    = Some (Counter.displayValue A (data_count el) (Z.of_nat s)).
Proof.
  intros HA Hrep Hs. destruct (Nat.eq_dec s 60%nat) as [-> | Hne].
  - rewrite (proj2 (final_state A el)). f_equal. symmetry.
    apply (displayValue_final A HA). exact Hrep.
  - destruct (running_state A el s) as (_ & _ & _ & H); [lia |].
    apply H. lia.
Qed.

(** C5 (as amended): for a non-negative integer target that is a double,
    after the [s]-th run of the interval callback ([s] from 1 to 60) the
    element shows [floor(target * (1 - (1 - s/60)^3))] as the machine
    evaluates it, every operation rounded and the cube taken by
    [Math.pow]; in exact arithmetic this is the formula as written.  In
    every sound arithmetic, the doubles among them, the values shown never
    decrease from one step to a later one and never exceed the target, the
    60th value is the target itself, and the interval is cleared after
    it. *)
Theorem counter_animation (A : Arith) (el : StatNumber) (s : nat) :
  sound_arith A ->
  representable A (data_count el) ->
  (0 <= data_count el)%Z ->
  (1 <= s <= 60)%nat ->
  let target := data_count el in
  Counter.displayed exact_arith el s
    = Some (Qfloor (inject_Z target * (1 - (1 - inject_Z (Z.of_nat s) / 60) ^ 3))%Q) /\
  Counter.displayed A el s
    = Some (Qfloor (rnd A (inject_Z target
              * rnd A (1 - pow3 A (rnd A (1 - rnd A (inject_Z (Z.of_nat s) / 60)))))%Q)) /\
  (forall s', (1 <= s' <= s)%nat ->
     exists v' v, Counter.displayed A el s' = Some v' /\
                  Counter.displayed A el s = Some v /\
                  (v' <= v)%Z /\ (v <= target)%Z) /\
  Counter.displayed A el 60 = Some target /\
  Counter.cleared (Counter.after A el 60) = true /\
  Counter.tick A (Counter.after A el 60) = Counter.after A el 60.
Proof.
  intros HA Hrep Ht Hs target.
  split.
  { apply (displayed_at exact_arith el s exact_arith_sound); [| exact Hs].
    unfold representable. reflexivity. }
  split; [apply (displayed_at A el s HA Hrep Hs) |].
  split.
  { intros s' Hs'.
    exists (Counter.displayValue A target (Z.of_nat s')),
           (Counter.displayValue A target (Z.of_nat s)).
    split; [apply (displayed_at A el s' HA Hrep); lia |].
    split; [apply (displayed_at A el s HA Hrep Hs) |].
    split.
    - apply (displayValue_monotone A HA); [exact Ht | lia | lia].
    - rewrite <- (displayValue_final A HA target Hrep) at 2.
      apply (displayValue_monotone A HA); [exact Ht | lia | lia]. }
  split; [exact (proj2 (final_state A el)) |].
  split; [exact (proj1 (final_state A el)) |].
  unfold Counter.tick at 1. rewrite (proj1 (final_state A el)). reflexivity.
Qed.

Lemma counter_animation_witness :
  Counter.displayed double_arith (mkStat 27 None) 20 = Some 18%Z /\
  Counter.displayed double_arith (mkStat 27 None) 60 = Some 27%Z.
Proof.
  destruct (counter_animation double_arith (mkStat 27 None) 20)
    as (_ & H2 & _ & H4 & _).
  - exact double_arith_sound.
  - apply double_representable. vm_compute. discriminate.
  - discriminate.
  - lia.
  - split; [| exact H4].
    rewrite H2. vm_compute. reflexivity.
Defined.

(** In doubles the value shown is not always the formula of C5 evaluated
    exactly: at step 20 of a counter to 27 the machine computes
    [1 - 20/60] as the double just above 2/3, its cube just above 8/27,
    and the product just below 19, so that 18 is shown where the exact
    formula gives 19. *)
Lemma counter_formula_fails_in_doubles :
  Counter.displayed double_arith (mkStat 27 None) 20 = Some 18%Z /\
  Qfloor (inject_Z 27 * (1 - (1 - inject_Z 20 / 60) ^ 3))%Q = 19%Z /\
  Counter.displayed double_arith (mkStat 27 None) 20
    <> Some (Qfloor (inject_Z 27 * (1 - (1 - inject_Z 20 / 60) ^ 3))%Q).
Proof.
  assert (H : Counter.displayed double_arith (mkStat 27 None) 20 = Some 18%Z)
    by (vm_compute; reflexivity).
  split; [exact H |]. split; [vm_compute; reflexivity |].
  rewrite H. vm_compute. discriminate.
Qed.

(** * Further properties *)

(** ** Theme preference across page loads *)

(** X1: the theme written by a completed [setTheme] is the theme that the
    next page load starts with: on any page that holds the store which
    [setTheme] left, whatever its document and controller fields, the
    constructor reads the theme back, whenever it is a non-empty string and
    the store can be read. *)
Theorem theme_survives_reload (t : string) (p p' q : Page) :
  setTheme t p = (p', Normal tt) ->
  t <> EmptyString ->
  localStorage q = localStorage p' ->
  readable (localStorage q) = true ->
  theme (this (fst (constructor q))) = t /\
  root_theme (document (fst (constructor q))) = Some t.
Proof.
  intros Hset Hne Hq Hr.
  apply setTheme_completed in Hset.
  destruct Hset as (_ & _ & _ & Hitems & _).
  rewrite (constructor_is_init q Hr).
  set (p0 := with_this _ q).
  assert (Hres : or_default (items (localStorage q) !! "theme") "light" = t).
  { rewrite Hq, Hitems, lookup_insert_eq.
    destruct t; [contradiction | reflexivity]. }
  pose proof (init_theme_state p0) as Hst.
  unfold theme_state in Hst. injection Hst as Hroot _ _ _ Hthis.
  rewrite Hroot, Hthis, Hres. split.
  - apply setTheme_keeps_own_theme. exact Hres.
  - apply setTheme_sets_attributes.
Qed.

Lemma theme_survives_reload_witness :
  let p := page_of (storage_with None) full_document in
  let q := mkPage (localStorage (fst (setTheme "dark" p))) bare_document
             unconstructed 5000 [] [] [] "/about.html" false in
  theme (this (fst (constructor q))) = "dark".
Proof.
  intros p q.
  refine (proj1 (theme_survives_reload "dark" p (fst (setTheme "dark" p)) q
                   _ _ _ _)).
  - vm_compute. reflexivity.
  - discriminate.
  - reflexivity.
  - vm_compute. reflexivity.
Defined.

(** X2: on the same readable store the early script and the controller
    resolve the same theme: the [data-theme] that the script puts on the
    root element is the one the constructor puts there. *)
Theorem early_script_agrees_with_controller (s : ThemeInit.State) (p : Page) :
  ThemeInit.storage s = localStorage p ->
  readable (localStorage p) = true ->
  ThemeInit.root_attr (ThemeInit.run s)
    = root_theme (document (fst (constructor p))).
Proof.
  intros Hs Hr.
  rewrite (constructor_is_init p Hr).
  set (p0 := with_this _ p).
  pose proof (init_theme_state p0) as Hst.
  unfold theme_state in Hst. injection Hst as Hroot _ _ _ _.
  rewrite Hroot.
  rewrite (proj1 (setTheme_sets_attributes _ p0)).
  unfold ThemeInit.run, ThemeInit.initializeBodyTheme, getItem.
  rewrite Hs, Hr. simpl.
  destruct (ThemeInit.body s); [| destruct (ThemeInit.loading s)]; reflexivity.
Qed.

Lemma early_script_agrees_with_controller_witness :
  let p := page_of (storage_with (Some "dark")) full_document in
  let s := ThemeInit.mkState (localStorage p) None [] None true [] 0 in
  ThemeInit.root_attr (ThemeInit.run s)
    = root_theme (document (fst (constructor p))).
Proof.
  intros p s.
  exact (early_script_agrees_with_controller s p eq_refl eq_refl).
Defined.

Lemma classList_add_idempotent (c : string) (cl : list string) :
  classList_add c (classList_add c cl) = classList_add c cl.
Proof.
  unfold classList_add at 1. rewrite has_class_add_same. reflexivity.
Qed.

(** X3: when the early script runs before the body exists, it registers
    the body initialisation twice (for [DOMContentLoaded] or a zero timeout,
    and for [load]), both with the theme it resolved; once the body exists
    that initialisation gives the body the attribute of the root and the
    same theme class to both, and running it a second time changes
    nothing. *)
Theorem early_script_deferred_body (s : ThemeInit.State) (b : ThemeInit.Body) :
  readable (ThemeInit.storage s) = true ->
  ThemeInit.body s = None ->
  let t := or_default (items (ThemeInit.storage s) !! "theme") "light" in
  let cls := if String.eqb t "dark" then "dark-theme" else "light-theme" in
  let s1 := ThemeInit.run s in
  let s2 := ThemeInit.initializeBodyTheme t (ThemeInit_withBody b s1) in
  ThemeInit.deferred s1
    = (ThemeInit.deferred s
       ++ [(if ThemeInit.loading s then "DOMContentLoaded" else "timeout", t);
           ("load", t)])%list /\
  ThemeInit.root_attr s2 = Some t /\
  option_map ThemeInit.body_attr (ThemeInit.body s2) = Some (Some t) /\
  has_class cls (ThemeInit.root_classList s2) = true /\
  option_map (fun b' => has_class cls (ThemeInit.body_classList b'))
             (ThemeInit.body s2) = Some true /\
  ThemeInit.initializeBodyTheme t s2 = s2.
Proof.
  intros Hr Hb t cls s1 s2.
  assert (E1 : s1 = ThemeInit.defer "load" t
                 (ThemeInit.defer
                    (if ThemeInit.loading s then "DOMContentLoaded" else "timeout")
                    t (ThemeInit.setRootTheme t s))).
  { subst s1. unfold ThemeInit.run, getItem. rewrite Hr. simpl. rewrite Hb.
    destruct (ThemeInit.loading s); reflexivity. }
  split.
  { rewrite E1. simpl. rewrite <- app_assoc. reflexivity. }
  subst s2. rewrite E1. unfold ThemeInit.initializeBodyTheme. simpl.
  fold cls.
  split; [reflexivity |]. split; [reflexivity |].
  split; [apply has_class_add_same |].
  split; [rewrite has_class_add_same; reflexivity |].
  rewrite !classList_add_idempotent. reflexivity.
Qed.

Lemma early_script_deferred_body_witness :
  let s := ThemeInit.mkState (storage_with (Some "dark")) None [] None true [] 0 in
  let s2 := ThemeInit.initializeBodyTheme "dark"
              (ThemeInit_withBody (ThemeInit.mkBody None []) (ThemeInit.run s)) in
  ThemeInit.initializeBodyTheme "dark" s2 = s2.
Proof.
  intros s s2.
  exact (proj2 (proj2 (proj2 (proj2 (proj2
    (early_script_deferred_body s (ThemeInit.mkBody None []) eq_refl eq_refl)))))).
Defined.

(** ** Current page *)

Lemma has_char_cons (c a : ascii) (s : string) :
  has_char c (String a s) = Ascii.eqb c a || has_char c s.
Proof. reflexivity. Qed.

Lemma last_segment_cons (acc : string) (c : ascii) (s : string) :
  last_segment acc (String c s) =
    if Ascii.eqb c "/" then last_segment EmptyString s
    else last_segment (acc ++ String c EmptyString) s.
Proof. reflexivity. Qed.

Lemma has_char_app (c : ascii) (s t : string) :
  has_char c (s ++ t) = has_char c s || has_char c t.
Proof.
  induction s as [| a s IH]; [reflexivity |].
  change (String a s ++ t)%string with (String a (s ++ t)%string).
  rewrite !has_char_cons, IH. apply orb_assoc.
Qed.

Lemma append_assoc (s t u : string) : ((s ++ t) ++ u = s ++ (t ++ u))%string.
Proof.
  induction s as [| a s IH]; [reflexivity |].
  change (String a ((s ++ t) ++ u) = String a (s ++ (t ++ u)))%string.
  f_equal. exact IH.
Qed.

Lemma append_empty_r (s : string) : (s ++ EmptyString = s)%string.
Proof.
  induction s as [| a s IH]; [reflexivity |].
  change (String a (s ++ EmptyString) = String a s)%string.
  f_equal. exact IH.
Qed.

Lemma last_segment_without_slash (acc t : string) :
  has_char "/" t = false -> last_segment acc t = (acc ++ t)%string.
Proof.
  revert acc. induction t as [| c t IH]; intros acc H.
  - symmetry. apply append_empty_r.
  - rewrite has_char_cons in H. apply orb_false_iff in H. destruct H as [Hc Ht].
    rewrite Ascii.eqb_sym in Hc.
    rewrite last_segment_cons, Hc, (IH _ Ht), append_assoc. reflexivity.
Qed.

Lemma last_segment_after_slash (acc s t : string) :
  last_segment acc (s ++ String "/" t) = last_segment EmptyString t.
Proof.
  revert acc. induction s as [| c s IH]; intros acc.
  - reflexivity.
  - change (String c s ++ String "/" t)%string
      with (String c (s ++ String "/" t)%string).
    rewrite last_segment_cons. destruct (Ascii.eqb c "/"); apply IH.
Qed.

Lemma last_segment_no_slash (acc s : string) :
  has_char "/" acc = false -> has_char "/" (last_segment acc s) = false.
Proof.
  revert acc. induction s as [| c s IH]; intros acc H.
  - exact H.
  - rewrite last_segment_cons. destruct (Ascii.eqb c "/") eqn:E.
    + apply IH. reflexivity.
    + apply IH. rewrite has_char_app, H, has_char_cons.
      rewrite Ascii.eqb_sym, E. reflexivity.
Qed.

Lemma remove_first_unfold (pat s : string) :
  remove_first pat s =
    if String.prefix pat s then drop_chars (String.length pat) s
    else match s with
         | EmptyString => EmptyString
         | String c s' => String c (remove_first pat s')
         end.
Proof. destruct s; reflexivity. Qed.

Lemma remove_first_html_suffix (name : string) :
  has_char "." name = false ->
  remove_first ".html" (name ++ ".html") = name.
Proof.
  induction name as [| c name IH]; intros H.
  - reflexivity.
  - rewrite has_char_cons in H. apply orb_false_iff in H. destruct H as [Hc Hn].
    change ((String c name ++ ".html")%string)
      with (String c (name ++ ".html")%string).
    rewrite remove_first_unfold.
    assert (Hp : String.prefix ".html" (String c (name ++ ".html")) = false).
    { change (String.prefix ".html" (String c (name ++ ".html")))
        with (if ascii_dec "." c
              then String.prefix "html" (name ++ ".html") else false).
      destruct (ascii_dec "." c) as [<- | _]; [| reflexivity].
      rewrite Ascii.eqb_refl in Hc. discriminate Hc. }
    rewrite Hp, (IH Hn). reflexivity.
Qed.

Lemma drop_chars_no_slash (n : nat) (s : string) :
  has_char "/" s = false -> has_char "/" (drop_chars n s) = false.
Proof.
  revert s. induction n as [| n IH]; intros s H; [exact H |].
  destruct s as [| c s]; [reflexivity |].
  rewrite has_char_cons in H. apply orb_false_iff in H.
  change (drop_chars (S n) (String c s)) with (drop_chars n s).
  apply IH. apply H.
Qed.

Lemma remove_first_no_slash (pat s : string) :
  has_char "/" s = false -> has_char "/" (remove_first pat s) = false.
Proof.
  induction s as [| c s IH]; intros H; rewrite remove_first_unfold.
  - destruct (String.prefix pat EmptyString); [| reflexivity].
    apply drop_chars_no_slash. reflexivity.
  - destruct (String.prefix pat (String c s)).
    + apply drop_chars_no_slash. exact H.
    + rewrite has_char_cons in *. apply orb_false_iff in H.
      destruct H as [Hc Hs]. rewrite Hc. apply IH. exact Hs.
Qed.

Lemma or_default_no_slash (s d : string) :
  has_char "/" s = false -> has_char "/" d = false ->
  has_char "/" (or_default (Some s) d) = false.
Proof. intros Hs Hd. destruct s; simpl; assumption. Qed.

(** X4: for a path whose last segment is [name.html], where [name] is
    non-empty and contains neither '/' nor '.', the current page is [name],
    whatever the directories before it; a path that ends in '/' gives
    'index'. *)
Theorem getCurrentPage_stem (dir name : string) :
  name <> EmptyString ->
  has_char "/" name = false ->
  has_char "." name = false ->
  getCurrentPage (dir ++ String "/" (name ++ ".html")) = name /\
  getCurrentPage (dir ++ String "/" EmptyString) = "index".
Proof.
  intros Hne Hslash Hdot. unfold getCurrentPage. split.
  - rewrite last_segment_after_slash.
    rewrite last_segment_without_slash.
    2:{ rewrite has_char_app, Hslash. reflexivity. }
    change (EmptyString ++ (name ++ ".html"))%string with (name ++ ".html")%string.
    assert (E : or_default (Some (name ++ ".html")%string) "index.html"
                = (name ++ ".html")%string).
    { destruct name; [contradiction | reflexivity]. }
    rewrite E, (remove_first_html_suffix name Hdot).
    destruct name; [contradiction | reflexivity].
  - rewrite last_segment_after_slash. reflexivity.
Qed.

Lemma getCurrentPage_stem_witness :
  getCurrentPage ("/site/pages" ++ String "/" ("research" ++ ".html")) = "research".
Proof.
  apply (proj1 (getCurrentPage_stem "/site/pages" "research"
                  ltac:(discriminate) eq_refl eq_refl)).
Defined.

(** X5: whatever the path, the current page is a non-empty string without
    '/'. *)
Theorem getCurrentPage_is_a_name (path : string) :
  getCurrentPage path <> EmptyString /\
  has_char "/" (getCurrentPage path) = false.
Proof.
  unfold getCurrentPage. split.
  - destruct (remove_first ".html" _); discriminate.
  - apply or_default_no_slash; [| reflexivity].
    apply remove_first_no_slash.
    apply or_default_no_slash; [| reflexivity].
    apply last_segment_no_slash. reflexivity.
Qed.

(** ** Class lists *)

Lemma has_class_remove_other (c c' : string) (cl : list string) :
  c <> c' -> has_class c (classList_remove c' cl) = has_class c cl.
Proof.
  intros Hne. unfold has_class, classList_remove.
  induction cl as [| x cl IH]; [reflexivity |]. simpl.
  destruct (String.eqb_spec c' x) as [<- | Hx]; simpl.
  - destruct (String.eqb_spec c c') as [-> | _]; [contradiction | exact IH].
  - rewrite IH. reflexivity.
Qed.

Lemma classList_remove_absent (c : string) (cl : list string) :
  has_class c cl = false -> classList_remove c cl = cl.
Proof.
  unfold has_class, classList_remove.
  induction cl as [| x cl IH]; intros H; [reflexivity |]. simpl in *.
  apply orb_false_iff in H. destruct H as [Hx Hcl].
  rewrite Hx. simpl. rewrite (IH Hcl). reflexivity.
Qed.

Lemma classList_remove_add_same (c : string) (cl : list string) :
  has_class c cl = false -> classList_remove c (classList_add c cl) = cl.
Proof.
  intros H. unfold classList_add. rewrite H.
  unfold classList_remove. rewrite List.filter_app. simpl.
  rewrite String.eqb_refl. simpl. rewrite app_nil_r.
  apply classList_remove_absent. exact H.
Qed.

Lemma classList_remove_idempotent (c : string) (cl : list string) :
  classList_remove c (classList_remove c cl) = classList_remove c cl.
Proof. apply classList_remove_absent. apply has_class_remove_same. Qed.

(** ** Active navigation link *)

(** What [updateActiveNavLink] does to one link. *)
Lemma mark_link_twice (page : string) (l : NavLink) :
  let mark (link : NavLink) :=
    let cl := classList_remove "active" (link_classes link) in
    match data_page link with
    | Some pg =>
        if String.eqb pg page
        then set_link_classes (classList_add "active" cl) link
        else set_link_classes cl link
    | None => set_link_classes cl link
    end in
  mark (mark l) = mark l.
Proof.
  intros mark. subst mark. cbv beta.
  destruct l as [h [pg |] cl]; simpl.
  - destruct (String.eqb pg page) eqn:E; simpl; rewrite E;
      unfold set_link_classes; simpl; f_equal.
    + rewrite classList_remove_add_same by apply has_class_remove_same.
      reflexivity.
    + apply classList_remove_idempotent.
  - unfold set_link_classes; simpl; f_equal. apply classList_remove_idempotent.
Qed.

(** X6: [updateActiveNavLink] never throws and keeps the links, their
    [href] and [data-page] and every class other than [active]; afterwards
    a link carries [active] exactly when its [data-page] is the current
    page; applying it again changes nothing. *)
Theorem updateActiveNavLink_marks_current (p : Page) :
  let p' := fst (updateActiveNavLink p) in
  snd (updateActiveNavLink p) = Normal tt /\
  length (nav_links (document p')) = length (nav_links (document p)) /\
  (forall i l, nth_error (nav_links (document p)) i = Some l ->
     exists l', nth_error (nav_links (document p')) i = Some l' /\
       href l' = href l /\ data_page l' = data_page l /\
       (has_class "active" (link_classes l') = true
        <-> data_page l = Some (currentPage (this p))) /\
       (forall c, c <> "active" ->
          has_class c (link_classes l') = has_class c (link_classes l))) /\
  fst (updateActiveNavLink p') = p'.
Proof.
  intros p'. subst p'.
  unfold updateActiveNavLink, update_document, modify. simpl.
  split; [reflexivity |].
  split; [apply length_map |].
  split.
  - intros i l Hl. eexists. split; [apply map_nth_error; exact Hl |].
    destruct l as [h [pg |] cl]; simpl.
    + destruct (String.eqb_spec pg (currentPage (this p))) as [-> | Hne]; simpl.
      * split; [reflexivity |]. split; [reflexivity |]. split.
        { rewrite has_class_add_same. split; reflexivity. }
        intros c Hc. rewrite has_class_add_other by exact Hc.
        apply has_class_remove_other. exact Hc.
      * split; [reflexivity |]. split; [reflexivity |]. split.
        { rewrite has_class_remove_same. split; [discriminate |].
          intros H. injection H as ->. contradiction. }
        intros c Hc. apply has_class_remove_other. exact Hc.
    + split; [reflexivity |]. split; [reflexivity |]. split.
      { rewrite has_class_remove_same. split; discriminate. }
      intros c Hc. apply has_class_remove_other. exact Hc.
  - unfold with_document, set_nav_links. simpl. f_equal. f_equal.
    rewrite map_map. apply map_ext. intros l.
    apply (mark_link_twice (currentPage (this p)) l).
Qed.

(** ** Navbar scroll listener *)

Lemma updateNavbar_with_navbar (p : Page) (cl : list string) (y : Q) :
  main_navbar (document p) = Some cl ->
  exists cl',
    updateNavbar y p
      = (with_document (set_main_navbar (Some cl') (document p)) p, Normal tt) /\
    has_class "scrolled" cl' = Qgtb y 100 /\
    (forall c, c <> "scrolled" -> has_class c cl' = has_class c cl).
Proof.
  intros H. unfold updateNavbar, Qgtb. rewrite H.
  destruct (Qlt_le_dec 100 y); eexists; (split; [reflexivity |]); split.
  - apply has_class_add_same.
  - intros c Hc. apply has_class_add_other. exact Hc.
  - apply has_class_remove_same.
  - intros c Hc. apply has_class_remove_other. exact Hc.
Qed.

(** With the navbar in the document: frames are pending exactly while
    [ticking] holds, and there is never more than one; nothing throws. *)
Lemma navbar_coalescing_invariant (inputs : list ScrollInput) (s : NavbarScroll) :
  is_Some (main_navbar (document (nav_page s))) ->
  frames s = (if ticking s then 1 else 0)%nat ->
  uncaught s = 0%nat ->
  let s' := navbarRun inputs s in
  is_Some (main_navbar (document (nav_page s'))) /\
  frames s' = (if ticking s' then 1 else 0)%nat /\
  uncaught s' = 0%nat.
Proof.
  revert s. induction inputs as [| i inputs IH]; intros s Hnav Hfr Hun.
  - simpl. auto.
  - simpl. apply IH.
    + destruct i as [| y]; simpl.
      * unfold onNavbarScroll. destruct (ticking s); exact Hnav.
      * unfold onNavbarFrame. destruct (frames s); [exact Hnav |].
        destruct Hnav as [cl Hcl].
        destruct (updateNavbar_with_navbar _ cl y Hcl) as (cl' & -> & _).
        simpl. eexists. reflexivity.
    + destruct i as [| y]; simpl.
      * unfold onNavbarScroll. destruct (ticking s) eqn:E; simpl.
        -- rewrite E. exact Hfr.
        -- rewrite Hfr. reflexivity.
      * unfold onNavbarFrame.
        destruct (frames s) as [| n] eqn:E; [rewrite E; exact Hfr |].
        destruct Hnav as [cl Hcl].
        destruct (updateNavbar_with_navbar _ cl y Hcl) as (cl' & -> & _).
        simpl. destruct (ticking s); [injection Hfr as -> | discriminate].
        reflexivity.
    + destruct i as [| y]; simpl.
      * unfold onNavbarScroll. destruct (ticking s); exact Hun.
      * unfold onNavbarFrame. destruct (frames s); [exact Hun |].
        destruct Hnav as [cl Hcl].
        destruct (updateNavbar_with_navbar _ cl y Hcl) as (cl' & -> & _).
        exact Hun.
Qed.

(** X7: on a page with [#main-navbar], however scroll events and animation
    frames interleave, at most one frame callback is pending (one exactly
    while [ticking] holds) and nothing throws; a scroll event leaves a frame
    pending, and the frame that then runs at scroll offset [y] leaves the
    navbar with the class [scrolled] exactly when [y > 100], keeps its other
    classes, and clears [ticking]. *)
Theorem navbar_scroll_coalesced (p : Page) (cl : list string) (y0 y : Q)
    (inputs : list ScrollInput) :
  main_navbar (document p) = Some cl ->
  let s := navbarRun inputs (navbarStart p y0) in
  let s1 := onNavbarScroll s in
  let s2 := onNavbarFrame y s1 in
  (frames s <= 1)%nat /\ uncaught s = 0%nat /\
  frames s1 = 1%nat /\ ticking s1 = true /\
  frames s2 = 0%nat /\ ticking s2 = false /\ lastScrollY s2 = y /\
  uncaught s2 = 0%nat /\
  exists cl1 cl2,
    main_navbar (document (nav_page s1)) = Some cl1 /\
    main_navbar (document (nav_page s2)) = Some cl2 /\
    has_class "scrolled" cl2 = Qgtb y 100 /\
    (forall c, c <> "scrolled" -> has_class c cl2 = has_class c cl1).
Proof.
  intros Hnav s s1 s2.
  destruct (navbar_coalescing_invariant inputs (navbarStart p y0))
    as ([cl1 Hcl1] & Hfr & Hun); [eexists; exact Hnav | reflexivity | reflexivity |].
  fold s in Hcl1, Hfr, Hun.
  assert (H1 : frames s1 = 1%nat /\ ticking s1 = true /\
               nav_page s1 = nav_page s /\ uncaught s1 = 0%nat).
  { subst s1. unfold onNavbarScroll. destruct (ticking s) eqn:E; simpl.
    - rewrite E. auto.
    - rewrite Hfr. auto. }
  destruct H1 as (F1 & T1 & P1 & U1).
  destruct (updateNavbar_with_navbar (nav_page s1) cl1 y) as (cl2 & E2 & Hs & Ho).
  { rewrite P1. exact Hcl1. }
  assert (S2 : s2 = mkNavbarScroll
                     (with_document (set_main_navbar (Some cl2)
                                       (document (nav_page s1))) (nav_page s1))
                     y false 0 0).
  { subst s2. unfold onNavbarFrame. rewrite F1, E2, U1. reflexivity. }
  split; [rewrite Hfr; destruct (ticking s); lia |].
  split; [exact Hun |].
  split; [exact F1 |]. split; [exact T1 |].
  rewrite S2. simpl.
  split; [reflexivity |]. split; [reflexivity |]. split; [reflexivity |].
  split; [reflexivity |].
  exists cl1, cl2. rewrite P1. auto.
Qed.

Lemma navbar_scroll_coalesced_witness :
  let p := page_of (storage_with None) full_document in
  let s := navbarRun [ScrollFired; ScrollFired; FrameRun 50; ScrollFired]
             (navbarStart p 0) in
  (frames s <= 1)%nat /\ uncaught s = 0%nat.
Proof.
  intros p s.
  destruct (navbar_scroll_coalesced p ["navbar"] 0 150
              [ScrollFired; ScrollFired; FrameRun 50; ScrollFired] eq_refl)
    as (H1 & H2 & _).
  split; [exact H1 | exact H2].
Defined.

(** X8: on a page without [#main-navbar] the first animation frame throws
    before it resets [ticking]; from then on scroll events request no
    frame.  However long the user scrolls, at most one frame is requested
    and at most one exception is raised, and the page is left as it was. *)
Theorem navbar_missing_throws_once (p : Page) (y0 : Q) (inputs : list ScrollInput) :
  main_navbar (document p) = None ->
  let s := navbarRun inputs (navbarStart p y0) in
  nav_page s = p /\
  ((ticking s = false /\ frames s = 0 /\ uncaught s = 0) \/
   (ticking s = true /\ frames s = 1 /\ uncaught s = 0) \/
   (ticking s = true /\ frames s = 0 /\ uncaught s = 1))%nat.
Proof.
  intros Hnav s. subst s.
  assert (G : forall s0,
    nav_page s0 = p ->
    ((ticking s0 = false /\ frames s0 = 0 /\ uncaught s0 = 0) \/
     (ticking s0 = true /\ frames s0 = 1 /\ uncaught s0 = 0) \/
     (ticking s0 = true /\ frames s0 = 0 /\ uncaught s0 = 1))%nat ->
    nav_page (navbarRun inputs s0) = p /\
    ((ticking (navbarRun inputs s0) = false /\ frames (navbarRun inputs s0) = 0
      /\ uncaught (navbarRun inputs s0) = 0) \/
     (ticking (navbarRun inputs s0) = true /\ frames (navbarRun inputs s0) = 1
      /\ uncaught (navbarRun inputs s0) = 0) \/
     (ticking (navbarRun inputs s0) = true /\ frames (navbarRun inputs s0) = 0
      /\ uncaught (navbarRun inputs s0) = 1))%nat).
  { induction inputs as [| i inputs IH]; intros s0 Hp Hst; [simpl; auto |].
    simpl. destruct i as [| y]; simpl.
    - unfold onNavbarScroll.
      destruct Hst as [(T & F & U) | [(T & F & U) | (T & F & U)]]; rewrite T;
        apply IH; simpl; auto.
      right. left. rewrite F, U. auto.
    - unfold onNavbarFrame.
      destruct Hst as [(T & F & U) | [(T & F & U) | (T & F & U)]]; rewrite F;
        try (apply IH; auto; fail).
      rewrite Hp, (updateNavbar_without_navbar p y Hnav).
      apply IH; simpl; auto. right. right. rewrite T, U. auto. }
  apply G; [reflexivity | left; auto].
Qed.

Lemma navbar_missing_throws_once_witness :
  let p := page_of (storage_with None) bare_document in
  let s := navbarRun [ScrollFired; FrameRun 150; ScrollFired; ScrollFired]
             (navbarStart p 0) in
  ticking s = true /\ frames s = 0%nat /\ uncaught s = 1%nat.
Proof.
  intros p s.
  destruct (navbar_missing_throws_once p 0
              [ScrollFired; FrameRun 150; ScrollFired; ScrollFired] eq_refl)
    as (_ & [(T & _) | [(_ & F & _) | H]]).
  - vm_compute in T. discriminate T.
  - vm_compute in F. discriminate F.
  - exact H.
Defined.

(** ** Scroll-to-top button *)

Lemma onScrollToTopScroll_step (y : Q) (b : ScrollButton) :
  has_class "visible" (button_classes b) = isVisible b ->
  let b' := onScrollToTopScroll y b in
  has_class "visible" (button_classes b') = isVisible b' /\
  isVisible b' = Qgtb y 400 /\
  (forall c, c <> "visible" ->
     has_class c (button_classes b') = has_class c (button_classes b)).
Proof.
  intros H. unfold onScrollToTopScroll.
  destruct (Qgtb y 400), (isVisible b) eqn:E; simpl.
  - rewrite E. auto.
  - split; [apply has_class_add_same |]. split; [reflexivity |].
    intros c Hc. apply has_class_add_other. exact Hc.
  - split; [apply has_class_remove_same |]. split; [reflexivity |].
    intros c Hc. apply has_class_remove_other. exact Hc.
  - rewrite E. auto.
Qed.

(** X9: when [#scroll-to-top] does not carry [visible] in the markup, then
    after any sequence of scroll events the button carries [visible] exactly
    when the closure flag [isVisible] holds, which is exactly when the last
    scroll offset was above 400; its other classes are never touched. *)
Theorem scroll_to_top_tracks_offset (cl : list string) (ys : list Q) :
  has_class "visible" cl = false ->
  let b := scrollToTopRun ys (mkScrollButton cl false) in
  has_class "visible" (button_classes b) = isVisible b /\
  (forall c, c <> "visible" -> has_class c (button_classes b) = has_class c cl) /\
  (forall ys' y, ys = (ys' ++ [y])%list -> isVisible b = Qgtb y 400).
Proof.
  intros Hcl.
  assert (G : forall ys b0,
    has_class "visible" (button_classes b0) = isVisible b0 ->
    has_class "visible" (button_classes (scrollToTopRun ys b0))
      = isVisible (scrollToTopRun ys b0) /\
    (forall c, c <> "visible" ->
       has_class c (button_classes (scrollToTopRun ys b0))
         = has_class c (button_classes b0)) /\
    (forall ys' y, ys = (ys' ++ [y])%list ->
       isVisible (scrollToTopRun ys b0) = Qgtb y 400)).
  { clear ys. intros ys. induction ys as [| y0 ys IH] using rev_ind; intros b0 H0.
    - simpl. split; [exact H0 |]. split; [reflexivity |].
      intros ys' y E. destruct ys'; discriminate E.
    - unfold scrollToTopRun in *. rewrite fold_left_app. simpl.
      destruct (IH b0 H0) as (I1 & I2 & _).
      destruct (onScrollToTopScroll_step y0 _ I1) as (J1 & J2 & J3).
      split; [exact J1 |]. split.
      + intros c Hc. rewrite (J3 c Hc). apply I2. exact Hc.
      + intros ys' y E. apply app_inj_tail in E. destruct E as [_ <-]. exact J2. }
  intros b. apply G. exact Hcl.
Qed.

Lemma scroll_to_top_tracks_offset_witness :
  let b := scrollToTopRun [500%Q; 450%Q; 100%Q] (mkScrollButton ["btn"] false) in
  has_class "visible" (button_classes b) = isVisible b /\ isVisible b = false.
Proof.
  intros b.
  destruct (scroll_to_top_tracks_offset ["btn"] [500%Q; 450%Q; 100%Q] eq_refl)
    as (H1 & _ & H3).
  split; [exact H1 |]. exact (H3 [500%Q; 450%Q] 100%Q eq_refl).
Defined.

(** ** Button ripples *)

(** X10: the ripple that [addButtonRipple] appends is a square whose side
    is the larger dimension of the button, so it covers neither less than
    the width nor less than the height; in exact arithmetic its centre is
    the click point relative to the button, or the centre of the button
    when there is no event.  The button ends with [overflow: hidden] and a
    position other than [static]. *)
Theorem ripple_geometry (A : Arith) (e : option (Q * Q)) (w : RippleWorld) :
  let rect := bounds (ripple_button w) in
  let size := Qmax (rect_width rect) (rect_height rect) in
  let b := ripple_button (addButtonRipple A e w) in
  exists x y xe ye,
    ripples b
      = (ripples (ripple_button w) ++ [mkRippleSpan (spans_created w) x y size])%list /\
    ripples (ripple_button (addButtonRipple exact_arith e w))
      = (ripples (ripple_button w)
         ++ [mkRippleSpan (spans_created w) xe ye size])%list /\
    (rect_width rect <= size)%Q /\ (rect_height rect <= size)%Q /\
    (xe + size / 2 ==
       match e with
       | Some (clientX, _) => clientX - rect_left rect
       | None => rect_width rect / 2
       end)%Q /\
    (ye + size / 2 ==
       match e with
       | Some (_, clientY) => clientY - rect_top rect
       | None => rect_height rect / 2
       end)%Q /\
    overflow b = "hidden" /\ position b <> "static".
Proof.
  intros rect size b. subst b. unfold addButtonRipple. fold rect. fold size.
  do 4 eexists.
  split; [reflexivity |]. split; [reflexivity |].
  split; [apply Q.le_max_l |]. split; [apply Q.le_max_r |].
  split; [destruct e as [[cx cy] |]; simpl; ring |].
  split; [destruct e as [[cx cy] |]; simpl; ring |].
  split; [reflexivity |].
  simpl. destruct (String.eqb_spec (position (ripple_button w)) "static") as [_ | H].
  - discriminate.
  - exact H.
Qed.

Lemma filter_out_nth {X : Type} (f : X -> nat) (l : list X) (i a : nat) :
  List.NoDup (List.map f l) ->
  nth_error (List.map f l) i = Some a ->
  List.map f (List.filter (fun x => negb (Nat.eqb (f x) a)) l)
    = (firstn i (List.map f l) ++ skipn (S i) (List.map f l))%list.
Proof.
  revert i. induction l as [| x l IH]; intros i Hnd Hi.
  - destruct i; discriminate Hi.
  - simpl in Hnd. apply List.NoDup_cons_iff in Hnd. destruct Hnd as [Hx Hnd].
    destruct i as [| i]; simpl in *.
    + injection Hi as <-. rewrite Nat.eqb_refl. simpl.
      clear IH. induction l as [| z l IHl]; [reflexivity |].
      simpl in *. apply List.NoDup_cons_iff in Hnd. destruct Hnd as [_ Hnd].
      destruct (Nat.eqb_spec (f z) (f x)) as [E | _].
      * exfalso. apply Hx. left. exact E.
      * simpl. f_equal. apply IHl; [| exact Hnd].
        intros Hin. apply Hx. right. exact Hin.
    + destruct (Nat.eqb_spec (f x) a) as [E | _].
      * exfalso. apply Hx. subst a. apply nth_error_In in Hi. exact Hi.
      * simpl. f_equal. apply IH; assumption.
Qed.

Lemma ripple_invariant_step (A : Arith) (w : RippleWorld) (i : RippleInput) :
  ripple_invariant w -> ripple_invariant (rippleReact A w i).
Proof.
  intros (Hids & Hnd & Hfresh & Hdue). destruct i as [e | dt | i]; simpl.
  - unfold addButtonRipple, ripple_invariant. simpl.
    rewrite !List.map_app, Hids. simpl.
    split; [reflexivity |]. split.
    { apply List.NoDup_app; [exact Hnd | apply List.NoDup_cons;
        [intros [] | apply List.NoDup_nil] |].
      intros a Ha [<- | []].
      apply in_map_iff in Ha. destruct Ha as (r & Hr & Hin).
      rewrite List.Forall_forall in Hfresh. specialize (Hfresh r Hin).
      rewrite Hr in Hfresh. exact (Nat.lt_irrefl _ Hfresh). }
    split.
    { apply Forall_app. split.
      - eapply Forall_impl; [exact Hfresh |]. intros r Hr. simpl in *. lia.
      - constructor; [simpl; lia | constructor]. }
    apply Forall_app. split; [exact Hdue |].
    constructor; [simpl; lia | constructor].
  - unfold ripple_invariant. simpl.
    split; [exact Hids |]. split; [exact Hnd |]. split; [exact Hfresh |].
    eapply Forall_impl; [exact Hdue |]. intros r Hr. simpl in *. lia.
  - destruct (nth_error (removals w) i) as [[due id] |] eqn:E;
      [| repeat split; assumption].
    destruct (due <=? ripple_now w); [| repeat split; assumption].
    assert (Emap : nth_error (List.map snd (removals w)) i = Some id)
      by (rewrite nth_error_map, E; reflexivity).
    unfold ripple_invariant. simpl.
    pose proof (firstn_skipn_middle i (removals w) E) as Hmid.
    assert (Hsub : forall r, In r (firstn i (removals w) ++ skipn (S i) (removals w))
                             -> In r (removals w)).
    { intros r Hr. rewrite <- Hmid. apply in_app_or in Hr. apply in_or_app.
      destruct Hr as [Hr | Hr]; [left | right; right]; exact Hr. }
    split.
    { rewrite List.map_app, <- firstn_map, <- skipn_map, <- Hids.
      apply filter_out_nth; rewrite Hids; assumption. }
    split.
    { rewrite <- Hmid, List.map_app in Hnd. simpl in Hnd.
      apply List.NoDup_remove_1 in Hnd. rewrite List.map_app. exact Hnd. }
    split.
    { rewrite List.Forall_forall in *. intros r Hr. apply Hfresh, Hsub, Hr. }
    rewrite List.Forall_forall in *. intros r Hr. apply Hdue, Hsub, Hr.
Qed.

Lemma ripple_invariant_run (A : Arith) (inputs : list RippleInput) (w : RippleWorld) :
  ripple_invariant w -> ripple_invariant (rippleRun A inputs w).
Proof.
  revert w. induction inputs as [| i inputs IH]; intros w H; [exact H |].
  simpl. apply IH. apply ripple_invariant_step. exact H.
Qed.

(** Firing the first pending timer as many times as there are timers, once
    all of them are due, empties the button. *)
Lemma ripple_drain (A : Arith) (n : nat) (w : RippleWorld) :
  ripple_invariant w ->
  Forall (fun r => fst r <= ripple_now w) (removals w) ->
  length (removals w) = n ->
  ripples (ripple_button (rippleRun A (repeat (RippleTimer 0) n) w)) = [] /\
  removals (rippleRun A (repeat (RippleTimer 0) n) w) = [].
Proof.
  revert w. induction n as [| n IH]; intros w Hinv Hdue Hlen.
  - simpl. destruct Hinv as (Hids & _).
    destruct (removals w); [| discriminate Hlen]. simpl in Hids.
    apply map_eq_nil in Hids. auto.
  - destruct (removals w) as [| [due id] rs] eqn:E; [discriminate Hlen |].
    assert (Hstep := ripple_invariant_step A w (RippleTimer 0) Hinv).
    inversion Hdue as [| ? ? Hd Hrest]; subst. simpl in Hd.
    assert (Ew : rippleReact A w (RippleTimer 0)
                 = mkRippleWorld (removeRipple id (ripple_button w))
                     (ripple_now w) rs (spans_created w)).
    { simpl. rewrite E. simpl.
      destruct (Z.leb_spec due (ripple_now w)) as [_ | Hlt]; [reflexivity | lia]. }
    change (rippleRun A (repeat (RippleTimer 0) (S n)) w)
      with (rippleRun A (repeat (RippleTimer 0) n) (rippleReact A w (RippleTimer 0))).
    rewrite Ew in *. apply IH.
    + exact Hstep.
    + exact Hrest.
    + simpl in *. lia.
Qed.

(** X11: ripples do not accumulate.  From a button without ripples,
    whatever the sequence of clicks, elapsed time and fired timers, the
    ripples in the button are exactly those whose removal is still pending
    (same elements, same order), and every removal is due at most 600 ms
    from now; so once 600 ms have passed and the pending timers have fired,
    no ripple is left. *)
Theorem ripples_do_not_leak (A : Arith) (b0 : RippleButton) (t0 : Z)
    (inputs : list RippleInput) :
  ripples b0 = [] ->
  let w := rippleRun A inputs (mkRippleWorld b0 t0 [] 0) in
  List.map ripple_id (ripples (ripple_button w)) = List.map snd (removals w) /\
  Forall (fun r => fst r <= ripple_now w + 600) (removals w) /\
  let w' := rippleRun A
              (RippleElapse 600 :: repeat (RippleTimer 0) (length (removals w))) w in
  ripples (ripple_button w') = [] /\ removals w' = [].
Proof.
  intros Hb w.
  assert (Hinv : ripple_invariant w).
  { apply ripple_invariant_run. unfold ripple_invariant. simpl. rewrite Hb.
    split; [reflexivity |]. split; [apply List.NoDup_nil |]. split; constructor. }
  split; [apply Hinv |]. split; [apply Hinv |].
  cbv zeta. change (rippleRun A (RippleElapse 600 :: ?l) w)
    with (rippleRun A l (rippleReact A w (RippleElapse 600))).
  apply ripple_drain.
  - apply ripple_invariant_step. exact Hinv.
  - destruct Hinv as (_ & _ & _ & Hdue). simpl. exact Hdue.
  - reflexivity.
Qed.

Lemma ripples_do_not_leak_witness :
  let b0 := mkRippleButton (mkRect 10 10 120 40) "static" EmptyString [] in
  let w := rippleRun exact_arith
             [RippleClick (Some (30%Q, 20%Q)); RippleElapse 100; RippleClick None;
              RippleElapse 550; RippleTimer 0]
             (mkRippleWorld b0 0 [] 0) in
  List.map ripple_id (ripples (ripple_button w)) = List.map snd (removals w).
Proof.
  intros b0 w.
  exact (proj1 (ripples_do_not_leak exact_arith b0 0
                  [RippleClick (Some (30%Q, 20%Q)); RippleElapse 100;
                   RippleClick None; RippleElapse 550; RippleTimer 0] eq_refl)).
Defined.

(** ** Card tilt *)

(** X12: on a viewport wider than 768 px and with the pointer inside the
    card, the tilt angles are, in exact arithmetic, at most a twentieth of
    the card's height (about the x axis) and of its width (about the y
    axis) in absolute value, and both vanish at the centre of the card; on
    a viewport of at most 768 px the listener writes nothing. *)
Theorem tilt_bounded (A : Arith) (innerWidth : Q) (rect : Rect) (clientX clientY : Q) :
  (rect_left rect <= clientX)%Q ->
  (clientX <= rect_left rect + rect_width rect)%Q ->
  (rect_top rect <= clientY)%Q ->
  (clientY <= rect_top rect + rect_height rect)%Q ->
  ((innerWidth <= 768)%Q -> tilt A innerWidth rect clientX clientY = None) /\
  ((768 < innerWidth)%Q ->
   exists rx ry,
     tilt exact_arith innerWidth rect clientX clientY = Some (rx, ry) /\
     (- (rect_height rect / 20) <= rx)%Q /\ (rx <= rect_height rect / 20)%Q /\
     (- (rect_width rect / 20) <= ry)%Q /\ (ry <= rect_width rect / 20)%Q /\
     ((clientY == rect_top rect + rect_height rect / 2)%Q -> (rx == 0)%Q) /\
     ((clientX == rect_left rect + rect_width rect / 2)%Q -> (ry == 0)%Q)).
Proof.
  intros Hx0 Hx1 Hy0 Hy1. split.
  - intros Hw. unfold tilt, Qgtb.
    destruct (Qlt_le_dec 768 innerWidth) as [Hlt | _]; [| reflexivity].
    exfalso. exact (Qlt_not_le _ _ Hlt Hw).
  - intros Hw. unfold tilt, Qgtb.
    destruct (Qlt_le_dec 768 innerWidth) as [_ | Hle];
      [| exfalso; exact (Qlt_not_le _ _ Hw Hle)].
    do 2 eexists. split; [reflexivity |]. simpl.
    unfold Qdiv. change (/ 20)%Q with (1 # 20)%Q. change (/ 10)%Q with (1 # 10)%Q.
    change (/ 2)%Q with (1 # 2)%Q.
    repeat split; lra.
Qed.

Lemma tilt_bounded_witness :
  exists rx ry,
    tilt exact_arith 1024 (mkRect 100 50 300 200) 400 50 = Some (rx, ry) /\
    (- (200 / 20) <= rx)%Q /\ (rx <= 200 / 20)%Q /\
    (- (300 / 20) <= ry)%Q /\ (ry <= 300 / 20)%Q.
Proof.
  destruct (proj2 (tilt_bounded exact_arith 1024 (mkRect 100 50 300 200) 400 50
                     ltac:(discriminate) ltac:(discriminate)
                     ltac:(discriminate) ltac:(discriminate)) eq_refl)
    as (rx & ry & H & B1 & B2 & B3 & B4 & _).
  exists rx, ry. repeat split; assumption.
Defined.

(** ** Form validation *)

(** X13: [validateField] touches no class of the container other than
    [valid] and [invalid], leaves the field itself alone, and validating a
    field that has just been validated gives the same container and the
    same result. *)
Theorem validateField_idempotent (field : Field) :
  let field' := fst (validateField field) in
  validateField field' = validateField field /\
  value field' = value field /\ required field' = required field /\
  type field' = type field /\
  (forall c, c <> "valid" -> c <> "invalid" ->
     has_class c (container field') = has_class c (container field)).
Proof.
  intros field'. subst field'.
  destruct (cleared_has_neither (container field)) as [Hv Hi].
  set (cleared := classList_remove "invalid"
                    (classList_remove "valid" (container field))) in *.
  assert (Hother : forall c, c <> "valid" -> c <> "invalid" ->
                     has_class c cleared = has_class c (container field)).
  { intros c H1 H2. subst cleared.
    rewrite has_class_remove_other by exact H2.
    apply has_class_remove_other. exact H1. }
  assert (C1 : classList_remove "invalid"
                 (classList_remove "valid" (classList_add "invalid" cleared))
               = cleared).
  { rewrite (classList_remove_absent "valid").
    - apply classList_remove_add_same. exact Hi.
    - rewrite has_class_add_other; [exact Hv | discriminate]. }
  assert (C2 : classList_remove "invalid"
                 (classList_remove "valid" (classList_add "valid" cleared))
               = cleared).
  { rewrite classList_remove_add_same by exact Hv.
    apply classList_remove_absent. exact Hi. }
  assert (C3 : classList_remove "invalid" (classList_remove "valid" cleared)
               = cleared).
  { rewrite (classList_remove_absent "valid") by exact Hv.
    apply classList_remove_absent. exact Hi. }
  unfold validateField. fold cleared. clearbody cleared.
  destruct (required field) eqn:R,
           (is_empty (trim (value field))) eqn:Em,
           (String.eqb (type field) "email") eqn:T,
           (test emailRegex (trim (value field))) eqn:Te;
    simpl; rewrite ?R, ?Em, ?T, ?Te; simpl; rewrite ?C1, ?C2, ?C3;
    (repeat split; try reflexivity;
     intros c H1 H2; rewrite ?has_class_add_other by assumption;
     apply Hother; assumption).
Qed.

Lemma trimStart_split (s : list N) :
  exists sp, s = (sp ++ trimStart s)%list /\ forallb is_space sp = true.
Proof.
  induction s as [| c s (sp & Hs & Hsp)]; [exists []; auto |].
  simpl. destruct (is_space c) eqn:E.
  - exists (c :: sp). simpl. rewrite E, Hsp. split; [f_equal; exact Hs | reflexivity].
  - exists []. auto.
Qed.

Lemma trimStart_head (s : list N) (c : N) (rest : list N) :
  trimStart s = c :: rest -> is_space c = false.
Proof.
  induction s as [| a s IH]; simpl; [discriminate |].
  destruct (is_space a) eqn:E; [exact IH |].
  intros H. injection H as <- _. exact E.
Qed.

Lemma trimStart_fixed (s : list N) :
  (forall c rest, s = c :: rest -> is_space c = false) -> trimStart s = s.
Proof.
  destruct s as [| c s]; [reflexivity |]. intros H. simpl.
  rewrite (H c s eq_refl). reflexivity.
Qed.

Lemma trimStart_all_space (s : list N) :
  forallb is_space s = true -> trimStart s = [].
Proof.
  induction s as [| c s IH]; [reflexivity |]. simpl. intros H.
  apply andb_true_iff in H. destruct H as [Hc Hs]. rewrite Hc. exact (IH Hs).
Qed.

Lemma forallb_rev {X : Type} (f : X -> bool) (l : list X) :
  forallb f (rev l) = forallb f l.
Proof.
  induction l as [| x l IH]; [reflexivity |]. simpl.
  rewrite forallb_app, IH. simpl. rewrite andb_true_r. apply andb_comm.
Qed.

(** X14: [trim] removes a run of whitespace from each end and nothing
    else: the value is whitespace, then the trimmed value, then whitespace;
    the trimmed value neither starts nor ends with whitespace; it is empty
    exactly when the value is all whitespace; trimming twice is trimming
    once. *)
Theorem trim_strips_both_ends (s : list N) :
  (exists pre post,
     s = (pre ++ trim s ++ post)%list /\
     forallb is_space pre = true /\ forallb is_space post = true) /\
  (forall c rest, trim s = c :: rest -> is_space c = false) /\
  (forall front c, trim s = (front ++ [c])%list -> is_space c = false) /\
  (trim s = [] <-> forallb is_space s = true) /\
  trim (trim s) = trim s.
Proof.
  unfold trim.
  destruct (trimStart_split s) as (sp1 & Hs & Hsp1).
  destruct (trimStart_split (rev (trimStart s))) as (sp2 & Hr & Hsp2).
  set (u := trimStart (rev (trimStart s))) in *.
  assert (Ht : trimStart s = (rev u ++ rev sp2)%list).
  { rewrite <- (rev_involutive (trimStart s)), Hr, rev_app_distr. reflexivity. }
  assert (Hhead : forall c rest, rev u = c :: rest -> is_space c = false).
  { intros c rest E. apply (trimStart_head s c (rest ++ rev sp2)).
    rewrite Ht, E. reflexivity. }
  assert (Hlast : forall front c, rev u = (front ++ [c])%list -> is_space c = false).
  { intros front c E. apply (trimStart_head (rev (trimStart s)) c (rev front)).
    fold u. rewrite <- (rev_involutive u), E, rev_app_distr. reflexivity. }
  split.
  { exists sp1, (rev sp2). split; [| split].
    - rewrite <- Ht. exact Hs.
    - exact Hsp1.
    - rewrite forallb_rev. exact Hsp2. }
  split; [exact Hhead |]. split; [exact Hlast |]. split.
  { split.
    - intros E. rewrite Hs, Ht, E. simpl.
      rewrite forallb_app, Hsp1, forallb_rev, Hsp2. reflexivity.
    - intros Hall. subst u. rewrite (trimStart_all_space s Hall). reflexivity. }
  rewrite (trimStart_fixed (rev u) Hhead), rev_involutive.
  rewrite (trimStart_fixed u); [reflexivity |].
  intros c rest E. apply (Hlast (rev rest) c). rewrite E. reflexivity.
Qed.

(** *** The e-mail pattern *)

Lemma nullable_spec (r : Regex) : nullable r = true <-> Matches r [].
Proof.
  induction r as [| | f | r1 IH1 r2 IH2 | r1 IH1 r2 IH2 | r IH]; simpl.
  - split; [discriminate | intros H; inversion H].
  - split; [intros _; constructor | reflexivity].
  - split; [discriminate | intros H; inversion H].
  - rewrite andb_true_iff, IH1, IH2. split.
    + intros [H1 H2]. exact (MatchSeq r1 r2 [] [] H1 H2).
    + intros H. inversion H; subst.
      match goal with
      | E : (_ ++ _)%list = [] |- _ => apply app_eq_nil in E; destruct E; subst
      end.
      auto.
  - rewrite orb_true_iff, IH1, IH2. split.
    + intros [H | H]; [apply MatchAltL | apply MatchAltR]; exact H.
    + intros H. inversion H; subst; auto.
  - split; [intros _; constructor | reflexivity].
Qed.

Lemma deriv_sound (c : N) (r : Regex) (s : list N) :
  Matches (deriv c r) s -> Matches r (c :: s).
Proof.
  revert s.
  induction r as [| | f | r1 IH1 r2 IH2 | r1 IH1 r2 IH2 | r IH]; intros s H;
    simpl in H.
  - inversion H.
  - inversion H.
  - destruct (f c) eqn:E; inversion H; subst. constructor. exact E.
  - destruct (nullable r1) eqn:En.
    + inversion H as [| | | ? ? ? H1 | ? ? ? H2 | |]; subst.
      * inversion H1 as [| | ? ? s1 s2 Ha Hb | | | |]; subst.
        exact (MatchSeq r1 r2 (c :: s1) s2 (IH1 _ Ha) Hb).
      * apply nullable_spec in En.
        exact (MatchSeq r1 r2 [] (c :: s) En (IH2 _ H2)).
    + inversion H as [| | ? ? s1 s2 Ha Hb | | | |]; subst.
      exact (MatchSeq r1 r2 (c :: s1) s2 (IH1 _ Ha) Hb).
  - inversion H; subst; [apply MatchAltL; auto | apply MatchAltR; auto].
  - inversion H as [| | ? ? s1 s2 Ha Hb | | | |]; subst.
    exact (MatchStarCons r (c :: s1) s2 (IH _ Ha) Hb).
Qed.

Lemma deriv_complete (c : N) (r : Regex) (s0 : list N) :
  Matches r s0 -> forall s, s0 = c :: s -> Matches (deriv c r) s.
Proof.
  induction 1 as [| f a Ha | r1 r2 s1 s2 H1 IH1 H2 IH2 | r1 r2 s0 H IH
                  | r1 r2 s0 H IH | r | r s1 s2 H1 IH1 H2 IH2];
    intros s E; simpl.
  - discriminate E.
  - injection E as -> <-. rewrite Ha. constructor.
  - destruct s1 as [| a s1].
    + simpl in E. subst s2.
      apply nullable_spec in H1. rewrite H1.
      apply MatchAltR. apply IH2. reflexivity.
    + simpl in E. injection E as -> <-.
      destruct (nullable r1).
      * apply MatchAltL. constructor; [apply IH1; reflexivity | exact H2].
      * constructor; [apply IH1; reflexivity | exact H2].
  - apply MatchAltL. apply IH. exact E.
  - apply MatchAltR. apply IH. exact E.
  - discriminate E.
  - destruct s1 as [| a s1].
    + simpl in E. apply IH2. exact E.
    + simpl in E. injection E as -> <-.
      constructor; [apply IH1; reflexivity | exact H2].
Qed.

(** The derivative matcher decides the language of the expression. *)
Lemma test_spec (r : Regex) (s : list N) : test r s = true <-> Matches r s.
Proof.
  unfold test. revert r. induction s as [| c s IH]; intros r; simpl.
  - apply nullable_spec.
  - rewrite IH. split.
    + apply deriv_sound.
    + intros H. exact (deriv_complete c r (c :: s) H s eq_refl).
Qed.

Lemma star_class (f : N -> bool) (s : list N) :
  Matches (Star (Class f)) s <-> forallb f s = true.
Proof.
  split.
  - intros H. remember (Star (Class f)) as r eqn:Er.
    induction H as [| | | | | r | r s1 s2 H1 _ H2 IH2]; try discriminate Er.
    + reflexivity.
    + injection Er as ->. inversion H1; subst. simpl.
      rewrite (IH2 eq_refl). rewrite andb_true_r. assumption.
  - induction s as [| c s IH]; simpl; intros H.
    + constructor.
    + apply andb_true_iff in H. destruct H as [Hc Hs].
      exact (MatchStarCons (Class f) [c] s (MatchClass f c Hc) (IH Hs)).
Qed.

Lemma plus_class (f : N -> bool) (s : list N) :
  Matches (Plus (Class f)) s <-> s <> [] /\ forallb f s = true.
Proof.
  unfold Plus. split.
  - intros H. inversion H as [| | ? ? s1 s2 H1 H2 | | | |]; subst.
    inversion H1; subst. apply star_class in H2. simpl. rewrite H2.
    split; [discriminate | rewrite andb_true_r; assumption].
  - intros [Hne H]. destruct s as [| c s]; [contradiction |].
    simpl in H. apply andb_true_iff in H. destruct H as [Hc Hs].
    apply (MatchSeq (Class f) (Star (Class f)) [c] s).
    + constructor. exact Hc.
    + apply star_class. exact Hs.
Qed.

Lemma class_unit (a : N) (s : list N) :
  Matches (Class (N.eqb a)) s <-> s = [a].
Proof.
  split.
  - intros H. inversion H as [| f c Hc | | | | |]; subst.
    apply N.eqb_eq in Hc. subst. reflexivity.
  - intros ->. constructor. apply N.eqb_refl.
Qed.

(** X15: the e-mail pattern accepts exactly the values of the form
    [local@domain.tail] in which [local], [domain] and [tail] are non-empty
    and contain neither whitespace nor '@' (dots are allowed in all
    three). *)
Theorem emailRegex_accepts (s : list N) :
  test emailRegex s = true <->
  exists local domain tail,
    s = (local ++ [64%N] ++ domain ++ [46%N] ++ tail)%list /\
    address_part local /\ address_part domain /\ address_part tail.
Proof.
  rewrite test_spec. unfold emailRegex. cbv zeta. fold address_unit.
  change (fun c : N => negb (is_space c || (c =? 64)%N)) with address_unit.
  split.
  - intros H.
    inversion H as [| | ? ? a s1 Ha H1 | | | |]; subst.
    inversion H1 as [| | ? ? x s2 Hx H2 | | | |]; subst.
    inversion H2 as [| | ? ? b s3 Hb H3 | | | |]; subst.
    inversion H3 as [| | ? ? y c Hy Hc | | | |]; subst.
    apply class_unit in Hx. apply class_unit in Hy. subst x y.
    apply plus_class in Ha. apply plus_class in Hb. apply plus_class in Hc.
    exists a, b, c. split; [reflexivity |]. repeat split; tauto.
  - intros (a & b & c & -> & Ha & Hb & Hc).
    apply MatchSeq; [apply plus_class; exact Ha |].
    apply (MatchSeq _ _ [64%N]); [apply class_unit; reflexivity |].
    apply MatchSeq; [apply plus_class; exact Hb |].
    apply (MatchSeq _ _ [46%N]); [apply class_unit; reflexivity |].
    apply plus_class. exact Hc.
Qed.

(** ** Debounce and throttle *)

Lemma debounce_calls_keep_log {X : Type} (wait : Z) (burst : list (Z * X))
    (st : Debounced X) :
  delivered (fold_left (debounce_react wait false)
               (List.map (fun c => Invoked (fst c) (snd c)) burst) st)
  = delivered st.
Proof.
  revert st. induction burst as [| c burst IH]; intros st; [reflexivity |].
  change (delivered
            (fold_left (debounce_react wait false)
               (List.map (fun c => Invoked (fst c) (snd c)) burst)
               (debounce_react wait false st (Invoked (fst c) (snd c))))
          = delivered st).
  rewrite IH. reflexivity.
Qed.

Lemma debounce_burst {X : Type} (wait : Z) (burst : list (Z * X))
    (t_last : Z) (a_last : X) (st : Debounced X) :
  debounce_run wait false
    (List.map (fun c => Invoked (fst c) (snd c)) (burst ++ [(t_last, a_last)])) st
  = mkDebounced (Some (t_last + Z.max 0 wait, a_last)) (delivered st).
Proof.
  unfold debounce_run. rewrite List.map_app, fold_left_app. simpl.
  rewrite debounce_calls_keep_log. reflexivity.
Qed.

(** X16: a debounced function (without [immediate]) that is called any
    number of times, the last time at [t_last], calls [func] for none of
    these calls; the timer it leaves cannot run before [t_last + wait], and
    when it runs [func] is called once, with the arguments of the last
    call.  A timer that was pending before the burst is cancelled. *)
Theorem debounce_delivers_last_call {X : Type} (wait : Z) (st : Debounced X)
    (burst : list (Z * X)) (t_last : Z) (a_last : X) (t : Z) :
  t_last + Z.max 0 wait <= t ->
  let st1 := debounce_run wait false
               (List.map (fun c => Invoked (fst c) (snd c))
                         (burst ++ [(t_last, a_last)])) st in
  delivered st1 = delivered st /\
  timeout st1 = Some (t_last + Z.max 0 wait, a_last) /\
  (forall t', t' < t_last + Z.max 0 wait ->
     debounce_react wait false st1 (Expired t') = st1) /\
  debounce_react wait false st1 (Expired t)
    = mkDebounced None (delivered st ++ [(t, a_last)]).
Proof.
  intros Ht st1. subst st1. rewrite debounce_burst. simpl.
  split; [reflexivity |]. split; [reflexivity |]. split.
  - intros t' Ht'.
    destruct (Z.leb_spec (t_last + Z.max 0 wait) t') as [H | _]; [lia | reflexivity].
  - destruct (Z.leb_spec (t_last + Z.max 0 wait) t) as [_ | H]; [reflexivity | lia].
Qed.

Lemma debounce_delivers_last_call_witness :
  debounce_react 250 false
    (debounce_run 250 false
       [Invoked 0 "a"; Invoked 100 "b"; Invoked 180 "c"] (mkDebounced None []))
    (Expired 430)
  = mkDebounced None [(430, "c")].
Proof.
  exact (proj2 (proj2 (proj2
    (debounce_delivers_last_call 250 (mkDebounced None [])
       [(0, "a"); (100, "b")] 180 "c" 430 ltac:(discriminate))))).
Defined.

Lemma spaced_snoc (gap : Z) (ts : list Z) (t : Z) :
  spaced gap ts ->
  (forall L, hd_error (rev ts) = Some L -> L + gap <= t) ->
  spaced gap (ts ++ [t]).
Proof.
  induction ts as [| t1 rest IH]; intros Hs Hl; [exact I |].
  destruct rest as [| t2 rest].
  - simpl. split; [apply Hl; reflexivity | exact I].
  - destruct Hs as [H12 Hs].
    change (spaced gap (t1 :: (t2 :: rest) ++ [t])).
    change (t1 + gap <= t2 /\ spaced gap ((t2 :: rest) ++ [t])).
    split; [exact H12 |]. apply IH; [exact Hs |].
    intros L HL. apply Hl.
    change (rev (t1 :: t2 :: rest)) with (rev (t2 :: rest) ++ [t1])%list.
    destruct (rev (t2 :: rest)) as [| z zs] eqn:E; [discriminate HL | exact HL].
Qed.

Lemma last_time_snoc {X : Type} (l : list (Z * X)) (c : Z * X) :
  hd_error (rev (List.map fst (l ++ [c]))) = Some (fst c).
Proof. rewrite List.map_app, rev_app_distr. reflexivity. Qed.

Lemma debounce_immediate_step {X : Type} (wait now : Z) (st : Debounced X)
    (ev : TimedEvent X) :
  debounce_invariant wait now st ->
  now <= event_time ev ->
  debounce_invariant wait (event_time ev) (debounce_react wait true st ev).
Proof.
  intros [Hs Hl] Hnow. destruct ev as [t a | t]; simpl in *.
  - destruct (timeout st) as [[due a0] |] eqn:E; simpl.
    + split; [exact Hs |]. intros L HL. simpl in *.
      specialize (Hl L HL). lia.
    + split.
      * simpl. rewrite List.map_app. apply spaced_snoc; [exact Hs |].
        intros L HL. specialize (Hl L HL). simpl. lia.
      * intros L HL. simpl in HL. rewrite last_time_snoc in HL.
        injection HL as <-. simpl. lia.
  - destruct (timeout st) as [[due a0] |] eqn:E.
    + destruct (Z.leb_spec due t) as [Hd | Hd]; simpl.
      * split; [exact Hs |]. intros L HL. specialize (Hl L HL). simpl. lia.
      * split; [exact Hs |]. rewrite E. intros L HL. specialize (Hl L HL). lia.
    + split; [exact Hs |]. rewrite E. intros L HL. specialize (Hl L HL). lia.
Qed.

Lemma debounce_immediate_run {X : Type} (wait : Z) (tr : list (TimedEvent X))
    (now : Z) (st : Debounced X) :
  debounce_invariant wait now st ->
  chronological now tr ->
  spaced (Z.max 0 wait) (List.map fst (delivered (debounce_run wait true tr st))).
Proof.
  revert now st. induction tr as [| ev tr IH]; intros now st Hinv Hchr.
  - exact (proj1 Hinv).
  - destruct Hchr as [Hnow Hchr]. simpl.
    apply (IH (event_time ev)); [| exact Hchr].
    apply (debounce_immediate_step wait now); assumption.
Qed.

Lemma debounce_immediate_origin {X : Type} (wait : Z) (tr : list (TimedEvent X))
    (st : Debounced X) (c : Z * X) :
  In c (delivered (debounce_run wait true tr st)) ->
  In c (delivered st) \/ In (Invoked (fst c) (snd c)) tr.
Proof.
  revert st. induction tr as [| ev tr IH]; intros st H; [left; exact H |].
  simpl in H. apply IH in H. destruct H as [H | H]; [| right; right; exact H].
  destruct ev as [t a | t]; simpl in H.
  - destruct (timeout st); simpl in H.
    + left. exact H.
    + apply in_app_or in H. destruct H as [H | [<- | []]].
      * left. exact H.
      * right. left. reflexivity.
  - left. destruct (timeout st) as [[due a0] |]; [| exact H].
    destruct (due <=? t); exact H.
Qed.

(** X17: with [immediate], a debounced function calls [func] only
    synchronously, for a call that was made, at the time and with the
    arguments of that call; for events in the order of their times, two
    successive calls of [func] are at least [wait] apart; and a first call
    goes through at once. *)
Theorem debounce_immediate_spacing {X : Type} (wait t0 : Z)
    (tr : list (TimedEvent X)) :
  chronological t0 tr ->
  let st := debounce_run wait true tr (mkDebounced None []) in
  spaced (Z.max 0 wait) (List.map fst (delivered st)) /\
  (forall c, In c (delivered st) -> In (Invoked (fst c) (snd c)) tr) /\
  (forall t a rest, tr = Invoked t a :: rest ->
     hd_error (delivered st) = Some (t, a)).
Proof.
  intros Hchr st. subst st. split; [| split].
  - apply (debounce_immediate_run wait tr t0); [| exact Hchr].
    split; [exact I |]. intros L HL. discriminate HL.
  - intros c Hc. apply debounce_immediate_origin in Hc.
    destruct Hc as [[] | Hc]. exact Hc.
  - intros t a rest ->. simpl.
    assert (G : forall (tr : list (TimedEvent X)) st x,
              hd_error (delivered st) = Some x ->
              hd_error (delivered (debounce_run wait true tr st)) = Some x).
    { clear. intros tr. induction tr as [| ev tr IH]; intros st x H; [exact H |].
      simpl. apply IH. destruct ev as [t a | t]; simpl.
      - destruct (timeout st); simpl; [exact H |].
        destruct (delivered st); [discriminate H | exact H].
      - destruct (timeout st) as [[due a0] |]; [| exact H].
        destruct (due <=? t); exact H. }
    apply G. reflexivity.
Qed.

Lemma debounce_immediate_spacing_witness :
  spaced (Z.max 0 200)
    (List.map fst
       (delivered (debounce_run 200 true
                     [Invoked 0 "a"; Invoked 50 "b"; Expired 250; Invoked 260 "c"]
                     (mkDebounced None [])))).
Proof.
  apply (proj1 (debounce_immediate_spacing 200 0
                  [Invoked 0 "a"; Invoked 50 "b"; Expired 250; Invoked 260 "c"]
                  ltac:(simpl; lia))).
Defined.

Lemma throttle_step {X : Type} (limit now : Z) (st : Throttled X)
    (ev : TimedEvent X) :
  throttle_invariant limit now st ->
  now <= event_time ev ->
  throttle_invariant limit (event_time ev) (throttle_react limit st ev).
Proof.
  destruct st as [inT rel pas]. unfold throttle_invariant. simpl.
  intros (Hs & Hr & Hl) Hnow. destruct ev as [t a | t]; simpl in *.
  - destruct inT; simpl.
    + split; [exact Hs |]. split; [exact Hr |].
      intros L HL. destruct (Hl L HL) as (H1 & H2 & H3).
      split; [lia |]. split; [discriminate | exact H3].
    + split.
      * rewrite List.map_app. apply spaced_snoc; [exact Hs |].
        intros L HL. destruct (Hl L HL) as (H1 & H2 & H3).
        specialize (H2 eq_refl). simpl. lia.
      * split; [discriminate |]. intros L HL.
        rewrite last_time_snoc in HL. injection HL as <-. simpl.
        split; [lia |]. split; [discriminate |].
        intros due Hd. injection Hd as <-. lia.
  - destruct rel as [due |].
    + destruct (Z.leb_spec due t) as [Hd | Hd]; simpl.
      * split; [exact Hs |]. split; [discriminate |].
        intros L HL. destruct (Hl L HL) as (H1 & H2 & H3).
        specialize (H3 due eq_refl).
        split; [lia |]. split; [lia | discriminate].
      * split; [exact Hs |]. split; [exact Hr |].
        intros L HL. destruct (Hl L HL) as (H1 & H2 & H3).
        split; [lia |]. split; [| exact H3].
        intros Hf. specialize (H2 Hf). lia.
    + split; [exact Hs |]. split; [exact Hr |].
      intros L HL. destruct (Hl L HL) as (H1 & H2 & H3).
      split; [lia |]. split; [| exact H3].
      intros Hf. specialize (H2 Hf). lia.
Qed.

Lemma throttle_run_spaced {X : Type} (limit : Z) (tr : list (TimedEvent X))
    (now : Z) (st : Throttled X) :
  throttle_invariant limit now st ->
  chronological now tr ->
  spaced (Z.max 0 limit) (List.map fst (passed (throttle_run limit tr st))).
Proof.
  revert now st. induction tr as [| ev tr IH]; intros now st Hinv Hchr.
  - exact (proj1 Hinv).
  - destruct Hchr as [Hnow Hchr]. simpl.
    apply (IH (event_time ev)); [| exact Hchr].
    apply (throttle_step limit now); assumption.
Qed.

Lemma throttle_origin {X : Type} (limit : Z) (tr : list (TimedEvent X))
    (st : Throttled X) (c : Z * X) :
  In c (passed (throttle_run limit tr st)) ->
  In c (passed st) \/ In (Invoked (fst c) (snd c)) tr.
Proof.
  revert st. induction tr as [| ev tr IH]; intros st H; [left; exact H |].
  simpl in H. apply IH in H. destruct H as [H | H]; [| right; right; exact H].
  destruct ev as [t a | t]; simpl in H.
  - destruct (inThrottle st); simpl in H.
    + left. exact H.
    + apply in_app_or in H. destruct H as [H | [<- | []]].
      * left. exact H.
      * right. left. reflexivity.
  - left. destruct (release st) as [due |]; [| exact H].
    destruct (due <=? t); exact H.
Qed.

Lemma throttle_keeps_head {X : Type} (limit : Z) (tr : list (TimedEvent X))
    (st : Throttled X) (x : Z * X) :
  hd_error (passed st) = Some x ->
  hd_error (passed (throttle_run limit tr st)) = Some x.
Proof.
  revert st. induction tr as [| ev tr IH]; intros st H; [exact H |].
  simpl. apply IH. destruct ev as [t a | t]; simpl.
  - destruct (inThrottle st); simpl; [exact H |].
    destruct (passed st); [discriminate H | exact H].
  - destruct (release st) as [due |]; [| exact H].
    destruct (due <=? t); exact H.
Qed.

(** X18: a throttled function lets a first call through at once; every
    call it lets through is a call that was made, with its time and
    arguments; and for events in the order of their times, two successive
    calls let through are at least [limit] apart. *)
Theorem throttle_spacing {X : Type} (limit t0 : Z) (tr : list (TimedEvent X)) :
  chronological t0 tr ->
  let st := throttle_run limit tr (mkThrottled false None []) in
  spaced (Z.max 0 limit) (List.map fst (passed st)) /\
  (forall c, In c (passed st) -> In (Invoked (fst c) (snd c)) tr) /\
  (forall t a rest, tr = Invoked t a :: rest ->
     hd_error (passed st) = Some (t, a)).
Proof.
  intros Hchr st. subst st. split; [| split].
  - apply (throttle_run_spaced limit tr t0); [| exact Hchr].
    split; [exact I |]. split; [discriminate |].
    intros L HL. discriminate HL.
  - intros c Hc. apply throttle_origin in Hc.
    destruct Hc as [[] | Hc]. exact Hc.
  - intros t a rest ->. simpl. apply throttle_keeps_head. reflexivity.
Qed.

Lemma throttle_spacing_witness :
  spaced (Z.max 0 100)
    (List.map fst
       (passed (throttle_run 100 
                  [Invoked 0 "a"; Invoked 40 "b"; Expired 101; Invoked 120 "c"]
                  (mkThrottled false None [])))).
Proof.
  apply (proj1 (throttle_spacing 100 0
                  [Invoked 0 "a"; Invoked 40 "b"; Expired 101; Invoked 120 "c"]
                  ltac:(simpl; lia))).
Defined.

(** ** Without an overlay the post-load initialisers never run *)

Lemma maintains_ret {A : Type} (I : Page -> Prop) (a : A) : maintains I (ret a).
Proof. intros p H. exact H. Qed.

Lemma maintains_throw {A : Type} (I : Page -> Prop) (e : Exception) :
  maintains I (@throw A e).
Proof. intros p H. exact H. Qed.

Lemma maintains_bind {A B : Type} (I : Page -> Prop) (m : Method A)
    (k : A -> Method B) :
  maintains I m -> (forall a, maintains I (k a)) -> maintains I (bind m k).
Proof.
  intros Hm Hk p Hp. unfold bind. specialize (Hm p Hp).
  destruct (m p) as [p' [a | e]]; simpl in *.
  - apply Hk. exact Hm.
  - exact Hm.
Qed.

Lemma maintains_forEach_from {A : Type} (I : Page -> Prop)
    (f : nat -> A -> Method unit) (l : list A) :
  (forall i x, maintains I (f i x)) -> forall i, maintains I (forEach_from i f l).
Proof.
  intros Hf. induction l as [| x l IH]; intros i; simpl.
  - apply maintains_ret.
  - apply maintains_bind; [apply Hf | intros _; apply IH].
Qed.

Lemma idle_setTimeout (cb : Callback) (delay : Z) :
  post_load_callback cb = false -> maintains post_load_idle (setTimeout cb delay).
Proof.
  intros Hcb p (H1 & H2 & H3 & H4 & H5). unfold post_load_idle. simpl.
  repeat (split; [assumption |]). split; [| split; assumption].
  apply Forall_app. split; [exact H3 |]. constructor; [exact Hcb | constructor].
Qed.

Lemma idle_addEventListener (t : Target) (ev : string) (h : Handler) :
  post_load_handler h = false ->
  maintains post_load_idle (addEventListener t ev h).
Proof.
  intros Hh p (H1 & H2 & H3 & H4 & H5). unfold post_load_idle. simpl.
  repeat (split; [assumption |]).
  split; [| exact H5].
  apply Forall_app. split; [exact H4 |]. constructor; [exact Hh | constructor].
Qed.

Lemma idle_observe (observer : string) (t : Target) :
  String.eqb observer "statCounters" = false ->
  maintains post_load_idle (observe observer t).
Proof.
  intros Ho p (H1 & H2 & H3 & H4 & H5). unfold post_load_idle. simpl.
  repeat (split; [assumption |]).
  apply Forall_app. split; [exact H5 |]. constructor; [exact Ho | constructor].
Qed.

Lemma idle_update_document (f : Document -> Document) :
  (forall d, loading_screen d = None -> loading_screen (f d) = None) ->
  maintains post_load_idle (update_document f).
Proof.
  intros Hf p (H1 & H2 & H3 & H4 & H5). unfold post_load_idle. simpl.
  split; [apply Hf; exact H1 |]. repeat (split; [assumption |]). exact H5.
Qed.

Lemma idle_update_this (f : Portfolio -> Portfolio) :
  (forall o, loadingComplete o = false -> loadingComplete (f o) = false) ->
  maintains post_load_idle (update_this f).
Proof.
  intros Hf p (H1 & H2 & H3 & H4 & H5). unfold post_load_idle. simpl.
  split; [exact H1 |]. split; [apply Hf; exact H2 |].
  repeat (split; [assumption |]). exact H5.
Qed.

Ltac idle :=
  repeat first
    [ apply maintains_ret
    | apply maintains_throw
    | apply maintains_bind; [| intros ?]
    | apply maintains_forEach_from; intros ? ?
    | apply idle_setTimeout; reflexivity
    | apply idle_addEventListener; reflexivity
    | apply idle_observe; reflexivity
    | apply idle_update_document; intros ? ?; first [assumption | reflexivity]
    | apply idle_update_this; intros ? ?; first [assumption | reflexivity] ].

Lemma idle_setTheme (t : string) : maintains post_load_idle (setTheme t).
Proof.
  unfold setTheme.
  apply maintains_bind; [idle | intros _].
  apply maintains_bind; [idle | intros _].
  apply maintains_bind.
  { intros p Hp. unfold localStorage_setItem, setItem.
    destruct (writable (localStorage p)); exact Hp. }
  intros _.
  apply maintains_bind; [idle | intros _].
  apply maintains_bind; [| intros _; idle].
  intros p Hp. unfold updateThemeIcon.
  destruct (theme_toggle (document p)) as [b |]; [| exact Hp].
  destruct (light_icon b); [| exact Hp].
  destruct (dark_icon b); exact Hp.
Qed.

Lemma idle_toggleTheme : maintains post_load_idle toggleTheme.
Proof.
  intros p Hp. unfold toggleTheme.
  apply maintains_bind; [apply idle_setTheme | intros _ | exact Hp].
  unfold triggerThemeTransition. idle.
Qed.

Lemma idle_initLoading : maintains post_load_idle initLoading.
Proof.
  intros p Hp. unfold initLoading.
  destruct Hp as (H1 & Hrest). rewrite H1. split; assumption.
Qed.

Lemma idle_initNavigation : maintains post_load_idle initNavigation.
Proof.
  unfold initNavigation.
  apply maintains_bind; [idle | intros _].
  apply maintains_bind.
  { intros p. destruct (theme_toggle (document p)); idle. }
  intros _.
  apply maintains_bind.
  { intros p. unfold updateActiveNavLink. idle. }
  intros _.
  intros p. apply maintains_forEach_from. intros i link.
  destruct (href link) as [h |]; [destruct (String.prefix "#" h) |]; idle.
Qed.

Lemma idle_initInteractions : maintains post_load_idle initInteractions.
Proof.
  unfold initInteractions, initButtonRipples, initCardEffects, initTooltips,
    initFormInteractions, initKeyboardNavigation.
  idle; intros p; apply maintains_forEach_from; intros i x; idle.
Qed.

Lemma idle_initPerformance : maintains post_load_idle initPerformance.
Proof.
  unfold initPerformance, initLazyLoading, preloadCriticalResources,
    monitorPerformance, optimizeForLowEnd, insert_last.
  apply maintains_bind;
    [intros p; apply maintains_forEach_from; intros i x; idle | intros _].
  apply maintains_bind; [idle | intros _].
  apply maintains_bind; [idle | intros _].
  apply maintains_bind; [| intros _; idle].
  intros p. destruct (low_end p); idle.
Qed.

Lemma idle_initAccessibility : maintains post_load_idle initAccessibility.
Proof.
  unfold initAccessibility, announcePageChange, initSkipLinks,
    initFocusManagement, initLiveRegions, insert_last, insert_first.
  idle.
Qed.

Lemma idle_init : maintains post_load_idle init.
Proof.
  unfold init.
  apply maintains_bind; [intros p; apply idle_setTheme | intros _].
  apply maintains_bind; [apply idle_initLoading | intros _].
  apply maintains_bind; [apply idle_initNavigation | intros _].
  apply maintains_bind; [unfold initScrollProgress; idle | intros _].
  apply maintains_bind; [unfold initBackToTop, insert_last; idle | intros _].
  apply maintains_bind.
  { unfold initAnimations, initScrollAnimations.
    intros p; apply maintains_forEach_from; intros i x; idle. }
  intros _.
  apply maintains_bind; [apply idle_initInteractions | intros _].
  apply maintains_bind; [apply idle_initPerformance | intros _].
  apply idle_initAccessibility.
Qed.

Lemma idle_constructor : maintains post_load_idle constructor.
Proof.
  unfold constructor.
  apply maintains_bind; [intros p Hp; exact Hp | intros stored].
  apply maintains_bind; [idle | intros _].
  apply maintains_bind; [intros p; idle | intros _].
  apply maintains_bind; [idle | intros _].
  apply idle_init.
Qed.

Lemma idle_fire (cb : Callback) :
  post_load_callback cb = false -> maintains post_load_idle (fire cb).
Proof.
  destruct cb; simpl; intros Hcb; try discriminate Hcb; idle.
Qed.

Lemma idle_run_timer (i : nat) : maintains post_load_idle (run_timer i).
Proof.
  intros p Hp. unfold run_timer.
  destruct (nth_error (timers p) i) as [[due cb] |] eqn:E; [| exact Hp].
  destruct (due <=? now p); [| exact Hp].
  destruct Hp as (H1 & H2 & H3 & H4 & H5).
  assert (Hcb : post_load_callback cb = false).
  { apply nth_error_In in E.
    exact (proj1 (List.Forall_forall _ _) H3 _ E). }
  apply idle_fire; [exact Hcb |].
  unfold post_load_idle. simpl.
  repeat (split; [assumption |]). split; [| split; assumption].
  apply Forall_app. split; [apply Forall_take | apply Forall_drop]; exact H3.
Qed.

Lemma idle_dispatch_load : maintains post_load_idle dispatch_load.
Proof.
  intros p Hp. unfold dispatch_load.
  assert (Hl : Forall (fun l => post_load_handler (handler l) = false)
                 (listeners p)) by apply Hp.
  revert Hl. generalize (listeners p) as ls. unfold forEach.
  generalize 0%nat as i. intros i ls. revert i p Hp.
  induction ls as [| l ls IH]; intros i p Hp Hl; [exact Hp |].
  simpl. apply maintains_bind; [| intros _ q Hq | exact Hp].
  - inversion Hl as [| ? ? Hh _]; subst.
    destruct (target l); idle.
    destruct (String.eqb (event l) "load"); idle.
    destruct (handler l); simpl in *; try discriminate Hh; idle.
  - apply IH; [exact Hq |]. inversion Hl; assumption.
Qed.

Lemma idle_page_react (p : Page) (ev : PageEvent) :
  post_load_idle p -> post_load_idle (page_react p ev).
Proof.
  intros Hp. destruct ev as [dt | i | |]; simpl.
  - exact Hp.
  - apply idle_run_timer. exact Hp.
  - apply idle_dispatch_load. exact Hp.
  - apply idle_toggleTheme. exact Hp.
Qed.

Lemma idle_page_run (evs : list PageEvent) (p : Page) :
  post_load_idle p -> post_load_idle (page_run evs p).
Proof.
  revert p. induction evs as [| ev evs IH]; intros p Hp; [exact Hp |].
  simpl. apply IH. apply idle_page_react. exact Hp.
Qed.

(** X19: on a page without the loading overlay, [new ModernPortfolio()]
    starts no loading sequence, and none starts later: whatever timers
    fire, however much time passes, when the window [load] event arrives
    and however often the theme is toggled, [loadingComplete] stays
    [false] and nothing of [initPostLoad] happens: no stat counter is
    observed, no scroll-to-top or page-transition listener is registered
    and no entrance animation is scheduled. *)
Theorem no_overlay_no_post_load (p : Page) (evs : list PageEvent) :
  loading_screen (document p) = None ->
  loadingComplete (this p) = false ->
  timers p = [] -> listeners p = [] -> observed p = [] ->
  let q := page_run evs (fst (constructor p)) in
  loadingComplete (this q) = false /\
  (forall t, ~ In ("statCounters", t) (observed q)) /\
  (forall l, In l (listeners q) -> post_load_handler (handler l) = false) /\
  (forall due cb, In (due, cb) (timers q) -> post_load_callback cb = false).
Proof.
  intros H1 H2 H3 H4 H5 q.
  assert (Hq : post_load_idle q).
  { apply idle_page_run, idle_constructor.
    unfold post_load_idle. rewrite H3, H4, H5.
    repeat (split; [assumption || constructor |]). constructor. }
  destruct Hq as (_ & Q2 & Q3 & Q4 & Q5).
  split; [exact Q2 |]. split; [| split].
  - intros t Hin.
    pose proof (proj1 (List.Forall_forall _ _) Q5 _ Hin) as Hf.
    simpl in Hf. discriminate Hf.
  - intros l Hin. exact (proj1 (List.Forall_forall _ _) Q4 _ Hin).
  - intros due cb Hin. exact (proj1 (List.Forall_forall _ _) Q3 _ Hin).
Qed.

Lemma no_overlay_no_post_load_witness :
  loadingComplete
    (this (page_run [WindowLoad; Elapsed 1000; TimerDue 0; ToggleClick]
             (fst (constructor (page_of (storage_with None) (set_loading_screen None full_document))))))
  = false.
Proof.
  apply (no_overlay_no_post_load
           (page_of (storage_with None) (set_loading_screen None full_document))
           [WindowLoad; Elapsed 1000; TimerDue 0; ToggleClick]);
    reflexivity.
Defined.
